(** * awless template syntax: the generated PEG parser

    A shallow embedding of [template/ast/awless-template-syntax.peg.go]:
    the token store, the backtracking matcher functions built by [Peg.Init],
    the tree builder [tokens32.AST], the position translation used by
    [parseError.Error] and the replay pass [Peg.Execute]. *)

From Stdlib Require Import ZArith NArith Ascii Lia.
From stdpp Require Import base list numbers strings sorting gmap.

Local Open Scope N_scope.

(** ** Data model *)

(** A Go [rune] is a 32-bit integer holding a code point. *)
Abbreviation rune := Z (only parsing).

Definition endSymbol : rune := 1114112%Z.

(** [rn "c"] is the rune literal ['c']. *)
Definition rn (a : ascii) : rune := Z.of_N (N_of_ascii a).
Arguments rn a%_char.

(** [runes s] is [[]rune(s)] for a string [s] of ASCII characters (for such
    a string the UTF-8 decoding of Go is the identity on bytes). *)
Definition runes (s : string) : list rune :=
  List.map rn (String.list_ascii_of_string s).

Inductive pegRule :=
| ruleUnknown | ruleScript | ruleStatement | ruleAction | ruleEntity
| ruleDeclaration | ruleExpr | ruleParams | ruleParam | ruleIdentifier
| ruleValue | ruleStringValue | ruleCidrValue | ruleIpValue | ruleIntValue
| ruleIntRangeValue | ruleRefValue | ruleAliasValue | ruleHoleValue
| ruleComment | ruleSpacing | ruleWhiteSpacing | ruleMustWhiteSpacing
| ruleEqual | ruleSpace | ruleWhitespace | ruleEndOfLine | ruleEndOfFile
| rulePegText
| ruleAction0 | ruleAction1 | ruleAction2 | ruleAction3 | ruleAction4
| ruleAction5 | ruleAction6 | ruleAction7 | ruleAction8 | ruleAction9
| ruleAction10 | ruleAction11 | ruleAction12 | ruleAction13.

Definition pegRule_eqb (a b : pegRule) : bool :=
  match a, b with
  | ruleUnknown, ruleUnknown | ruleScript, ruleScript
  | ruleStatement, ruleStatement | ruleAction, ruleAction
  | ruleEntity, ruleEntity | ruleDeclaration, ruleDeclaration
  | ruleExpr, ruleExpr | ruleParams, ruleParams | ruleParam, ruleParam
  | ruleIdentifier, ruleIdentifier | ruleValue, ruleValue
  | ruleStringValue, ruleStringValue | ruleCidrValue, ruleCidrValue
  | ruleIpValue, ruleIpValue | ruleIntValue, ruleIntValue
  | ruleIntRangeValue, ruleIntRangeValue | ruleRefValue, ruleRefValue
  | ruleAliasValue, ruleAliasValue | ruleHoleValue, ruleHoleValue
  | ruleComment, ruleComment | ruleSpacing, ruleSpacing
  | ruleWhiteSpacing, ruleWhiteSpacing
  | ruleMustWhiteSpacing, ruleMustWhiteSpacing | ruleEqual, ruleEqual
  | ruleSpace, ruleSpace | ruleWhitespace, ruleWhitespace
  | ruleEndOfLine, ruleEndOfLine | ruleEndOfFile, ruleEndOfFile
  | rulePegText, rulePegText | ruleAction0, ruleAction0
  | ruleAction1, ruleAction1 | ruleAction2, ruleAction2
  | ruleAction3, ruleAction3 | ruleAction4, ruleAction4
  | ruleAction5, ruleAction5 | ruleAction6, ruleAction6
  | ruleAction7, ruleAction7 | ruleAction8, ruleAction8
  | ruleAction9, ruleAction9 | ruleAction10, ruleAction10
  | ruleAction11, ruleAction11 | ruleAction12, ruleAction12
  | ruleAction13, ruleAction13 => true
  | _, _ => false
  end.

(** The table of rule names, indexed by the rule. *)
Definition rul3s (r : pegRule) : string :=
  match r with
  | ruleUnknown => "Unknown" | ruleScript => "Script"
  | ruleStatement => "Statement" | ruleAction => "Action"
  | ruleEntity => "Entity" | ruleDeclaration => "Declaration"
  | ruleExpr => "Expr" | ruleParams => "Params" | ruleParam => "Param"
  | ruleIdentifier => "Identifier" | ruleValue => "Value"
  | ruleStringValue => "StringValue" | ruleCidrValue => "CidrValue"
  | ruleIpValue => "IpValue" | ruleIntValue => "IntValue"
  | ruleIntRangeValue => "IntRangeValue" | ruleRefValue => "RefValue"
  | ruleAliasValue => "AliasValue" | ruleHoleValue => "HoleValue"
  | ruleComment => "Comment" | ruleSpacing => "Spacing"
  | ruleWhiteSpacing => "WhiteSpacing"
  | ruleMustWhiteSpacing => "MustWhiteSpacing" | ruleEqual => "Equal"
  | ruleSpace => "Space" | ruleWhitespace => "Whitespace"
  | ruleEndOfLine => "EndOfLine" | ruleEndOfFile => "EndOfFile"
  | rulePegText => "PegText" | ruleAction0 => "Action0"
  | ruleAction1 => "Action1" | ruleAction2 => "Action2"
  | ruleAction3 => "Action3" | ruleAction4 => "Action4"
  | ruleAction5 => "Action5" | ruleAction6 => "Action6"
  | ruleAction7 => "Action7" | ruleAction8 => "Action8"
  | ruleAction9 => "Action9" | ruleAction10 => "Action10"
  | ruleAction11 => "Action11" | ruleAction12 => "Action12"
  | ruleAction13 => "Action13"
  end.

(** [token32]: a rule and a half-open span of [uint32] offsets. *)
Record token32 := Token32 { pegRule_ : pegRule; begin_ : N; end_ : N }.

(** The zero value [token32{}]. *)
Definition token0 : token32 := Token32 ruleUnknown 0 0.

(** [uint32] increment, as [x++] computes it. *)
Definition incr32 (x : N) : N := (x + 1) mod 2 ^ 32.

(** ** The token store *)

(** [tokens32.Add]: the store doubles when [index] is not below its length,
    then the slot [index] is written. [None] is Go's index-out-of-range
    panic. *)
Definition tokens32_Add (tree : list token32) (rule : pegRule)
    (begin end' index : N) : option (list token32) :=
  let tree' :=
    if N.of_nat (length tree) <=? index
    then tree ++ replicate (length tree) token0
    else tree in
  if index <? N.of_nat (length tree')
  then Some (<[N.to_nat index := Token32 rule begin end']> tree')
  else None.

(** [tokens32.Trim]. Slicing [t.tree[:length]] panics beyond the capacity,
    which is taken to be the length of the store. *)
Definition Trim (tree : list token32) (length' : N) : option (list token32) :=
  if length' <=? N.of_nat (length tree)
  then Some (take (N.to_nat length') tree)
  else None.

(** ** Parser state

    The variables captured by the closures of [Peg.Init]. *)
Record state := State {
  buffer : list rune;
  position : N;
  tokenIndex : N;
  max : token32;
  tree : list token32
}.

(** The result of running a matcher: it returns [matched] in a new state,
    or it panics (an index out of range), or the fuel given to a loop of the
    model ran out. *)
Inductive outcome :=
| Done (matched : bool) (st : state)
| Panic
| Timeout.

Definition matcher := state -> outcome.

(** [position, tokenIndex = position0, tokenIndex0] *)
Definition restore (position0 tokenIndex0 : N) (st : state) : state :=
  State (buffer st) position0 tokenIndex0 (max st) (tree st).

(** [position++] *)
Definition advance (st : state) : state :=
  State (buffer st) (incr32 (position st)) (tokenIndex st) (max st) (tree st).

(** [buffer[position]] *)
Definition peek (st : state) : option rune :=
  buffer st !! N.to_nat (position st).

(** The closure [add] of [Peg.Init]. *)
Definition add (rule : pegRule) (begin : N) : matcher := fun st =>
  match tokens32_Add (tree st) rule begin (position st) (tokenIndex st) with
  | None => Panic
  | Some tree' =>
      Done true
        (State (buffer st) (position st) (incr32 (tokenIndex st))
           (if negb (begin =? position st) && (end_ (max st) <? position st)
            then Token32 rule begin (position st)
            else max st)
           tree')
  end.

(** The closure [matchDot] of [Peg.Init]. *)
Definition matchDot : matcher := fun st =>
  match peek st with
  | None => Panic
  | Some c =>
      if Z.eqb c endSymbol then Done false st else Done true (advance st)
  end.

(** [if buffer[position] != rune(c) { goto fail }; position++] *)
Definition matchChar (c : rune) : matcher := fun st =>
  match peek st with
  | None => Panic
  | Some x => if Z.eqb x c then Done true (advance st) else Done false st
  end.

(** [if c := buffer[position]; c < lower || c > upper { goto fail };
    position++] *)
Definition matchRange (lower upper : rune) : matcher := fun st =>
  match peek st with
  | None => Panic
  | Some c =>
      if Z.ltb c lower || Z.ltb upper c then Done false st
      else Done true (advance st)
  end.

(** ** Control flow of the generated code

    A failing sub-match jumps to a label; the state it leaves is the one at
    the jump, and the code at the label restores the saved pair. *)

Definition ok : matcher := fun st => Done true st.

(** Statements in sequence. *)
Definition seq (m1 m2 : matcher) : matcher := fun st =>
  match m1 st with
  | Done true st1 => m2 st1
  | r => r
  end.

Notation "m1 >>> m2" := (seq m1 m2) (at level 65, right associativity).

(** Ordered choice [e1 / e2]:
    [positionN, tokenIndexN := position, tokenIndex; e1; goto lN;
     lM: position, tokenIndex = positionN, tokenIndexN; e2; lN:] *)
Definition alt (m1 m2 : matcher) : matcher := fun st =>
  let position0 := position st in
  let tokenIndex0 := tokenIndex st in
  match m1 st with
  | Done false st1 => m2 (restore position0 tokenIndex0 st1)
  | r => r
  end.

(** Zero-or-more [e*]:
    [lN: { positionM, tokenIndexM := position, tokenIndex; e (goto lM on
     failure); goto lN; lM: position, tokenIndex = positionM, tokenIndexM }].
    The Go loop is unbounded; the model counts iterations down from [fuel]. *)
Fixpoint star_loop (fuel : nat) (m : matcher) (st : state) : outcome :=
  match fuel with
  | O => Timeout
  | S fuel' =>
      let position0 := position st in
      let tokenIndex0 := tokenIndex st in
      match m st with
      | Done true st1 => star_loop fuel' m st1
      | Done false st1 => Done true (restore position0 tokenIndex0 st1)
      | r => r
      end
  end.

Definition star (m : matcher) : matcher := fun st =>
  star_loop (S (length (buffer st))) m st.

(** One-or-more [e+]: the generated code is a copy of [e] followed by the
    loop of [e*]; the two copies differ in their failure label only. *)
Definition plus (m : matcher) : matcher := m >>> star m.

(** Optional [e?]. *)
Definition opt (m : matcher) : matcher := alt m ok.

(** Negative lookahead [!e]:
    [positionN, tokenIndexN := position, tokenIndex; if !e { goto lN };
     goto fail; lN: position, tokenIndex = positionN, tokenIndexN] *)
Definition neg (m : matcher) : matcher := fun st =>
  let position0 := position st in
  let tokenIndex0 := tokenIndex st in
  match m st with
  | Done true st1 => Done false st1
  | Done false st1 => Done true (restore position0 tokenIndex0 st1)
  | r => r
  end.

(** [<e>] for a rule: [positionN := position; e; add(rule, positionN)] *)
Definition capture (rule : pegRule) (m : matcher) : matcher := fun st =>
  let begin := position st in
  match m st with
  | Done true st1 => add rule begin st1
  | r => r
  end.

(** A semantic action: [add(ruleActionK, position)] *)
Definition action (rule : pegRule) : matcher := fun st =>
  add rule (position st) st.

(** [switch buffer[position] { case c...: e ... default: d }] *)
Fixpoint select (c : rune) (cases : list (list rune * matcher))
    (default : matcher) : matcher :=
  match cases with
  | [] => default
  | (cs, m) :: cases' =>
      if existsb (Z.eqb c) cs then m else select c cases' default
  end.

Definition switch (cases : list (list rune * matcher)) (default : matcher)
    : matcher := fun st =>
  match peek st with
  | None => Panic
  | Some c => select c cases default st
  end.

(** A function of the table [_rules]:
    [positionN, tokenIndexN := position, tokenIndex; body; return true;
     lN: position, tokenIndex = positionN, tokenIndexN; return false] *)
Definition rule_fn (body : matcher) : matcher := fun st =>
  let position0 := position st in
  let tokenIndex0 := tokenIndex st in
  match body st with
  | Done false st1 => Done false (restore position0 tokenIndex0 st1)
  | r => r
  end.

(** A run of literal characters ['c' 'r' 'e' ...]. *)
Fixpoint chars (cs : list rune) : matcher :=
  match cs with
  | [] => ok
  | c :: cs' => matchChar c >>> chars cs'
  end.

Definition lit (s : string) : matcher := chars (runes s).

Definition upperCase : list rune := runes "ABCDEFGHIJKLMNOPQRSTUVWXYZ".
Definition digits : list rune := runes "0123456789".

(** ** The grammar

    The functions of the table [_rules], and the rules the generator inlined
    at their call sites (marked "inlined"). *)

(** 24 Whitespace <- <(' ' / '\t')> *)
Definition Whitespace : matcher :=
  rule_fn (capture ruleWhitespace (alt (matchChar (rn " ")) (matchChar (rn "009")))).

(** 25 EndOfLine <- <(('\r' '\n') / '\n' / '\r')> *)
Definition EndOfLine : matcher :=
  rule_fn (capture ruleEndOfLine
    (alt (matchChar (rn "013") >>> matchChar (rn "010"))
      (alt (matchChar (rn "010")) (matchChar (rn "013"))))).

(** 23 Space <- <(Whitespace / EndOfLine)> (inlined) *)
Definition Space : matcher :=
  capture ruleSpace (alt Whitespace EndOfLine).

(** 19 Spacing <- <Space*> *)
Definition Spacing : matcher :=
  capture ruleSpacing (star Space).

(** 20 WhiteSpacing <- <Whitespace*> *)
Definition WhiteSpacing : matcher :=
  capture ruleWhiteSpacing (star Whitespace).

(** 21 MustWhiteSpacing <- <Whitespace+> *)
Definition MustWhiteSpacing : matcher :=
  rule_fn (capture ruleMustWhiteSpacing (plus Whitespace)).

(** 22 Equal <- <(Spacing '=' Spacing)> *)
Definition Equal : matcher :=
  rule_fn (capture ruleEqual (Spacing >>> matchChar (rn "=") >>> Spacing)).

(** One character of an Identifier: the [switch] of rule 8. *)
Definition identifierChar : matcher :=
  switch
    [ ([rn "."], matchChar (rn "."));
      ([rn "_"], matchChar (rn "_"));
      ([rn "-"], matchChar (rn "-"));
      (upperCase, matchRange (rn "A") (rn "Z")) ]
    (matchRange (rn "a") (rn "z")).

(** 8 Identifier <- <(...)+> *)
Definition Identifier : matcher :=
  rule_fn (capture ruleIdentifier (plus identifierChar)).

(** 2 Action (inlined) *)
Definition Action : matcher :=
  capture ruleAction
    (alt (lit "create")
      (alt (lit "delete")
        (alt (lit "start")
          (switch
            [ ([rn "d"], lit "detach");
              ([rn "c"], lit "check");
              ([rn "a"], lit "attach");
              ([rn "u"], lit "update") ]
            (lit "stop"))))).

(** 3 Entity (inlined) *)
Definition Entity : matcher :=
  capture ruleEntity
    (alt (lit "vpc")
      (alt (lit "subnet")
        (alt (lit "instance")
          (alt (lit "tag")
            (alt (lit "role")
              (alt (lit "securitygroup")
                (alt (lit "routetable")
                  (alt (lit "storageobject")
                    (switch
                      [ ([rn "q"], lit "queue");
                        ([rn "t"], lit "topic");
                        ([rn "s"], lit "subscription");
                        ([rn "b"], lit "bucket");
                        ([rn "r"], lit "route");
                        ([rn "i"], lit "internetgateway");
                        ([rn "k"], lit "keypair");
                        ([rn "p"], lit "policy");
                        ([rn "g"], lit "group");
                        ([rn "u"], lit "user") ]
                      (lit "volume")))))))))).

(** [[0-9]] *)
Definition digit : matcher := matchRange (rn "0") (rn "9").

(** 11 CidrValue <- <([0-9]+ . [0-9]+ . [0-9]+ . [0-9]+ '/' [0-9]+)>
    (inlined); the separators are [matchDot]. *)
Definition CidrValue : matcher :=
  capture ruleCidrValue
    (plus digit >>> matchDot >>> plus digit >>> matchDot >>>
     plus digit >>> matchDot >>> plus digit >>>
     matchChar (rn "/") >>> plus digit).

(** 12 IpValue <- <([0-9]+ . [0-9]+ . [0-9]+ . [0-9]+)> (inlined) *)
Definition IpValue : matcher :=
  capture ruleIpValue
    (plus digit >>> matchDot >>> plus digit >>> matchDot >>>
     plus digit >>> matchDot >>> plus digit).

(** 14 IntRangeValue <- <([0-9]+ '-' [0-9]+)> (inlined) *)
Definition IntRangeValue : matcher :=
  capture ruleIntRangeValue (plus digit >>> matchChar (rn "-") >>> plus digit).

(** 13 IntValue <- <[0-9]+> (inlined) *)
Definition IntValue : matcher :=
  capture ruleIntValue (plus digit).

(** 15 RefValue <- <('$' <Identifier>)> (inlined) *)
Definition RefValue : matcher :=
  capture ruleRefValue (matchChar (rn "$") >>> capture rulePegText Identifier).

(** 16 AliasValue <- <('@' <Identifier>)> (inlined) *)
Definition AliasValue : matcher :=
  capture ruleAliasValue (matchChar (rn "@") >>> capture rulePegText Identifier).

(** 17 HoleValue <- <('{' WhiteSpacing <Identifier> WhiteSpacing '}')>
    (inlined) *)
Definition HoleValue : matcher :=
  capture ruleHoleValue
    (matchChar (rn "{") >>> WhiteSpacing >>> capture rulePegText Identifier >>>
     WhiteSpacing >>> matchChar (rn "}")).

(** One character of a StringValue: the [switch] of rule 10. *)
Definition stringValueChar : matcher :=
  switch
    [ ([rn "/"], matchChar (rn "/"));
      ([rn ":"], matchChar (rn ":"));
      ([rn "_"], matchChar (rn "_"));
      ([rn "."], matchChar (rn "."));
      ([rn "-"], matchChar (rn "-"));
      (digits, matchRange (rn "0") (rn "9"));
      (upperCase, matchRange (rn "A") (rn "Z")) ]
    (matchRange (rn "a") (rn "z")).

(** 10 StringValue <- <(...)+> (inlined) *)
Definition StringValue : matcher :=
  capture ruleStringValue (plus stringValueChar).

(** The alternatives of rule 9, each with its action. *)
Definition valueCidr : matcher :=
  capture rulePegText CidrValue >>> action ruleAction8.

Definition valueIp : matcher :=
  capture rulePegText IpValue >>> action ruleAction9.

Definition valueIntRange : matcher :=
  capture rulePegText IntRangeValue >>> action ruleAction10.

Definition valueInt : matcher :=
  capture rulePegText IntValue >>> action ruleAction11.

(** The [switch] on the leading rune: RefValue, AliasValue, HoleValue, and
    StringValue by default. *)
Definition valueByLeadingRune : matcher :=
  switch
    [ ([rn "$"], RefValue >>> action ruleAction7);
      ([rn "@"], AliasValue >>> action ruleAction6);
      ([rn "{"], HoleValue >>> action ruleAction5) ]
    (capture rulePegText StringValue >>> action ruleAction12).

(** 9 Value (inlined): Cidr, then Ip, then IntRange, then Int, then the
    [switch] on the leading rune. *)
Definition Value : matcher :=
  capture ruleValue
    (alt valueCidr
      (alt valueIp
        (alt valueIntRange
          (alt valueInt valueByLeadingRune)))).

(** 7 Param <- <(<Identifier> Action4 Equal Value WhiteSpacing)> (inlined) *)
Definition Param : matcher :=
  capture ruleParam
    (capture rulePegText Identifier >>> action ruleAction4 >>> Equal >>>
     Value >>> WhiteSpacing).

(** 6 Params <- <Param+> (inlined) *)
Definition Params : matcher :=
  capture ruleParams (plus Param).

(** 5 Expr <- <(<Action> Action1 MustWhiteSpacing <Entity> Action2
                (MustWhiteSpacing Params)? Action3)> *)
Definition Expr : matcher :=
  rule_fn (capture ruleExpr
    (capture rulePegText Action >>> action ruleAction1 >>>
     MustWhiteSpacing >>>
     capture rulePegText Entity >>> action ruleAction2 >>>
     opt (MustWhiteSpacing >>> Params) >>>
     action ruleAction3)).

(** 4 Declaration <- <(<Identifier> Action0 Equal Expr)> (inlined) *)
Definition Declaration : matcher :=
  capture ruleDeclaration
    (capture rulePegText Identifier >>> action ruleAction0 >>> Equal >>> Expr).

(** [(!EndOfLine .)*] *)
Definition restOfLine : matcher := star (neg EndOfLine >>> matchDot).

(** The two alternatives of rule 18. *)
Definition hashComment : matcher := matchChar (rn "#") >>> restOfLine.

Definition slashComment : matcher :=
  matchChar (rn "/") >>> matchChar (rn "/") >>> restOfLine >>>
  action ruleAction13.

(** 18 Comment <- <(('#' (!EndOfLine .)* ) / ('/' '/' (!EndOfLine .)* Action13))>
    (inlined) *)
Definition Comment : matcher :=
  capture ruleComment (alt hashComment slashComment).

(** 1 Statement <- <(Spacing (Expr / Declaration / Comment) Spacing
                     EndOfLine* )> (inlined) *)
Definition Statement : matcher :=
  capture ruleStatement
    (Spacing >>> alt Expr (alt Declaration Comment) >>> Spacing >>>
     star EndOfLine).

(** 26 EndOfFile <- <!.> (inlined) *)
Definition EndOfFile : matcher :=
  capture ruleEndOfFile (neg matchDot).

(** 0 Script <- <(Spacing Statement+ EndOfFile)> *)
Definition Script : matcher :=
  rule_fn (capture ruleScript (Spacing >>> plus Statement >>> EndOfFile)).

(** The table [_rules]; [None] is a [nil] entry. *)
Definition _rules (r : pegRule) : option matcher :=
  match r with
  | ruleScript => Some Script
  | ruleExpr => Some Expr
  | ruleIdentifier => Some Identifier
  | ruleSpacing => Some Spacing
  | ruleWhiteSpacing => Some WhiteSpacing
  | ruleMustWhiteSpacing => Some MustWhiteSpacing
  | ruleEqual => Some Equal
  | ruleWhitespace => Some Whitespace
  | ruleEndOfLine => Some EndOfLine
  | _ => None
  end.

(** ** Init, Parse *)

Definition math_MaxInt16 : nat := N.to_nat 32767.

(** The closure [reset]: the sentinel is appended unless it is already the
    last rune. *)
Definition reset_buffer (Buffer : list rune) : list rune :=
  match last Buffer with
  | Some c => if Z.eqb c endSymbol then Buffer else Buffer ++ [endSymbol]
  | None => Buffer ++ [endSymbol]
  end.

(** The state after [Peg.Init] on the text [Buffer]. *)
Definition Init (Buffer : list rune) : state :=
  State (reset_buffer Buffer) 0 0 token0 (replicate math_MaxInt16 token0).

(** [Peg.Reset]: the token store is kept. *)
Definition Reset (Buffer : list rune) (st : state) : state :=
  State (reset_buffer Buffer) 0 0 token0 (tree st).

(** What [Peg.Parse] leaves: the error returned ([None] is [nil]) and the
    token list [p.tokens32]. *)
Inductive parsed :=
| Parsed (err : option token32) (tokens : list token32)
| ParsePanic
| ParseTimeout.

(** The closure [parse] on a constant of [pegRule]; the rule defaults to
    [ruleScript]. The closure on any rule number is [parse], below. *)
Definition Parse (rule : list pegRule) (st : state) : parsed :=
  let r := match rule with r :: _ => r | [] => ruleScript end in
  match _rules r with
  | None => ParsePanic
  | Some f =>
      match f st with
      | Done true st' =>
          match Trim (tree st') (tokenIndex st') with
          | Some tokens => Parsed None tokens
          | None => ParsePanic
          end
      | Done false st' => Parsed (Some (max st')) (tree st')
      | Panic => ParsePanic
      | Timeout => ParseTimeout
      end
  end.

(** The constants of [pegRule] in the order of their declaration: the
    constant at the index [i] has the value [i]. *)
Definition pegRules : list pegRule :=
  [ ruleUnknown; ruleScript; ruleStatement; ruleAction; ruleEntity;
    ruleDeclaration; ruleExpr; ruleParams; ruleParam; ruleIdentifier;
    ruleValue; ruleStringValue; ruleCidrValue; ruleIpValue; ruleIntValue;
    ruleIntRangeValue; ruleRefValue; ruleAliasValue; ruleHoleValue;
    ruleComment; ruleSpacing; ruleWhiteSpacing; ruleMustWhiteSpacing;
    ruleEqual; ruleSpace; ruleWhitespace; ruleEndOfLine; ruleEndOfFile;
    rulePegText; ruleAction0; ruleAction1; ruleAction2; ruleAction3;
    ruleAction4; ruleAction5; ruleAction6; ruleAction7; ruleAction8;
    ruleAction9; ruleAction10; ruleAction11; ruleAction12; ruleAction13 ].

(** The number of a rule. *)
Definition pegRule_id (r : pegRule) : Z :=
  match r with
  | ruleUnknown => 0 | ruleScript => 1 | ruleStatement => 2
  | ruleAction => 3 | ruleEntity => 4 | ruleDeclaration => 5 | ruleExpr => 6
  | ruleParams => 7 | ruleParam => 8 | ruleIdentifier => 9 | ruleValue => 10
  | ruleStringValue => 11 | ruleCidrValue => 12 | ruleIpValue => 13
  | ruleIntValue => 14 | ruleIntRangeValue => 15 | ruleRefValue => 16
  | ruleAliasValue => 17 | ruleHoleValue => 18 | ruleComment => 19
  | ruleSpacing => 20 | ruleWhiteSpacing => 21 | ruleMustWhiteSpacing => 22
  | ruleEqual => 23 | ruleSpace => 24 | ruleWhitespace => 25
  | ruleEndOfLine => 26 | ruleEndOfFile => 27 | rulePegText => 28
  | ruleAction0 => 29 | ruleAction1 => 30 | ruleAction2 => 31
  | ruleAction3 => 32 | ruleAction4 => 33 | ruleAction5 => 34
  | ruleAction6 => 35 | ruleAction7 => 36 | ruleAction8 => 37
  | ruleAction9 => 38 | ruleAction10 => 39 | ruleAction11 => 40
  | ruleAction12 => 41 | ruleAction13 => 42
  end%Z.

(** The array [p.rules], of type [[43]func() bool]: the entry of a rule is
    at the index of its number. *)
Definition rules_array : list (option matcher) := List.map _rules pegRules.

(** [a[i]] for an [int]; [None] is the index-out-of-range panic. *)
Definition array_index {A} (a : list A) (i : Z) : option A :=
  if (i <? 0)%Z then None else a !! Z.to_nat i.

(** The closure [parse] on the rule numbers [rule ...int]: [r] is the first
    of them, or [1]; [p.rules[r]()] panics when [r] is not an index of the
    array, and when the entry is [nil]. [Parse] above is this closure on
    the numbers of the constants of [pegRule]. *)
Definition parse (rule : list Z) (st : state) : parsed :=
  let r := match rule with r :: _ => r | [] => 1%Z end in
  match array_index rules_array r with
  | None => ParsePanic
  | Some None => ParsePanic
  | Some (Some f) =>
      match f st with
      | Done true st' =>
          match Trim (tree st') (tokenIndex st') with
          | Some tokens => Parsed None tokens
          | None => ParsePanic
          end
      | Done false st' => Parsed (Some (max st')) (tree st')
      | Panic => ParsePanic
      | Timeout => ParseTimeout
      end
  end.

(** ** Execute *)

(** The calls [Peg.Execute] makes on the embedded [*AST]. *)
Inductive callback :=
| addDeclarationIdentifier (text : list rune)
| addAction (text : list rune)
| addEntity (text : list rune)
| LineDone
| addParamKey (text : list rune)
| addParamHoleValue (text : list rune)
| addParamAliasValue (text : list rune)
| addParamRefValue (text : list rune)
| addParamCidrValue (text : list rune)
| addParamIpValue (text : list rune)
| addParamValue (text : list rune)
| addParamIntValue (text : list rune).

(** [s[low:high]]; [None] is the slice-bounds panic. The capacity of the
    slice is taken to be its length. *)
Definition slice {A} (s : list A) (low high : N) : option (list A) :=
  if (low <=? high) && (high <=? N.of_nat (length s))
  then Some (take (N.to_nat high - N.to_nat low) (drop (N.to_nat low) s))
  else None.

(** The body of the loop of [Peg.Execute]: the new [text] register and the
    call made, if any. *)
Definition Execute_step (_buffer : list rune) (text : list rune)
    (token : token32) : option (list rune * list callback) :=
  match pegRule_ token with
  | rulePegText =>
      match slice _buffer (begin_ token) (end_ token) with
      | Some text' => Some (text', [])
      | None => None
      end
  | ruleAction0 => Some (text, [addDeclarationIdentifier text])
  | ruleAction1 => Some (text, [addAction text])
  | ruleAction2 => Some (text, [addEntity text])
  | ruleAction3 => Some (text, [LineDone])
  | ruleAction4 => Some (text, [addParamKey text])
  | ruleAction5 => Some (text, [addParamHoleValue text])
  | ruleAction6 => Some (text, [addParamAliasValue text])
  | ruleAction7 => Some (text, [addParamRefValue text])
  | ruleAction8 => Some (text, [addParamCidrValue text])
  | ruleAction9 => Some (text, [addParamIpValue text])
  | ruleAction10 => Some (text, [addParamValue text])
  | ruleAction11 => Some (text, [addParamIntValue text])
  | ruleAction12 => Some (text, [addParamValue text])
  | ruleAction13 => Some (text, [LineDone])
  | _ => Some (text, [])
  end.

Fixpoint Execute_loop (_buffer : list rune) (text : list rune)
    (tokens : list token32) : option (list callback) :=
  match tokens with
  | [] => Some []
  | token :: tokens' =>
      match Execute_step _buffer text token with
      | None => None
      | Some (text', calls) =>
          match Execute_loop _buffer text' tokens' with
          | None => None
          | Some calls' => Some (calls ++ calls')
          end
      end
  end.

(** [Peg.Execute]: the calls made, in order; [None] is a panic. *)
Definition Execute (_buffer : list rune) (tokens : list token32)
    : option (list callback) :=
  Execute_loop _buffer [] tokens.

(** Parse the text and, when it matches, execute the token list. *)
Definition run (Buffer : list rune) : option (list callback) :=
  let st := Init Buffer in
  match Parse [] st with
  | Parsed None tokens => Execute (buffer st) tokens
  | _ => None
  end.

(** ** The tree builder *)

(** A [node32] with the chain of its children: [up] is the first child and
    each child's [next] is the following one. *)
#[warnings="-register-all"]
Inductive node32 := Node32 (token : token32) (up : list node32).

Definition node_token (n : node32) : token32 :=
  match n with Node32 token _ => token end.

Definition node_up (n : node32) : list node32 :=
  match n with Node32 _ up => up end.

(** The inner loop of [tokens32.AST]: while the top of the stack lies within
    the token, [stack.node.next = node.up; node.up = stack.node;
    stack = stack.down]. *)
Fixpoint AST_pop (token : token32) (up : list node32) (stack : list node32)
    : list node32 * list node32 :=
  match stack with
  | top :: down =>
      if (begin_ token <=? begin_ (node_token top))
         && (end_ (node_token top) <=? end_ token)
      then AST_pop token (top :: up) down
      else (up, stack)
  | [] => (up, [])
  end.

(** One iteration of the outer loop. *)
Definition AST_step (stack : list node32) (token : token32) : list node32 :=
  if begin_ token =? end_ token then stack
  else
    let '(up, stack') := AST_pop token [] stack in
    Node32 token up :: stack'.

(** The stack after the outer loop, the top first. *)
Definition AST_stack (tokens : list token32) : list node32 :=
  fold_left AST_step tokens [].

(** [tokens32.AST]; [None] is [nil]. *)
Definition AST (tokens : list token32) : option node32 :=
  match AST_stack tokens with
  | top :: _ => Some top
  | [] => None
  end.

(** ** The error report *)

Record textPosition := TextPosition { line : Z; symbol : Z }.

(** The zero value read from a map at a missing key. *)
Definition textPosition0 : textPosition := TextPosition 0 0.

(** The loop [for j++; j < length; j++ { if i != positions[j] { continue
    search } }]: the positions still to find, after those equal to [i]. *)
Fixpoint skip_equal (i : Z) (positions : list Z) : list Z :=
  match positions with
  | p :: positions' =>
      if Z.eqb i p then skip_equal i positions' else positions
  | [] => []
  end.

(** The loop [search] of [translatePositions], at index [i] of the buffer,
    [positions] being [positions[j:]]. [None] is the panic of
    [positions[j]] on an empty slice. *)
Fixpoint search (buffer : list rune) (i : Z) (positions : list Z)
    (line symbol : Z) (translations : gmap Z textPosition)
    : option (gmap Z textPosition) :=
  match buffer with
  | [] => Some translations
  | c :: buffer' =>
      let '(line, symbol) :=
        if Z.eqb c (rn "010") then ((line + 1)%Z, 0%Z)
        else (line, (symbol + 1)%Z) in
      match positions with
      | [] => None
      | p :: positions' =>
          if Z.eqb i p then
            let translations := <[p := TextPosition line symbol]> translations in
            match skip_equal i positions' with
            | [] => Some translations
            | positions'' =>
                search buffer' (i + 1)%Z positions'' line symbol translations
            end
          else search buffer' (i + 1)%Z positions line symbol translations
      end
  end.

(** [translatePositions]; [sort.Ints] is the merge sort of the library. *)
Definition translatePositions (buffer : list rune) (positions : list Z)
    : option (gmap Z textPosition) :=
  search buffer 0%Z (merge_sort Z.le positions) 1%Z 0%Z ∅.

(** An argument of [fmt.Sprintf]. *)
Inductive arg := ArgString (s : string) | ArgInt (n : Z).

Definition esc : string := String "027" EmptyString.
Definition newline : string := String "010" EmptyString.

Definition format (Pretty : bool) : string :=
  if Pretty
  then "parse error near " +:+ esc +:+ "[34m%v" +:+ esc +:+
       "[m (line %v symbol %v - line %v symbol %v):" +:+ newline +:+ "%v"
       +:+ newline
  else "parse error near %v (line %v symbol %v - line %v symbol %v):"
       +:+ newline +:+ "%v" +:+ newline.

Section Error.
(** [fmt.Sprintf] and [strconv.Quote] of the Go library. *)
Variable Sprintf : string -> list arg -> string.
Variable Quote : list rune -> string.

(** [parseError.Error] for the buffer [p.buffer], the flag [p.Pretty] and
    the token [e.max]; [None] is a panic. *)
Definition Error (buffer : list rune) (Pretty : bool) (max : token32)
    : option string :=
  let begin := Z.of_N (begin_ max) in
  let end' := Z.of_N (end_ max) in
  match translatePositions buffer [begin; end'] with
  | None => None
  | Some translations =>
      match slice buffer (begin_ max) (end_ max) with
      | None => None
      | Some excerpt =>
          Some (newline +:+
            Sprintf (format Pretty)
              [ ArgString (rul3s (pegRule_ max));
                ArgInt (line (default textPosition0 (translations !! begin)));
                ArgInt (symbol (default textPosition0 (translations !! begin)));
                ArgInt (line (default textPosition0 (translations !! end')));
                ArgInt (symbol (default textPosition0 (translations !! end')));
                ArgString (Quote excerpt) ])
      end
  end.
End Error.

(** ** Invariants of the parser state *)

(** The token records that count: the first [tokenIndex] slots of the
    store. *)
Definition visible (st : state) : list token32 :=
  take (N.to_nat (tokenIndex st)) (tree st).

(** The store has fewer than [2^32] slots, so that [tokenIndex], which
    never exceeds the length of the store, has not wrapped around. *)
Definition nowrap (st : state) : Prop :=
  N.of_nat (length (tree st)) < 2 ^ 32.

(** A state [reset] and the matchers keep: the buffer ends with the
    sentinel and is indexed by a [uint32], [position] is an index of it,
    [tokenIndex] is at most the length of the store, which is not empty. *)
Definition wf (st : state) : Prop :=
  last (buffer st) = Some endSymbol /\
  N.of_nat (length (buffer st)) <= 2 ^ 32 /\
  position st < N.of_nat (length (buffer st)) /\
  tokenIndex st <= N.of_nat (length (tree st)) /\
  (0 < length (tree st))%nat.

(** The span of [t] lies between the offsets [lo] and [hi]. *)
Definition inside (lo hi : N) (t : token32) : Prop :=
  lo <= begin_ t /\ begin_ t <= end_ t /\ end_ t <= hi.

(** What a run of a matcher from [st] to [st'] may change. *)
Record step (st st' : state) : Prop := Step {
  step_buffer : buffer st' = buffer st;
  step_position : position st <= position st';
  step_tree : (length (tree st) <= length (tree st'))%nat;
  step_max :
    max st' = max st \/
    (end_ (max st) < end_ (max st') /\ begin_ (max st') <> end_ (max st'));
  step_visible :
    nowrap st' ->
    exists l, visible st' = visible st ++ l /\
              Forall (inside (position st) (position st')) l
}.

(** From a well-formed state the matcher returns, in a well-formed state;
    with [p], a match consumes at least one rune. *)
Definition safe (p : bool) (m : matcher) : Prop :=
  forall st, wf st ->
    exists b st', m st = Done b st' /\ wf st' /\ step st st' /\
      (p = true -> b = true -> position st < position st').

(** A literal of the grammar: not empty, and without the sentinel. *)
Definition lit_ok (cs : list rune) : bool :=
  match cs with
  | [] => false
  | _ => forallb (fun c => negb (Z.eqb c endSymbol)) cs
  end.

(** ** Line and column numbers

    The usual 1-based numbers of the offset [i] of a text: the line is one
    more than the number of line feeds before the offset, the column one
    more than the number of runes between the last of these line feeds and
    the offset. *)

Definition newlines (l : list rune) : Z :=
  Z.of_nat (length (List.filter (fun c => Z.eqb c (rn "010")) l)).

(** The length of the longest prefix without a line feed. *)
Fixpoint run_length (l : list rune) : nat :=
  match l with
  | [] => O
  | c :: l' => if Z.eqb c (rn "010") then O else S (run_length l')
  end.

(** The number of runes after the last line feed. *)
Definition since_newline (l : list rune) : Z :=
  Z.of_nat (run_length (rev l)).

Definition line_number (buffer : list rune) (i : nat) : Z :=
  (1 + newlines (take i buffer))%Z.

Definition column_number (buffer : list rune) (i : nat) : Z :=
  (1 + since_newline (take i buffer))%Z.

(** The reading of the report as 1-based line and column numbers: the
    translation of every offset of the buffer is its line number and its
    column number. *)
Definition one_based_positions : Prop :=
  forall buffer i translations,
    (i < length buffer)%nat ->
    translatePositions buffer [Z.of_nat i] = Some translations ->
    translations !! Z.of_nat i =
      Some (TextPosition (line_number buffer i) (column_number buffer i)).

(** One iteration of the scan of [translatePositions], on the pair of
    [line] and [symbol]. *)
Definition scan_step (ls : Z * Z) (c : rune) : Z * Z :=
  if Z.eqb c (rn "010") then ((ls.1 + 1)%Z, 0%Z) else (ls.1, (ls.2 + 1)%Z).

(** The pair after the runes [l]. *)
Definition scan (l : list rune) (start : Z * Z) : Z * Z :=
  fold_left scan_step l start.

(** What the scan records for the offset [i]: the state after the rune at
    the offset. *)
Definition scanned (buffer : list rune) (i : nat) : textPosition :=
  let ls := scan (take (S i) buffer) (1%Z, 0%Z) in
  TextPosition ls.1 ls.2.

(** ** Counting the calls of [LineDone] *)

Definition is_LineDone (c : callback) : bool :=
  match c with LineDone => true | _ => false end.

Definition is_rule (r : pegRule) (t : token32) : bool :=
  pegRule_eqb (pegRule_ t) r.

(** The record of a Comment that begins with the rune [c]. *)
Definition is_comment_with (c : rune) (buffer : list rune) (t : token32)
    : bool :=
  is_rule ruleComment t &&
  match buffer !! N.to_nat (begin_ t) with
  | Some x => Z.eqb x c
  | None => false
  end.

(** A [//] comment, a [#] comment. *)
Definition is_slash_comment := is_comment_with (rn "/").
Definition is_hash_comment := is_comment_with (rn "#").

Definition count {A} (f : A -> bool) (l : list A) : nat :=
  length (List.filter f l).

(** The records that stand for a call of [LineDone] weigh 1, the records
    of Expr and of a [//] comment -1. *)
Definition rule_weight (r : pegRule) : Z :=
  match r with
  | ruleAction3 | ruleAction13 => 1%Z
  | ruleExpr => (-1)%Z
  | _ => 0%Z
  end.

Definition weight (buffer : list rune) (t : token32) : Z :=
  if is_slash_comment buffer t then (-1)%Z else rule_weight (pegRule_ t).

Definition balance (buffer : list rune) (l : list token32) : Z :=
  fold_right (fun t acc => (weight buffer t + acc)%Z) 0%Z l.

(** The records a match of [m] adds weigh [d] together. *)
Definition emits (d : Z) (m : matcher) : Prop :=
  forall st st' l,
    wf st -> m st = Done true st' -> nowrap st' ->
    visible st' = visible st ++ l ->
    balance (buffer st) l = d.

(** A matcher that leaves the store and the token count alone. *)
Definition pure (m : matcher) : Prop :=
  forall st b st',
    m st = Done b st' -> tree st' = tree st /\ tokenIndex st' = tokenIndex st.


(** The records of a tree, children before their parent, siblings from the
    first to the last. *)
Fixpoint postorder (n : node32) : list token32 :=
  match n with
  | Node32 token up => concat (List.map postorder up) ++ [token]
  end.

(** The records of a stack of trees, from its bottom to its top. *)
Definition forest (stack : list node32) : list token32 :=
  concat (List.map postorder (rev stack)).

(** The span of the node [n] lies within the span of [token]: the test of
    the inner loop of [tokens32.AST]. *)
Definition within (token : token32) (n : node32) : Prop :=
  begin_ token <= begin_ (node_token n) /\
  end_ (node_token n) <= end_ token.

Definition nonempty (token : token32) : bool :=
  negb (begin_ token =? end_ token).

(** ** Vocabulary of the statements *)

(** [Parse] returned [nil]. *)
Definition accepted (p : parsed) : bool :=
  match p with Parsed None _ => true | _ => false end.

(** [Parse] returned a [parseError]. *)
Definition rejected (p : parsed) : bool :=
  match p with Parsed (Some _) _ => true | _ => false end.

(** The runes an Identifier is made of. *)
Definition is_identifier_rune (c : rune) : bool :=
  Z.eqb c (rn ".") || Z.eqb c (rn "_") || Z.eqb c (rn "-")
  || (Z.leb (rn "A") c && Z.leb c (rn "Z"))
  || (Z.leb (rn "a") c && Z.leb c (rn "z")).

(** The runes of the rule Space. *)
Definition is_space (c : rune) : bool :=
  Z.eqb c (rn " ") || Z.eqb c (rn "009") || Z.eqb c (rn "013")
  || Z.eqb c (rn "010").

(** A statement with one parameter, of the given value text. *)
Definition one_param (value : string) : list rune :=
  runes ("create instance x=" +:+ value).

(** The calls [Execute] makes for [one_param], around the call for the
    value. *)
Definition one_param_calls (call : callback) : list callback :=
  [addAction (runes "create"); addEntity (runes "instance");
   addParamKey (runes "x"); call; LineDone].



(** ** The span of the slot [max]

    A matcher leaves the slot [max] as it found it, or leaves in it a span
    that is not empty, that begins at or after the position of the call and
    that ends inside the buffer. *)
Definition max_inside (m : matcher) : Prop :=
  forall st b st', wf st -> m st = Done b st' ->
    max st' = max st \/
    (position st <= begin_ (max st') /\
     begin_ (max st') < end_ (max st') /\
     end_ (max st') < N.of_nat (length (buffer st))).

(** ** Printing the tree *)

(** A line written by [node32.print]: [depth] spaces, then the name of the
    rule and the quoted text of the span, in the format chosen by
    [pretty]. *)
Record printed := Printed {
  printed_pretty : bool;
  printed_depth : nat;
  printed_rule : string;
  printed_text : list rune
}.

(** The lines of the children, in their order; a panic in one of them is
    a panic. *)
Definition print_all (lines : list (option (list printed)))
    : option (list printed) :=
  fold_right
    (fun l acc =>
       match l, acc with
       | Some l, Some acc => Some (l ++ acc)
       | _, _ => None
       end)
    (Some []) lines.

(** The closure [print] of [node32.print] on one node of a chain: its
    line, then the lines of the chain [node.up] one level deeper. [Buffer]
    is [[]rune(buffer)]; [None] is the slice-bounds panic. *)
Fixpoint print (pretty : bool) (Buffer : list rune) (depth : nat)
    (node : node32) : option (list printed) :=
  match node with
  | Node32 token up =>
      match slice Buffer (begin_ token) (end_ token) with
      | None => None
      | Some text =>
          match print_all (List.map (print pretty Buffer (S depth)) up) with
          | None => None
          | Some below =>
              Some (Printed pretty depth (rul3s (pegRule_ token)) text
                      :: below)
          end
      end
  end.

(** [Peg.PrintSyntaxTree] on the text [p.Buffer], the flag [p.Pretty] and
    the token list: the lines written, none for a [nil] tree. The root that
    [AST] returns has no [next]. *)
Definition PrintSyntaxTree (Buffer : list rune) (Pretty : bool)
    (tokens : list token32) : option (list printed) :=
  match AST tokens with
  | None => Some []
  | Some root => print Pretty Buffer 0 root
  end.

(** The name and the text a line shows, and those of a record. *)
Definition printed_entry (l : printed) : string * list rune :=
  (printed_rule l, printed_text l).

Definition token_entry (Buffer : list rune) (t : token32)
    : string * list rune :=
  (rul3s (pegRule_ t),
   take (N.to_nat (end_ t) - N.to_nat (begin_ t))
     (drop (N.to_nat (begin_ t)) Buffer)).

(** ** Keywords *)

(** The runes from the position on: [buffer[position:]]. *)
Definition ahead (st : state) : list rune :=
  drop (N.to_nat (position st)) (buffer st).

(** The state [n] runes further. *)
Definition skip (n : N) (st : state) : state :=
  State (buffer st) (position st + n) (tokenIndex st) (max st) (tree st).

(** The text [rest] begins with the runes [cs]. *)
Fixpoint has_prefix (cs rest : list rune) : bool :=
  match cs, rest with
  | [], _ => true
  | c :: cs', x :: rest' => Z.eqb x c && has_prefix cs' rest'
  | _ :: _, [] => false
  end.

(** The number of runes of [cs] that [rest] begins with, up to the first
    that differs. *)
Fixpoint matched (cs rest : list rune) : nat :=
  match cs, rest with
  | c :: cs', x :: rest' =>
      if Z.eqb x c then S (matched cs' rest') else O
  | _, _ => O
  end.

(** The first keyword of the list that the text begins with. *)
Definition first_keyword (keywords : list string) (rest : list rune)
    : option string :=
  List.find (fun keyword => has_prefix (runes keyword) rest) keywords.

(** The keywords of the rule Action and of the rule Entity, in the order
    the generated code tries them: the alternatives of the ordered choice,
    then those of the [switch]. *)
Definition actions : list string :=
  ["create"; "delete"; "start"; "detach"; "check"; "attach"; "update";
   "stop"]%string.

Definition entities : list string :=
  ["vpc"; "subnet"; "instance"; "tag"; "role"; "securitygroup";
   "routetable"; "storageobject"; "queue"; "topic"; "subscription";
   "bucket"; "route"; "internetgateway"; "keypair"; "policy"; "group";
   "user"; "volume"]%string.

(** ** Runs of runes *)

(** The number of runes at the head of [rest] that satisfy [P]. *)
Fixpoint run_of (P : rune -> bool) (rest : list rune) : nat :=
  match rest with
  | c :: rest' => if P c then S (run_of P rest') else O
  | [] => O
  end.

(** The runes of the rule Whitespace. *)
Definition is_blank (c : rune) : bool :=
  Z.eqb c (rn " ") || Z.eqb c (rn "009").

(** The runes a comment runs over: all but the carriage return, the line
    feed and the sentinel. *)
Definition in_line (c : rune) : bool :=
  negb (Z.eqb c (rn "013") || Z.eqb c (rn "010") || Z.eqb c endSymbol).

(** The length of the line end that [rest] begins with: a carriage return
    and a line feed, a line feed, or a carriage return. *)
Definition line_end_length (rest : list rune) : N :=
  match rest with
  | c :: rest' =>
      if Z.eqb c (rn "013")
      then match rest' with
           | d :: _ => if Z.eqb d (rn "010") then 2 else 1
           | [] => 1
           end
      else if Z.eqb c (rn "010") then 1 else 0
  | [] => 0
  end.

(** A match of [m] consumes runes that satisfy [P] only. *)
Definition consumes (P : rune -> bool) (m : matcher) : Prop :=
  forall st st', wf st -> m st = Done true st' ->
    forall i, position st <= i < position st' ->
      exists c, buffer st !! N.to_nat i = Some c /\ P c = true.

(** The length of the comment that [rest] begins with: a [#] or two [/],
    and the rest of the line; [0] when it begins with neither. *)
Definition comment_length (rest : list rune) : N :=
  match rest with
  | c :: rest' =>
      if Z.eqb c (rn "#") then 1 + N.of_nat (run_of in_line rest')
      else if Z.eqb c (rn "/") then
        match rest' with
        | d :: rest'' =>
            if Z.eqb d (rn "/") then 2 + N.of_nat (run_of in_line rest'')
            else 0
        | [] => 0
        end
      else 0
  | [] => 0
  end.

(** ** Runs that differ in the store only

    Two states that agree on everything but the slots of the store at and
    beyond the token count. *)
Definition same (st1 st2 : state) : Prop :=
  buffer st1 = buffer st2 /\ position st1 = position st2 /\
  tokenIndex st1 = tokenIndex st2 /\ max st1 = max st2 /\
  visible st1 = visible st2.

(** From two such states the matcher returns the same result in two such
    states. *)
Definition store_blind (m : matcher) : Prop :=
  forall st1 st2 b1 b2 s1 s2,
    wf st1 -> wf st2 -> same st1 st2 ->
    m st1 = Done b1 s1 -> m st2 = Done b2 s2 ->
    nowrap s1 -> nowrap s2 ->
    b1 = b2 /\ same s1 s2.

(** * Properties *)

(** ** The state invariant *)

Lemma wf_peek st : wf st -> exists c, peek st = Some c.
Proof.
  intros (_ & _ & Hp & _). unfold peek.
  destruct (lookup_lt_is_Some (buffer st) (N.to_nat (position st))) as [_ H].
  destruct H as [c Hc]; [lia | eauto].
Qed.

Lemma incr32_small x : x + 1 < 2 ^ 32 -> incr32 x = x + 1.
Proof. intros. unfold incr32. apply N.mod_small. lia. Qed.

Lemma wf_next st c :
  wf st -> peek st = Some c -> c <> endSymbol ->
  position st + 1 < N.of_nat (length (buffer st)).
Proof.
  intros (Hl & _ & Hp & _) Hc Hne. unfold peek in Hc.
  rewrite last_lookup in Hl.
  destruct (decide (N.to_nat (position st) = pred (length (buffer st)))) as [E|E].
  - rewrite E in Hc. congruence.
  - lia.
Qed.

Lemma step_refl st : step st st.
Proof.
  split; auto; try lia.
  intros _. exists []. rewrite app_nil_r. auto.
Qed.

Lemma inside_weaken lo hi lo' hi' t :
  inside lo hi t -> lo' <= lo -> hi <= hi' -> inside lo' hi' t.
Proof. unfold inside. lia. Qed.

Lemma step_trans st1 st2 st3 : step st1 st2 -> step st2 st3 -> step st1 st3.
Proof.
  intros [Hb1 Hp1 Ht1 Hm1 Hv1] [Hb2 Hp2 Ht2 Hm2 Hv2]. split.
  - congruence.
  - lia.
  - lia.
  - destruct Hm2 as [-> | [? ?]]; [assumption|].
    destruct Hm1 as [<- | [? ?]]; right; split; auto; lia.
  - intros Hn. destruct (Hv2 Hn) as (l2 & E2 & F2).
    destruct Hv1 as (l1 & E1 & F1); [unfold nowrap in *; lia|].
    exists (l1 ++ l2). split.
    + rewrite E2, E1. by rewrite app_assoc.
    + apply Forall_app. split; eapply Forall_impl; eauto; simpl; intros;
        eapply inside_weaken; eauto; lia.
Qed.

Lemma advance_step st c :
  wf st -> peek st = Some c -> c <> endSymbol ->
  wf (advance st) /\ step st (advance st) /\
  position (advance st) = position st + 1.
Proof.
  intros Hwf Hc Hne. pose proof (wf_next _ _ Hwf Hc Hne) as Hn.
  destruct Hwf as (Hl & Hb & Hp & Ht & Hz).
  assert (E : incr32 (position st) = position st + 1)
    by (apply incr32_small; lia).
  split; [|split].
  - unfold wf, advance; simpl. rewrite E. repeat split; auto; lia.
  - split; simpl; auto; try lia.
    intros _. exists []. unfold visible; simpl. rewrite app_nil_r. auto.
  - simpl. exact E.
Qed.

(** Restoring a pair saved at [st] after a run from [st]. *)
Lemma restore_step st st1 :
  wf st -> wf st1 -> step st st1 ->
  wf (restore (position st) (tokenIndex st) st1) /\
  step st (restore (position st) (tokenIndex st) st1) /\
  (nowrap st1 -> visible (restore (position st) (tokenIndex st) st1) = visible st).
Proof.
  intros (Hl & Hb & Hp & Ht & Hz) (Hl1 & Hb1 & Hp1 & Ht1 & Hz1)
         [Eb Hpos Htree Hmax Hvis].
  assert (Hv : nowrap st1 ->
    visible (restore (position st) (tokenIndex st) st1) = visible st).
  { intros Hn. destruct (Hvis Hn) as (l & E & _).
    unfold visible in *; simpl.
    assert (Hle : (N.to_nat (tokenIndex st) <= N.to_nat (tokenIndex st1))%nat).
    { apply (f_equal length) in E.
      rewrite length_app, !length_take in E. lia. }
    transitivity (take (N.to_nat (tokenIndex st))
                    (take (N.to_nat (tokenIndex st1)) (tree st1))).
    - rewrite take_take. f_equal. lia.
    - rewrite E, take_app_le by (rewrite length_take; lia).
      rewrite take_take. f_equal. lia. }
  split; [|split]; auto.
  - unfold wf, restore; simpl. rewrite Eb. repeat split; auto; lia.
  - split; simpl; auto; try lia.
    intros Hn. exists []. rewrite app_nil_r. split; auto.
Qed.

(** ** The closure [add] *)

Lemma incr32_le x : incr32 x <= x + 1.
Proof. unfold incr32. apply N.Div0.mod_le. Qed.

Lemma add_spec rule begin st :
  wf st ->
  exists st', add rule begin st = Done true st' /\ wf st' /\
    buffer st' = buffer st /\ position st' = position st /\
    (length (tree st) <= length (tree st'))%nat /\
    max st' =
      (if negb (begin =? position st) && (end_ (max st) <? position st)
       then Token32 rule begin (position st) else max st) /\
    (nowrap st' ->
     visible st' = visible st ++ [Token32 rule begin (position st)]).
Proof.
  intros (Hl & Hb & Hp & Ht & Hz).
  unfold add, tokens32_Add.
  set (tree' := if N.of_nat (length (tree st)) <=? tokenIndex st
                then tree st ++ replicate (length (tree st)) token0
                else tree st).
  assert (Hlen : (length (tree st) <= length tree')%nat).
  { subst tree'. destruct (_ <=? _); [rewrite length_app|]; lia. }
  assert (Hidx : tokenIndex st < N.of_nat (length tree')).
  { subst tree'. destruct (N.leb_spec (N.of_nat (length (tree st))) (tokenIndex st)).
    - rewrite length_app, length_replicate. lia.
    - lia. }
  assert (Htake : take (N.to_nat (tokenIndex st)) tree' =
                  take (N.to_nat (tokenIndex st)) (tree st)).
  { subst tree'. destruct (_ <=? _); [|reflexivity].
    apply take_app_le. lia. }
  destruct (N.ltb_spec (tokenIndex st) (N.of_nat (length tree'))); [|lia].
  eexists. split; [reflexivity|].
  pose proof (incr32_le (tokenIndex st)).
  split; [|split; [|split; [|split; [|split]]]]; simpl; auto.
  - unfold wf; simpl. rewrite length_insert. repeat split; auto; lia.
  - rewrite length_insert. lia.
  - unfold nowrap, visible; simpl. rewrite length_insert. intros Hn.
    rewrite incr32_small by lia.
    replace (N.to_nat (tokenIndex st + 1)) with (S (N.to_nat (tokenIndex st)))
      by lia.
    rewrite (take_S_r _ _ (Token32 rule begin (position st)))
      by (apply list_lookup_insert_eq; lia).
    rewrite take_insert, decide_False by lia.
    by rewrite Htake.
Qed.

(** ** Primitive matchers *)

Ltac close b st' :=
  exists b, st'; split; [first [reflexivity | eassumption] | split; [| split]];
  eauto using step_refl, step_trans; try (intros; discriminate).

Lemma safe_weaken p m : safe p m -> safe false m.
Proof.
  intros H st Hwf. destruct (H st Hwf) as (b & st' & E & W & S & _).
  close b st'.
Qed.

Lemma safe_ok : safe false ok.
Proof. intros st Hwf. close true st. Qed.

Lemma safe_matchChar p c : c <> endSymbol -> safe p (matchChar c).
Proof.
  intros Hne st Hwf. unfold matchChar.
  destruct (wf_peek _ Hwf) as (x & Hx). rewrite Hx.
  destruct (Z.eqb_spec x c) as [->|Hxc].
  - destruct (advance_step _ _ Hwf Hx Hne) as (W & S & E).
    close true (advance st). intros; lia.
  - close false st.
Qed.

Lemma safe_matchRange p lower upper :
  (upper < endSymbol)%Z -> safe p (matchRange lower upper).
Proof.
  intros Hup st Hwf. unfold matchRange.
  destruct (wf_peek _ Hwf) as (x & Hx). rewrite Hx.
  destruct (Z.ltb_spec x lower), (Z.ltb_spec upper x); simpl;
    try (close false st; fail).
  assert (Hne : x <> endSymbol) by lia.
  destruct (advance_step _ _ Hwf Hx Hne) as (W & S & E).
  close true (advance st). intros; lia.
Qed.

Lemma safe_matchDot p : safe p matchDot.
Proof.
  intros st Hwf. unfold matchDot.
  destruct (wf_peek _ Hwf) as (x & Hx). rewrite Hx.
  destruct (Z.eqb_spec x endSymbol) as [->|Hne].
  - close false st.
  - destruct (advance_step _ _ Hwf Hx Hne) as (W & S & E).
    close true (advance st). intros; lia.
Qed.

(** ** Control flow *)

Lemma safe_seq p1 p2 m1 m2 :
  safe p1 m1 -> safe p2 m2 -> safe (p1 || p2) (m1 >>> m2).
Proof.
  intros H1 H2 st Hwf. unfold seq.
  destruct (H1 st Hwf) as (b1 & st1 & E1 & W1 & S1 & P1). rewrite E1.
  destruct b1.
  - destruct (H2 st1 W1) as (b2 & st2 & E2 & W2 & S2 & P2).
    close b2 st2.
    intros Hp Hb. destruct S1, S2.
    destruct p1; [specialize (P1 eq_refl eq_refl); lia|].
    simpl in Hp. specialize (P2 Hp Hb). lia.
  - close false st1.
Qed.

Lemma safe_alt p1 p2 m1 m2 :
  safe p1 m1 -> safe p2 m2 -> safe (p1 && p2) (alt m1 m2).
Proof.
  intros H1 H2 st Hwf. unfold alt.
  destruct (H1 st Hwf) as (b1 & st1 & E1 & W1 & S1 & P1). rewrite E1.
  destruct b1.
  - close true st1.
    intros Hp _. apply P1; auto. by destruct p1.
  - destruct (restore_step _ _ Hwf W1 S1) as (Wr & Sr & _).
    destruct (H2 _ Wr) as (b2 & st2 & E2 & W2 & S2 & P2).
    close b2 st2.
    intros Hp Hb. simpl in P2. apply P2; auto. by destruct p1, p2.
Qed.

Lemma safe_neg p m : safe p m -> safe false (neg m).
Proof.
  intros H st Hwf. unfold neg.
  destruct (H st Hwf) as (b & st1 & E & W & S & _). rewrite E.
  destruct b.
  - close false st1.
  - destruct (restore_step _ _ Hwf W S) as (Wr & Sr & _).
    close true (restore (position st) (tokenIndex st) st1).
Qed.

Lemma safe_rule_fn p m : safe p m -> safe p (rule_fn m).
Proof.
  intros H st Hwf. unfold rule_fn.
  destruct (H st Hwf) as (b & st1 & E & W & S & P). rewrite E.
  destruct b.
  - close true st1.
  - destruct (restore_step _ _ Hwf W S) as (Wr & Sr & _).
    close false (restore (position st) (tokenIndex st) st1).
Qed.

Lemma safe_capture p rule m : safe p m -> safe p (capture rule m).
Proof.
  intros H st Hwf. unfold capture.
  destruct (H st Hwf) as (b & st1 & E & W & S & P). rewrite E.
  destruct b.
  - destruct (add_spec rule (position st) st1 W)
      as (st' & Ea & Wa & Eb & Ep & Et & Em & Ev).
    close true st'.
    + destruct S as [Sb Sp St Sm Sv]. split.
      * congruence.
      * lia.
      * lia.
      * rewrite Em. destruct (_ && _) eqn:Hc; [|assumption].
        apply andb_prop in Hc as [Hc1 Hc2].
        apply negb_true_iff, N.eqb_neq in Hc1. apply N.ltb_lt in Hc2.
        destruct Sm as [Sm | [Sm1 Sm2]].
        -- right. simpl. rewrite <- Sm. split; auto.
        -- right. simpl. split; auto. lia.
      * intros Hn. destruct Sv as (l & El & Fl); [unfold nowrap in *; lia|].
        exists (l ++ [Token32 rule (position st) (position st1)]). split.
        -- rewrite (Ev Hn), El. by rewrite app_assoc.
        -- rewrite Ep. apply Forall_app. split; auto.
           apply Forall_singleton. unfold inside; simpl. lia.
    + intros Hp Hb. rewrite Ep. auto.
  - close false st1.
Qed.

Lemma safe_action rule : safe false (action rule).
Proof.
  apply (safe_capture false rule ok safe_ok).
Qed.

Lemma safe_cast p q m : safe p m -> p = q -> safe q m.
Proof. by intros H <-. Qed.

Lemma star_loop_safe m :
  safe true m ->
  forall fuel st, wf st ->
    (length (buffer st) - N.to_nat (position st) < fuel)%nat ->
    exists st', star_loop fuel m st = Done true st' /\ wf st' /\ step st st'.
Proof.
  intros H. induction fuel as [|fuel IH]; intros st Hwf Hfuel; [lia|].
  simpl. destruct (H st Hwf) as (b & st1 & E & W & S & P). rewrite E.
  destruct b.
  - specialize (P eq_refl eq_refl).
    destruct (IH st1 W) as (st' & E' & W' & S').
    + destruct S as [Sb _ _ _ _]. rewrite Sb.
      destruct Hwf as (_ & _ & Hp & _). lia.
    + exists st'. eauto using step_trans.
  - destruct (restore_step _ _ Hwf W S) as (Wr & Sr & _). eauto.
Qed.

Lemma safe_star p m : safe p m -> p = true -> safe false (star m).
Proof.
  intros H -> st Hwf. unfold star.
  destruct (star_loop_safe m H (S (length (buffer st))) st Hwf)
    as (st' & E & W & S); [lia|].
  close true st'.
Qed.

Lemma safe_plus p m : safe p m -> p = true -> safe true (plus m).
Proof.
  intros H ->. unfold plus.
  apply (safe_seq true false); eauto using safe_star.
Qed.

Lemma safe_opt p m : safe p m -> safe false (opt m).
Proof.
  intros H. unfold opt. eapply safe_cast.
  - apply safe_alt; [exact H | apply safe_ok].
  - apply andb_false_r.
Qed.

Lemma safe_switch_nil p default : safe p default -> safe p (switch [] default).
Proof.
  intros H st Hwf. unfold switch.
  destruct (wf_peek _ Hwf) as (c & ->). simpl. auto.
Qed.

Lemma safe_switch_cons p1 p2 cs m cases default :
  safe p1 m -> safe p2 (switch cases default) ->
  safe (p1 && p2) (switch ((cs, m) :: cases) default).
Proof.
  intros H1 H2 st Hwf. specialize (H1 st Hwf). specialize (H2 st Hwf).
  unfold switch in *. destruct (wf_peek _ Hwf) as (c & Hc).
  rewrite Hc in *. simpl. destruct (existsb (Z.eqb c) cs).
  - destruct H1 as (b & st' & E & W & S & P). close b st'.
    intros Hp. apply P. by destruct p1.
  - destruct H2 as (b & st' & E & W & S & P). close b st'.
    intros Hp. apply P. by destruct p1, p2.
Qed.

Lemma safe_chars_nil : safe false (chars []).
Proof. exact safe_ok. Qed.

Lemma safe_chars_cons c cs :
  c <> endSymbol -> safe false (chars cs) -> safe true (chars (c :: cs)).
Proof.
  intros Hc H. simpl. apply (safe_seq true false); auto using safe_matchChar.
Qed.

Lemma safe_chars cs :
  forallb (fun c => negb (Z.eqb c endSymbol)) cs = true -> safe false (chars cs).
Proof.
  induction cs as [|c cs IH]; simpl; intros H.
  - exact safe_ok.
  - apply andb_prop in H as [Hc H].
    apply negb_true_iff, Z.eqb_neq in Hc.
    eapply safe_weaken, safe_chars_cons; auto.
Qed.

Lemma safe_lit s : lit_ok (runes s) = true -> safe true (lit s).
Proof.
  unfold lit. destruct (runes s) as [|c cs]; [discriminate|].
  unfold lit_ok. intros H. simpl in H. apply andb_prop in H as [Hc H].
  apply negb_true_iff, Z.eqb_neq in Hc.
  apply safe_chars_cons; auto using safe_chars.
Qed.

Lemma safe_char c : Z.eqb c endSymbol = false -> safe true (matchChar c).
Proof. intros H. apply safe_matchChar. by apply Z.eqb_neq. Qed.

Lemma safe_range lower upper :
  Z.ltb upper endSymbol = true -> safe true (matchRange lower upper).
Proof. intros H. apply safe_matchRange. by apply Z.ltb_lt. Qed.

Lemma safe_dot : safe true matchDot.
Proof. apply safe_matchDot. Qed.

Create HintDb peg.

#[local] Hint Resolve safe_seq safe_alt safe_neg safe_rule_fn safe_capture
  safe_action safe_star safe_plus safe_opt safe_switch_nil safe_switch_cons
  safe_lit safe_char safe_range safe_dot eq_refl : peg.

Ltac peg_safe := eapply safe_cast; [eauto 5000 with peg | reflexivity].

(** ** The rules *)

Lemma safe_Whitespace : safe true Whitespace.
Proof. unfold Whitespace. peg_safe. Qed.
#[local] Hint Resolve safe_Whitespace : peg.

Lemma safe_EndOfLine : safe true EndOfLine.
Proof. unfold EndOfLine. peg_safe. Qed.
#[local] Hint Resolve safe_EndOfLine : peg.

Lemma safe_Space : safe true Space.
Proof. unfold Space. peg_safe. Qed.
#[local] Hint Resolve safe_Space : peg.

Lemma safe_Spacing : safe false Spacing.
Proof. unfold Spacing. peg_safe. Qed.
#[local] Hint Resolve safe_Spacing : peg.

Lemma safe_WhiteSpacing : safe false WhiteSpacing.
Proof. unfold WhiteSpacing. peg_safe. Qed.
#[local] Hint Resolve safe_WhiteSpacing : peg.

Lemma safe_MustWhiteSpacing : safe true MustWhiteSpacing.
Proof. unfold MustWhiteSpacing. peg_safe. Qed.
#[local] Hint Resolve safe_MustWhiteSpacing : peg.

Lemma safe_Equal : safe true Equal.
Proof. unfold Equal. peg_safe. Qed.
#[local] Hint Resolve safe_Equal : peg.

Lemma safe_identifierChar : safe true identifierChar.
Proof. unfold identifierChar. peg_safe. Qed.
#[local] Hint Resolve safe_identifierChar : peg.

Lemma safe_Identifier : safe true Identifier.
Proof. unfold Identifier. peg_safe. Qed.
#[local] Hint Resolve safe_Identifier : peg.

Lemma safe_Action : safe true Action.
Proof. unfold Action. peg_safe. Qed.
#[local] Hint Resolve safe_Action : peg.

Lemma safe_Entity : safe true Entity.
Proof. unfold Entity. peg_safe. Qed.
#[local] Hint Resolve safe_Entity : peg.

Lemma safe_digit : safe true digit.
Proof. unfold digit. peg_safe. Qed.
#[local] Hint Resolve safe_digit : peg.

Lemma safe_CidrValue : safe true CidrValue.
Proof. unfold CidrValue. peg_safe. Qed.
#[local] Hint Resolve safe_CidrValue : peg.

Lemma safe_IpValue : safe true IpValue.
Proof. unfold IpValue. peg_safe. Qed.
#[local] Hint Resolve safe_IpValue : peg.

Lemma safe_IntRangeValue : safe true IntRangeValue.
Proof. unfold IntRangeValue. peg_safe. Qed.
#[local] Hint Resolve safe_IntRangeValue : peg.

Lemma safe_IntValue : safe true IntValue.
Proof. unfold IntValue. peg_safe. Qed.
#[local] Hint Resolve safe_IntValue : peg.

Lemma safe_RefValue : safe true RefValue.
Proof. unfold RefValue. peg_safe. Qed.
#[local] Hint Resolve safe_RefValue : peg.

Lemma safe_AliasValue : safe true AliasValue.
Proof. unfold AliasValue. peg_safe. Qed.
#[local] Hint Resolve safe_AliasValue : peg.

Lemma safe_HoleValue : safe true HoleValue.
Proof. unfold HoleValue. peg_safe. Qed.
#[local] Hint Resolve safe_HoleValue : peg.

Lemma safe_stringValueChar : safe true stringValueChar.
Proof. unfold stringValueChar. peg_safe. Qed.
#[local] Hint Resolve safe_stringValueChar : peg.

Lemma safe_StringValue : safe true StringValue.
Proof. unfold StringValue. peg_safe. Qed.
#[local] Hint Resolve safe_StringValue : peg.

Lemma safe_Value : safe true Value.
Proof.
  unfold Value, valueCidr, valueIp, valueIntRange, valueInt,
    valueByLeadingRune.
  peg_safe.
Qed.
#[local] Hint Resolve safe_Value : peg.

Lemma safe_Param : safe true Param.
Proof. unfold Param. peg_safe. Qed.
#[local] Hint Resolve safe_Param : peg.

Lemma safe_Params : safe true Params.
Proof. unfold Params. peg_safe. Qed.
#[local] Hint Resolve safe_Params : peg.

Lemma safe_Expr : safe true Expr.
Proof. unfold Expr. peg_safe. Qed.
#[local] Hint Resolve safe_Expr : peg.

Lemma safe_Declaration : safe true Declaration.
Proof. unfold Declaration. peg_safe. Qed.
#[local] Hint Resolve safe_Declaration : peg.

Lemma safe_restOfLine : safe false restOfLine.
Proof. unfold restOfLine. peg_safe. Qed.
#[local] Hint Resolve safe_restOfLine : peg.

Lemma safe_hashComment : safe true hashComment.
Proof. unfold hashComment. peg_safe. Qed.
#[local] Hint Resolve safe_hashComment : peg.

Lemma safe_slashComment : safe true slashComment.
Proof. unfold slashComment. peg_safe. Qed.
#[local] Hint Resolve safe_slashComment : peg.

Lemma safe_Comment : safe true Comment.
Proof. unfold Comment. peg_safe. Qed.
#[local] Hint Resolve safe_Comment : peg.

Lemma safe_Statement : safe true Statement.
Proof. unfold Statement. peg_safe. Qed.
#[local] Hint Resolve safe_Statement : peg.

Lemma safe_EndOfFile : safe false EndOfFile.
Proof. unfold EndOfFile. peg_safe. Qed.
#[local] Hint Resolve safe_EndOfFile : peg.

Lemma safe_Script : safe true Script.
Proof. unfold Script. peg_safe. Qed.

(** Every function of the table returns from a well-formed state. *)
Lemma safe_rules r f : _rules r = Some f -> safe false f.
Proof.
  destruct r; simpl; intros [= <-];
    eauto using safe_weaken, safe_Script, safe_Expr, safe_Identifier,
      safe_Spacing, safe_WhiteSpacing, safe_MustWhiteSpacing, safe_Equal,
      safe_Whitespace, safe_EndOfLine.
Qed.

Lemma reset_buffer_spec Buffer :
  last (reset_buffer Buffer) = Some endSymbol /\
  (length (reset_buffer Buffer) <= length Buffer + 1)%nat /\
  (0 < length (reset_buffer Buffer))%nat.
Proof.
  unfold reset_buffer. destruct (last Buffer) as [c|] eqn:El.
  - destruct (Z.eqb_spec c endSymbol) as [->|Hne].
    + repeat split; auto; try lia. destruct Buffer; [discriminate | simpl; lia].
    + rewrite last_snoc, length_app. simpl. repeat split; auto; lia.
  - rewrite last_snoc, length_app. simpl. repeat split; auto; lia.
Qed.

(** [Init] makes a well-formed state when the text is shorter than [2^32]
    runes. *)
Lemma wf_Init Buffer :
  N.of_nat (length Buffer) < 2 ^ 32 -> wf (Init Buffer).
Proof.
  intros H. destruct (reset_buffer_spec Buffer) as (Hl & Hlen & Hpos).
  unfold wf, Init. cbn [buffer position tokenIndex tree].
  rewrite length_replicate. unfold math_MaxInt16.
  repeat split; auto; lia.
Qed.

(** [Parse] returns an error or [nil] from a well-formed state: no index
    is out of range, and the fuel of the loops suffices. *)
Lemma Parse_returns st :
  wf st -> exists err tokens, Parse [] st = Parsed err tokens.
Proof.
  intros W. unfold Parse. simpl.
  destruct (safe_Script st W) as (b & st' & E & W' & _). rewrite E.
  destruct b; [|eauto]. destruct W' as (_ & _ & _ & Ht & _). unfold Trim.
  destruct (N.leb_spec (tokenIndex st') (N.of_nat (length (tree st'))));
    [eauto | lia].
Qed.

(** ** Failure restores the saved pair *)

Lemma rule_fn_false m st st' :
  rule_fn m st = Done false st' ->
  position st' = position st /\ tokenIndex st' = tokenIndex st.
Proof.
  unfold rule_fn. destruct (m st) as [[|] st1| |]; intros [= <-]. auto.
Qed.

Lemma add_not_false rule begin st st' : add rule begin st <> Done false st'.
Proof. unfold add. by destruct (tokens32_Add _ _ _ _ _). Qed.

Lemma star_loop_not_false fuel m st st' : star_loop fuel m st <> Done false st'.
Proof.
  revert st. induction fuel as [|fuel IH]; simpl; intros st; [discriminate|].
  destruct (m st) as [[|] st1| |]; auto; discriminate.
Qed.



Lemma length_visible st : wf st -> length (visible st) = N.to_nat (tokenIndex st).
Proof.
  intros (_ & _ & _ & Ht & _). unfold visible. rewrite length_take. lia.
Qed.





(** ** The slot [max] *)





(** ** Scenarios *)

(** C1. The two-line text parses, and [Execute] makes these calls, in this
    order, and no other. *)
Theorem C1_end_to_end :
  let Buffer :=
    runes ("vpcid = create vpc cidr=10.0.0.0/16" +:+ newline +:+
           "create subnet vpc=$vpcid cidr=10.0.0.1/24" +:+ newline) in
  exists tokens,
    Parse [] (Init Buffer) = Parsed None tokens /\
    Execute (buffer (Init Buffer)) tokens =
      Some [ addDeclarationIdentifier (runes "vpcid");
             addAction (runes "create");
             addEntity (runes "vpc");
             addParamKey (runes "cidr");
             addParamCidrValue (runes "10.0.0.0/16");
             LineDone;
             addAction (runes "create");
             addEntity (runes "subnet");
             addParamKey (runes "vpc");
             addParamRefValue (runes "vpcid");
             addParamKey (runes "cidr");
             addParamCidrValue (runes "10.0.0.1/24");
             LineDone ].
Proof.
  eexists. split; vm_compute; reflexivity.
Qed.

(** C4. The value of a parameter is dispatched by the ordered choice of
    rule Value: the Cidr alternative decides whenever it matches, then, from
    the restored pair, Ip, then IntRange, then Int, then the [switch] on
    the leading rune, which decides last: a [$] leads to RefValue, a [@] to
    AliasValue, a [{] to HoleValue and any other rune to StringValue; when
    this last step fails, Value fails. So a CIDR text calls
    [addParamCidrValue] (and no other value callback), an IP text
    [addParamIpValue], a range [addParamValue], an integer
    [addParamIntValue]; the separators of a CIDR are any rune, so
    [1x2x3x4/5] calls [addParamCidrValue] too; and the texts that no digit
    leads reach the [switch]. *)
Theorem C4_value_dispatch :
  (forall st st1,
     valueCidr st = Done true st1 ->
     Value st = add ruleValue (position st) st1) /\
  (forall st s1 st2,
     valueCidr st = Done false s1 ->
     let st1 := restore (position st) (tokenIndex st) s1 in
     valueIp st1 = Done true st2 ->
     Value st = add ruleValue (position st) st2) /\
  (forall st s1 s2 st3,
     valueCidr st = Done false s1 ->
     let st1 := restore (position st) (tokenIndex st) s1 in
     valueIp st1 = Done false s2 ->
     let st2 := restore (position st) (tokenIndex st) s2 in
     valueIntRange st2 = Done true st3 ->
     Value st = add ruleValue (position st) st3) /\
  (forall st s1 s2 s3 st4,
     valueCidr st = Done false s1 ->
     let st1 := restore (position st) (tokenIndex st) s1 in
     valueIp st1 = Done false s2 ->
     let st2 := restore (position st) (tokenIndex st) s2 in
     valueIntRange st2 = Done false s3 ->
     let st3 := restore (position st) (tokenIndex st) s3 in
     valueInt st3 = Done true st4 ->
     Value st = add ruleValue (position st) st4) /\
  (forall st s1 s2 s3 s4 st5,
     valueCidr st = Done false s1 ->
     let st1 := restore (position st) (tokenIndex st) s1 in
     valueIp st1 = Done false s2 ->
     let st2 := restore (position st) (tokenIndex st) s2 in
     valueIntRange st2 = Done false s3 ->
     let st3 := restore (position st) (tokenIndex st) s3 in
     valueInt st3 = Done false s4 ->
     let st4 := restore (position st) (tokenIndex st) s4 in
     valueByLeadingRune st4 = Done true st5 ->
     Value st = add ruleValue (position st) st5) /\
  (forall st s1 s2 s3 s4 s5,
     valueCidr st = Done false s1 ->
     let st1 := restore (position st) (tokenIndex st) s1 in
     valueIp st1 = Done false s2 ->
     let st2 := restore (position st) (tokenIndex st) s2 in
     valueIntRange st2 = Done false s3 ->
     let st3 := restore (position st) (tokenIndex st) s3 in
     valueInt st3 = Done false s4 ->
     let st4 := restore (position st) (tokenIndex st) s4 in
     valueByLeadingRune st4 = Done false s5 ->
     Value st = Done false s5) /\
  (forall st c,
     peek st = Some c ->
     valueByLeadingRune st =
       if Z.eqb c (rn "$") then (RefValue >>> action ruleAction7) st
       else if Z.eqb c (rn "@") then (AliasValue >>> action ruleAction6) st
       else if Z.eqb c (rn "{") then (HoleValue >>> action ruleAction5) st
       else (capture rulePegText StringValue >>> action ruleAction12) st) /\
  run (one_param "$ref") =
    Some (one_param_calls (addParamRefValue (runes "ref"))) /\
  run (one_param "@alias") =
    Some (one_param_calls (addParamAliasValue (runes "alias"))) /\
  run (one_param "{hole}") =
    Some (one_param_calls (addParamHoleValue (runes "hole"))) /\
  run (one_param "abc") =
    Some (one_param_calls (addParamValue (runes "abc"))) /\
  run (one_param "10.0.0.0/16") =
    Some (one_param_calls (addParamCidrValue (runes "10.0.0.0/16"))) /\
  run (one_param "10.0.0.0") =
    Some (one_param_calls (addParamIpValue (runes "10.0.0.0"))) /\
  run (one_param "5-10") =
    Some (one_param_calls (addParamValue (runes "5-10"))) /\
  run (one_param "42") =
    Some (one_param_calls (addParamIntValue (runes "42"))) /\
  run (one_param "1x2x3x4/5") =
    Some (one_param_calls (addParamCidrValue (runes "1x2x3x4/5"))).
Proof.
  split; [|split; [|split; [|split; [|split; [|split; [|split; [|split;
    [|split; [|split; [|split; [|split; [|split; [|split;
    [|split]]]]]]]]]]]]]];
    try (vm_compute; reflexivity).
  - intros st st1 E. unfold Value, capture, alt. by rewrite E.
  - intros st s1 st2 E1 st1 E2. subst st1. unfold Value, capture, alt.
    rewrite E1. by rewrite E2.
  - intros st s1 s2 st3 E1 st1 E2 st2 E3. subst st1 st2.
    unfold Value, capture, alt. rewrite E1, E2.
    cbn [position tokenIndex restore] in *. by rewrite E3.
  - intros st s1 s2 s3 st4 E1 st1 E2 st2 E3 st3 E4. subst st1 st2 st3.
    unfold Value, capture, alt. rewrite E1, E2.
    cbn [position tokenIndex restore] in *. rewrite E3.
    cbn [position tokenIndex restore] in *. by rewrite E4.
  - intros st s1 s2 s3 s4 st5 E1 st1 E2 st2 E3 st3 E4 st4 E5.
    subst st1 st2 st3 st4. unfold Value, capture, alt. rewrite E1, E2.
    cbn [position tokenIndex restore] in *. rewrite E3.
    cbn [position tokenIndex restore] in *. rewrite E4.
    cbn [position tokenIndex restore] in *. by rewrite E5.
  - intros st s1 s2 s3 s4 s5 E1 st1 E2 st2 E3 st3 E4 st4 E5.
    subst st1 st2 st3 st4. unfold Value, capture, alt. rewrite E1, E2.
    cbn [position tokenIndex restore] in *. rewrite E3.
    cbn [position tokenIndex restore] in *. rewrite E4.
    cbn [position tokenIndex restore] in *. by rewrite E5.
  - intros st c Hc. unfold valueByLeadingRune, switch. rewrite Hc.
    cbn [select existsb]. rewrite !orb_false_r.
    by destruct (Z.eqb c (rn "$")), (Z.eqb c (rn "@")), (Z.eqb c (rn "{")).
Qed.

Lemma C4_witness :
  let st := State (reset_buffer (runes "10.0.0.0/16")) 0 0 token0 [token0] in
  let st' := State (reset_buffer (runes "$r")) 0 0 token0 [token0] in
  (exists st1 st2,
     valueCidr st = Done true st1 /\
     Value st = Done true st2 /\
     visible st2 =
       [ Token32 ruleCidrValue 0 11; Token32 rulePegText 0 11;
         Token32 ruleAction8 11 11; Token32 ruleValue 0 11 ]) /\
  (exists st5 st6,
     valueByLeadingRune st' = Done true st5 /\
     Value st' = Done true st6 /\
     visible st6 =
       [ Token32 ruleIdentifier 1 2; Token32 rulePegText 1 2;
         Token32 ruleRefValue 0 2; Token32 ruleAction7 2 2;
         Token32 ruleValue 0 2 ]).
Proof.
  intros st st'. split.
  - eassert (E : valueCidr st = Done true _) by (vm_compute; reflexivity).
    eexists _, _. split; [exact E|].
    rewrite (proj1 C4_value_dispatch st _ E).
    split; vm_compute; reflexivity.
  - assert (E1 : valueCidr st' = Done false st') by (vm_compute; reflexivity).
    assert (E2 : valueIp (restore (position st') (tokenIndex st') st') =
                 Done false st') by (vm_compute; reflexivity).
    assert (E3 : valueIntRange (restore (position st') (tokenIndex st') st') =
                 Done false st') by (vm_compute; reflexivity).
    assert (E4 : valueInt (restore (position st') (tokenIndex st') st') =
                 Done false st') by (vm_compute; reflexivity).
    eassert (E5 : valueByLeadingRune
                    (restore (position st') (tokenIndex st') st') =
                  Done true _) by (vm_compute; reflexivity).
    eexists _, _. split; [exact E5|].
    rewrite (proj1 (proj2 (proj2 (proj2 (proj2 C4_value_dispatch))))
               st' _ _ _ _ _ E1 E2 E3 E4 E5).
    split; vm_compute; reflexivity.
Defined.

(** ** Identifiers *)

Lemma upperCase_spec c :
  existsb (Z.eqb c) upperCase = (Z.leb (rn "A") c && Z.leb c (rn "Z")).
Proof.
  change (rn "A") with 65%Z. change (rn "Z") with 90%Z.
  destruct (Z.leb_spec 65 c), (Z.leb_spec c 90); simpl andb.
  - apply existsb_exists. exists c. split; [|apply Z.eqb_refl].
    unfold upperCase. cbv [runes String.list_ascii_of_string List.map rn
      N_of_ascii N_of_digits Z.of_N N.add N.mul Pos.add Pos.mul Pos.succ
      In]. lia.
  - apply not_true_is_false. intros (x & Hin & Heq)%existsb_exists.
    apply Z.eqb_eq in Heq. subst x. revert Hin. unfold upperCase.
    cbv [runes String.list_ascii_of_string List.map rn
      N_of_ascii N_of_digits Z.of_N N.add N.mul Pos.add Pos.mul Pos.succ
      In]. lia.
  - apply not_true_is_false. intros (x & Hin & Heq)%existsb_exists.
    apply Z.eqb_eq in Heq. subst x. revert Hin. unfold upperCase.
    cbv [runes String.list_ascii_of_string List.map rn
      N_of_ascii N_of_digits Z.of_N N.add N.mul Pos.add Pos.mul Pos.succ
      In]. lia.
  - lia.
Qed.

Lemma matchChar_peek st x c :
  peek st = Some x ->
  matchChar c st = if Z.eqb x c then Done true (advance st) else Done false st.
Proof. intros H. unfold matchChar. by rewrite H. Qed.

Lemma matchRange_peek st x lower upper :
  peek st = Some x ->
  matchRange lower upper st =
    if Z.ltb x lower || Z.ltb upper x then Done false st
    else Done true (advance st).
Proof. intros H. unfold matchRange. by rewrite H. Qed.

(** Case analysis on the comparisons of a goal. *)
Ltac case_tests Hc :=
  repeat (cbn [andb orb negb];
          rewrite ?(matchChar_peek _ _ _ Hc), ?(matchRange_peek _ _ _ _ Hc);
          match goal with
          | |- context [Z.eqb ?a ?b] => destruct (Z.eqb_spec a b)
          | |- context [Z.leb ?a ?b] => destruct (Z.leb_spec a b)
          | |- context [Z.ltb ?a ?b] => destruct (Z.ltb_spec a b)
          end);
  cbn [andb orb negb]; try reflexivity; try lia.

Lemma identifierChar_spec st c :
  peek st = Some c ->
  identifierChar st =
    if is_identifier_rune c then Done true (advance st) else Done false st.
Proof.
  intros Hc. unfold identifierChar, switch. rewrite Hc.
  cbn [select]. rewrite upperCase_spec. cbn [existsb].
  unfold is_identifier_rune.
  change (rn ".") with 46%Z. change (rn "_") with 95%Z.
  change (rn "-") with 45%Z. change (rn "A") with 65%Z.
  change (rn "Z") with 90%Z. change (rn "a") with 97%Z.
  change (rn "z") with 122%Z.
  case_tests Hc.
Qed.

Lemma is_identifier_rune_not_end c :
  is_identifier_rune c = true -> c <> endSymbol.
Proof.
  unfold is_identifier_rune, endSymbol.
  change (rn ".") with 46%Z. change (rn "_") with 95%Z.
  change (rn "-") with 45%Z. change (rn "A") with 65%Z.
  change (rn "Z") with 90%Z. change (rn "a") with 97%Z.
  change (rn "z") with 122%Z.
  intros H ->. revert H. vm_compute. discriminate.
Qed.

Lemma digit_not_identifier_rune c :
  (rn "0" <= c <= rn "9")%Z -> is_identifier_rune c = false.
Proof.
  unfold is_identifier_rune.
  change (rn ".") with 46%Z. change (rn "_") with 95%Z.
  change (rn "-") with 45%Z. change (rn "A") with 65%Z.
  change (rn "Z") with 90%Z. change (rn "a") with 97%Z.
  change (rn "z") with 122%Z. change (rn "0") with 48%Z.
  change (rn "9") with 57%Z. intros H.
  repeat match goal with
         | |- context [Z.eqb ?a ?b] => destruct (Z.eqb_spec a b)
         | |- context [Z.leb ?a ?b] => destruct (Z.leb_spec a b)
         end; simpl; try reflexivity; lia.
Qed.

Lemma star_identifierChar fuel :
  forall st st', wf st ->
    star_loop fuel identifierChar st = Done true st' ->
    forall i, position st <= i < position st' ->
      exists c, buffer st !! N.to_nat i = Some c /\
                is_identifier_rune c = true.
Proof.
  induction fuel as [|fuel IH]; intros st st' W; simpl; [discriminate|].
  destruct (wf_peek _ W) as (c & Hc).
  rewrite (identifierChar_spec _ _ Hc).
  destruct (is_identifier_rune c) eqn:Hid.
  - intros E i Hi.
    destruct (advance_step _ _ W Hc (is_identifier_rune_not_end _ Hid))
      as (W1 & S1 & E1).
    destruct (decide (i = position st)) as [->|Hne].
    + exists c. auto.
    + apply (IH _ _ W1 E). lia.
  - intros [= <-] i Hi. simpl in Hi. lia.
Qed.

Lemma add_position rule begin st st' :
  add rule begin st = Done true st' ->
  position st' = position st /\ buffer st' = buffer st.
Proof.
  unfold add. destruct (tokens32_Add _ _ _ _ _); [|discriminate].
  by intros [= <-].
Qed.

Lemma Identifier_runes st st' :
  wf st -> Identifier st = Done true st' ->
  position st < position st' /\
  forall i, position st <= i < position st' ->
    exists c, buffer st !! N.to_nat i = Some c /\ is_identifier_rune c = true.
Proof.
  intros W. unfold Identifier, rule_fn, capture, plus, seq, star.
  destruct (wf_peek _ W) as (c & Hc).
  rewrite (identifierChar_spec _ _ Hc).
  destruct (is_identifier_rune c) eqn:Hid; [|discriminate].
  destruct (advance_step _ _ W Hc (is_identifier_rune_not_end _ Hid))
    as (W1 & S1 & E1).
  destruct (star_loop _ identifierChar (advance st)) as [[|] st1| |] eqn:E;
    try discriminate.
  destruct (add _ _ st1) as [[|] st2| |] eqn:Ha; intros [= <-].
  destruct (add_position _ _ _ _ Ha) as [Ep _]. rewrite Ep.
  assert (Hfuel : (length (buffer (advance st))
                   - N.to_nat (position (advance st))
                   < S (length (buffer (advance st))))%nat) by lia.
  destruct (star_loop_safe _ safe_identifierChar _ _ W1 Hfuel)
    as (st3 & E2 & _ & S2).
  rewrite E in E2. injection E2 as <-. destruct S2 as [_ Sp _ _ _].
  split; [lia|]. intros i Hi.
  destruct (decide (i = position st)) as [->|Hne].
  - exists c. auto.
  - destruct (star_identifierChar _ _ _ W1 E i) as (d & Hd & Hd'); [lia|].
    exists d. auto.
Qed.

Lemma Identifier_rejects st c :
  peek st = Some c -> is_identifier_rune c = false ->
  Identifier st = Done false st.
Proof.
  intros Hc Hid. unfold Identifier, rule_fn, capture, plus, seq.
  rewrite (identifierChar_spec _ _ Hc), Hid. by destruct st.
Qed.

(** C5. An Identifier is a run of one or more ASCII letters, ['-'], ['_']
    and ['.']; a digit is none of them, and Identifier fails on it. The
    text [i-12345 = create instance] is rejected, and
    [myvar = create instance] parses, as a Declaration. *)
Theorem C5_identifier_has_no_digit :
  (forall st st',
     wf st -> Identifier st = Done true st' ->
     position st < position st' /\
     forall i, position st <= i < position st' ->
       exists c, buffer st !! N.to_nat i = Some c /\
                 is_identifier_rune c = true) /\
  (forall c, (rn "0" <= c <= rn "9")%Z -> is_identifier_rune c = false) /\
  (forall st c,
     peek st = Some c -> is_identifier_rune c = false ->
     Identifier st = Done false st) /\
  rejected (Parse [] (Init (runes "i-12345 = create instance"))) = true /\
  (exists tokens,
     Parse [] (Init (runes "myvar = create instance")) = Parsed None tokens /\
     In (Token32 ruleDeclaration 0 23) tokens).
Proof.
  split; [|split; [|split; [|split]]].
  - apply Identifier_runes.
  - apply digit_not_identifier_rune.
  - apply Identifier_rejects.
  - vm_compute. reflexivity.
  - eexists. split; [vm_compute; reflexivity|]. vm_compute. tauto.
Qed.

Lemma C5_witness :
  let st := State (reset_buffer (runes "i-12345")) 0 0 token0 [token0] in
  exists st', Identifier st = Done true st' /\ position st' = 2 /\
    position st < position st' /\
    Identifier st' = Done false st'.
Proof.
  intros st.
  assert (W : wf st) by (vm_compute; repeat split; auto; discriminate).
  eexists. split; [vm_compute; reflexivity|].
  split; [reflexivity|]. split.
  - eapply (proj1 C5_identifier_has_no_digit st); [exact W|].
    vm_compute. reflexivity.
  - eapply (proj1 (proj2 (proj2 C5_identifier_has_no_digit)) _ (rn "1"));
      vm_compute; reflexivity.
Defined.

(** ** The tree builder *)

Lemma within_dec token n :
  (begin_ token <=? begin_ (node_token n))
  && (end_ (node_token n) <=? end_ token) = true <-> within token n.
Proof.
  unfold within. rewrite andb_true_iff, !N.leb_le. tauto.
Qed.

Lemma forest_cons n stack : forest (n :: stack) = forest stack ++ postorder n.
Proof.
  unfold forest. simpl. rewrite map_app, concat_app. simpl.
  by rewrite app_nil_r.
Qed.

(** The inner loop pops the longest run of tops within the token, and
    prepends each to [up]. *)
Lemma AST_pop_spec token stack :
  forall up, exists popped rest,
    stack = popped ++ rest /\
    AST_pop token up stack = (rev popped ++ up, rest) /\
    Forall (within token) popped /\
    match rest with top :: _ => ~ within token top | [] => True end.
Proof.
  induction stack as [|top down IH]; intros up; simpl.
  - exists [], []. auto.
  - destruct (_ && _) eqn:Hin.
    + destruct (IH (top :: up)) as (popped & rest & -> & E & F & R).
      exists (top :: popped), rest. simpl. rewrite <- app_assoc. simpl.
      repeat split; auto. constructor; auto. by apply within_dec.
    + exists [], (top :: down). simpl. repeat split; auto.
      intros H%within_dec. congruence.
Qed.

Lemma AST_step_forest stack token :
  forest (AST_step stack token) =
    forest stack ++ (if nonempty token then [token] else []).
Proof.
  unfold AST_step, nonempty. destruct (_ =? _); simpl.
  - by rewrite app_nil_r.
  - destruct (AST_pop_spec token stack []) as (popped & rest & -> & E & _).
    rewrite E, app_nil_r. rewrite forest_cons. simpl.
    unfold forest. rewrite rev_app_distr, map_app, concat_app.
    by rewrite app_assoc.
Qed.

Lemma fold_AST_step_forest tokens :
  forall stack,
    forest (fold_left AST_step tokens stack) =
      forest stack ++ List.filter nonempty tokens.
Proof.
  induction tokens as [|token tokens IH]; intros stack; simpl.
  - by rewrite app_nil_r.
  - rewrite IH, AST_step_forest, <- app_assoc.
    by destruct (nonempty token).
Qed.

Lemma fold_AST_step_filter tokens :
  forall stack,
    fold_left AST_step tokens stack =
      fold_left AST_step (List.filter nonempty tokens) stack.
Proof.
  induction tokens as [|token tokens IH]; intros stack; simpl; [done|].
  unfold nonempty at 1. destruct (_ =? _) eqn:E; simpl.
  - unfold AST_step at 2. rewrite E. apply IH.
  - apply IH.
Qed.

Lemma fold_AST_step_Forall (P : token32 -> Prop) tokens :
  forall stack,
    Forall P tokens -> Forall (fun n => P (node_token n)) stack ->
    Forall (fun n => P (node_token n)) (fold_left AST_step tokens stack).
Proof.
  induction tokens as [|token tokens IH]; intros stack Ht Hs; simpl; [done|].
  apply Forall_cons in Ht as [Hp Ht]. apply IH; auto.
  unfold AST_step. destruct (_ =? _); auto.
  destruct (AST_pop_spec token stack []) as (popped & rest & -> & E & _).
  rewrite E. apply Forall_app in Hs as [_ Hs]. constructor; auto.
Qed.

Lemma AST_pop_all token stack :
  forall up, Forall (within token) stack ->
    AST_pop token up stack = (rev stack ++ up, []).
Proof.
  induction stack as [|top down IH]; intros up H; simpl; [done|].
  apply Forall_cons in H as [Ht Hd]. apply within_dec in Ht. rewrite Ht.
  rewrite IH by assumption. by rewrite <- app_assoc.
Qed.

(** After records that lie within a last record, which is not empty, the
    stack is one tree, with the last record at its root. *)
Lemma AST_stack_root tokens root :
  Forall (fun t => begin_ root <= begin_ t /\ end_ t <= end_ root) tokens ->
  begin_ root <> end_ root ->
  AST_stack (tokens ++ [root]) = [Node32 root (rev (AST_stack tokens))].
Proof.
  intros Ht Hr. unfold AST_stack. rewrite fold_left_app. simpl.
  unfold AST_step at 1. apply N.eqb_neq in Hr. rewrite Hr.
  rewrite AST_pop_all, app_nil_r; [done|].
  apply (fold_AST_step_Forall _ tokens [] Ht). constructor.
Qed.

Lemma filter_nonempty_nil tokens :
  Forall (fun t => begin_ t = end_ t) tokens ->
  List.filter nonempty tokens = [].
Proof.
  induction 1 as [|t tokens Ht _ IH]; simpl; [done|].
  unfold nonempty at 1. apply N.eqb_eq in Ht. by rewrite Ht.
Qed.

(** C10. A list of records that are all empty, and so the empty list, has
    no tree: the stack is empty after the loop and [AST] returns [nil]. *)
Theorem C10_AST_nil_without_span tokens :
  Forall (fun t => begin_ t = end_ t) tokens ->
  AST_stack tokens = [] /\ AST tokens = None.
Proof.
  intros H.
  assert (E : AST_stack tokens = []).
  { unfold AST_stack.
    by rewrite fold_AST_step_filter, (filter_nonempty_nil _ H). }
  split; [exact E|]. unfold AST. by rewrite E.
Qed.

Lemma C10_witness :
  AST [Token32 ruleSpacing 0 0; Token32 ruleAction1 6 6] = None /\
  AST [] = None.
Proof.
  split.
  - apply C10_AST_nil_without_span. repeat constructor.
  - apply (C10_AST_nil_without_span []). constructor.
Defined.

Lemma safe_Script_body :
  safe true (Spacing >>> plus Statement >>> EndOfFile).
Proof. peg_safe. Qed.

(** The records of a parse that matched: the records of the sub-matches,
    within the span of the match, then the record of Script. *)
Lemma Script_visible st st' :
  wf st -> Script st = Done true st' -> nowrap st' ->
  position st < position st' /\ wf st' /\
  exists l,
    visible st' =
      visible st ++ l ++ [Token32 ruleScript (position st) (position st')] /\
    Forall (inside (position st) (position st')) l.
Proof.
  intros W E Hn. unfold Script, rule_fn, capture in E.
  destruct (safe_Script_body st W) as (b & st1 & E1 & W1 & S1 & P1).
  rewrite E1 in E. destruct b.
  - destruct (add_spec ruleScript (position st) st1 W1)
      as (st2 & Ea & Wa & Eb & Ep & Et & Em & Ev).
    rewrite Ea in E. injection E as <-.
    destruct (step_visible _ _ S1) as (l & El & Fl);
      [unfold nowrap in *; lia|].
    rewrite Ep. split; [auto|]. split; [exact Wa|].
    exists l. split; [|exact Fl]. rewrite (Ev Hn), El.
    by rewrite app_assoc.
  - discriminate.
Qed.

Lemma Trim_visible st : wf st -> Trim (tree st) (tokenIndex st) = Some (visible st).
Proof.
  intros (_ & _ & _ & Ht & _). unfold Trim.
  by destruct (N.leb_spec (tokenIndex st) (N.of_nat (length (tree st)))); [|lia].
Qed.

(** C7. Empty records are skipped; for a record that is not empty the tops
    of the stack that lie within it are popped, as long as there are, and
    become the children of its node, the first pushed first; so the records
    of the trees, children before parents, are the records that are not
    empty, in their order. After a parse that matched, from a state without
    records, the stack holds one tree, which [AST] returns, and its root is
    the record of Script. *)
Theorem C7_tree_reconstruction :
  (forall tokens,
     AST_stack tokens = AST_stack (List.filter nonempty tokens)) /\
  (forall stack token,
     begin_ token <> end_ token ->
     exists popped rest,
       stack = popped ++ rest /\
       Forall (within token) popped /\
       match rest with top :: _ => ~ within token top | [] => True end /\
       AST_step stack token = Node32 token (rev popped) :: rest) /\
  (forall tokens, forest (AST_stack tokens) = List.filter nonempty tokens) /\
  (forall st st' tokens,
     wf st -> tokenIndex st = 0 ->
     Script st = Done true st' -> nowrap st' ->
     Parse [] st = Parsed None tokens ->
     exists up,
       let root :=
         Node32 (Token32 ruleScript (position st) (position st')) up in
       AST_stack tokens = [root] /\ AST tokens = Some root /\
       postorder root = List.filter nonempty tokens).
Proof.
  split; [|split; [|split]].
  - intros tokens. apply fold_AST_step_filter.
  - intros stack token Hne.
    destruct (AST_pop_spec token stack []) as (popped & rest & E & Ep & F & R).
    exists popped, rest. repeat split; auto.
    unfold AST_step. apply N.eqb_neq in Hne. rewrite Hne, Ep.
    by rewrite app_nil_r.
  - intros tokens. unfold AST_stack. by rewrite fold_AST_step_forest.
  - intros st st' tokens W Ht E Hn Hp.
    destruct (Script_visible _ _ W E Hn) as (Hlt & W' & l & El & Fl).
    unfold Parse in Hp. simpl in Hp. rewrite E, (Trim_visible _ W') in Hp.
    injection Hp as <-.
    assert (Hv : visible st = []) by (unfold visible; by rewrite Ht).
    rewrite Hv in El. simpl in El.
    assert (Hs : AST_stack (visible st') =
                 [Node32 (Token32 ruleScript (position st) (position st'))
                    (rev (AST_stack l))]).
    { rewrite El. apply AST_stack_root; simpl; [|lia].
      eapply Forall_impl; [exact Fl|]. unfold inside. simpl. lia. }
    exists (rev (AST_stack l)). cbv zeta. split; [exact Hs|]. split.
    + unfold AST. by rewrite Hs.
    + pose proof (fold_AST_step_forest (visible st') []) as Hf.
      fold (AST_stack (visible st')) in Hf. rewrite Hs in Hf.
      unfold forest in Hf. simpl in Hf. rewrite app_nil_r in Hf.
      exact Hf.
Qed.

Lemma C7_witness :
  let st := State (reset_buffer (runes "stop vpc")) 0 0 token0 [token0] in
  exists st' tokens up,
    Script st = Done true st' /\ Parse [] st = Parsed None tokens /\
    AST tokens = Some (Node32 (Token32 ruleScript 0 8) up).
Proof.
  intros st.
  assert (W : wf st) by (vm_compute; repeat split; auto; discriminate).
  eassert (E : Script st = Done true _) by (vm_compute; reflexivity).
  eassert (Hp : Parse [] st = Parsed None _) by (vm_compute; reflexivity).
  destruct (proj2 (proj2 (proj2 C7_tree_reconstruction)) st _ _
              W eq_refl E ltac:(vm_compute; reflexivity) Hp)
    as (up & _ & Hr & _).
  eexists _, _, up. split; [exact E | split; [exact Hp | exact Hr]].
Defined.

(** ** A text without a statement *)


Lemma restore_same st : restore (position st) (tokenIndex st) st = st.
Proof. by destruct st. Qed.

Lemma restore_advance st :
  restore (position st) (tokenIndex st) (advance st) = st.
Proof. by destruct st. Qed.

Lemma capture_false rule m st st' :
  capture rule m st = Done false st' -> m st = Done false st'.
Proof.
  unfold capture. destruct (m st) as [[|] st1| |]; try discriminate; auto.
  intros H. by apply add_not_false in H.
Qed.

Lemma Whitespace_false st st' c :
  peek st = Some c -> Whitespace st = Done false st' ->
  c <> rn " " /\ c <> rn "009".
Proof.
  intros Hc. unfold Whitespace, rule_fn.
  destruct (capture _ _ st) as [[|] st1| |] eqn:E; try discriminate.
  intros _. apply capture_false in E. revert E. unfold alt.
  rewrite (matchChar_peek _ _ _ Hc).
  destruct (Z.eqb_spec c (rn " ")); [discriminate|].
  rewrite restore_same, (matchChar_peek _ _ _ Hc).
  destruct (Z.eqb_spec c (rn "009")); [discriminate|]. auto.
Qed.

Lemma EndOfLine_false st st' c :
  peek st = Some c -> EndOfLine st = Done false st' ->
  c <> rn "013" /\ c <> rn "010".
Proof.
  intros Hc. unfold EndOfLine, rule_fn.
  destruct (capture _ _ st) as [[|] st1| |] eqn:E; try discriminate.
  intros _. apply capture_false in E. revert E. unfold alt, seq.
  rewrite (matchChar_peek _ _ _ Hc).
  destruct (Z.eqb_spec c (rn "013")) as [->|H13].
  - unfold matchChar at 1. destruct (peek (advance st)) as [d|]; [|discriminate].
    destruct (Z.eqb d (rn "010")); [discriminate|].
    rewrite restore_advance, (matchChar_peek _ _ _ Hc). simpl.
    rewrite restore_same, (matchChar_peek _ _ _ Hc). simpl. discriminate.
  - rewrite restore_same, (matchChar_peek _ _ _ Hc).
    destruct (Z.eqb_spec c (rn "010")); [discriminate|]. auto.
Qed.

Lemma Space_false st st' c :
  wf st -> peek st = Some c -> Space st = Done false st' ->
  is_space c = false.
Proof.
  intros W Hc E. unfold Space in E. apply capture_false in E.
  unfold alt in E.
  destruct (safe_Whitespace st W) as (b & st1 & Ew & W1 & S1 & _).
  rewrite Ew in E. destruct b; [discriminate|].
  destruct (Whitespace_false _ _ _ Hc Ew) as [H1 H2].
  destruct (rule_fn_false _ _ _ Ew) as [Ep Et].
  assert (Hc' : peek (restore (position st) (tokenIndex st) st1) = Some c).
  { unfold peek. simpl. destruct S1 as [-> _ _ _ _]. exact Hc. }
  destruct (EndOfLine_false _ _ _ Hc' E) as [H3 H4].
  unfold is_space. apply Z.eqb_neq in H1, H2, H3, H4.
  by rewrite H1, H2, H3, H4.
Qed.











(** ** The error report *)

Lemma scan_snoc l c start :
  scan (l ++ [c]) start = scan_step (scan l start) c.
Proof. unfold scan. by rewrite fold_left_app. Qed.

Lemma newlines_snoc l c :
  newlines (l ++ [c]) =
    (if Z.eqb c (rn "010") then newlines l + 1 else newlines l)%Z.
Proof.
  unfold newlines. rewrite List.filter_app, length_app.
  cbn [List.filter]. destruct (Z.eqb c (rn "010")); cbn [length]; lia.
Qed.

Lemma since_newline_snoc l c :
  since_newline (l ++ [c]) =
    (if Z.eqb c (rn "010") then 0 else since_newline l + 1)%Z.
Proof.
  unfold since_newline. rewrite rev_app_distr. simpl.
  destruct (Z.eqb c (rn "010")); lia.
Qed.

Lemma scan_spec l :
  scan l (1%Z, 0%Z) = ((1 + newlines l)%Z, since_newline l).
Proof.
  induction l as [|c l IH] using rev_ind; [reflexivity|].
  rewrite scan_snoc, IH, newlines_snoc, since_newline_snoc.
  unfold scan_step. simpl. destruct (Z.eqb c (rn "010")); f_equal; lia.
Qed.

(** The record of the scan against the 1-based numbers: they agree at an
    offset that holds no line feed; at a line feed the scan has moved to
    the next line, symbol 0. *)
Lemma scanned_spec buffer i c :
  buffer !! i = Some c ->
  scanned buffer i =
    if Z.eqb c (rn "010")
    then TextPosition (line_number buffer i + 1) 0
    else TextPosition (line_number buffer i) (column_number buffer i).
Proof.
  intros Hc. unfold scanned, line_number, column_number.
  rewrite (take_S_r _ _ _ Hc), scan_spec, newlines_snoc, since_newline_snoc.
  simpl. destruct (Z.eqb c (rn "010")); f_equal; lia.
Qed.

Lemma skip_equal_all i positions :
  Forall (eq i) positions -> skip_equal i positions = [].
Proof.
  induction 1 as [|p positions <- _ IH]; simpl; [done|].
  by rewrite Z.eqb_refl.
Qed.

Lemma scan_cons c l start : scan (c :: l) start = scan l (scan_step start c).
Proof. reflexivity. Qed.

Lemma search_step c line symbol :
  (if Z.eqb c (rn "010") then ((line + 1)%Z, 0%Z) else (line, (symbol + 1)%Z))
  = scan_step (line, symbol) c.
Proof. reflexivity. Qed.

(** The loop, while one offset (and copies of it) is left to find. *)
Lemma search_one rest :
  forall i p dups line symbol translations,
    Forall (eq p) dups ->
    (i <= p < i + Z.of_nat (length rest))%Z ->
    search rest i (p :: dups) line symbol translations =
      let ls := scan (take (Z.to_nat (p - i + 1)) rest) (line, symbol) in
      Some (<[p := TextPosition ls.1 ls.2]> translations).
Proof.
  induction rest as [|c rest IH]; intros i p dups line symbol tr Hd Hp;
    simpl in Hp; [lia|].
  cbn [search]. rewrite search_step.
  destruct (scan_step (line, symbol) c) as [line' symbol'] eqn:Es.
  destruct (Z.eqb_spec i p) as [->|Hne].
  - rewrite skip_equal_all by assumption.
    replace (Z.to_nat (p - p + 1)) with 1%nat by lia.
    simpl. unfold scan. simpl. by rewrite Es.
  - rewrite IH by (auto; lia).
    replace (Z.to_nat (p - i + 1)) with (S (Z.to_nat (p - (i + 1) + 1)))
      by lia.
    cbn [take]. by rewrite scan_cons, Es.
Qed.

(** The loop, while two offsets are left to find. *)
Lemma search_two rest :
  forall i p q line symbol translations,
    (i <= p < q)%Z -> (q < i + Z.of_nat (length rest))%Z ->
    search rest i [p; q] line symbol translations =
      let ls := scan (take (Z.to_nat (p - i + 1)) rest) (line, symbol) in
      let ls' := scan (take (Z.to_nat (q - i + 1)) rest) (line, symbol) in
      Some (<[q := TextPosition ls'.1 ls'.2]>
              (<[p := TextPosition ls.1 ls.2]> translations)).
Proof.
  induction rest as [|c rest IH]; intros i p q line symbol tr Hp Hq;
    simpl in Hq; [lia|].
  cbn [search]. rewrite search_step.
  destruct (scan_step (line, symbol) c) as [line' symbol'] eqn:Es.
  destruct (Z.eqb_spec i p) as [->|Hne].
  - cbn [skip_equal]. destruct (Z.eqb_spec p q); [lia|].
    rewrite search_one by (auto; lia).
    replace (Z.to_nat (p - p + 1)) with 1%nat by lia.
    replace (Z.to_nat (q - p + 1)) with (S (Z.to_nat (q - (p + 1) + 1)))
      by lia.
    cbn [take]. rewrite !scan_cons, Es. reflexivity.
  - rewrite IH by lia.
    replace (Z.to_nat (p - i + 1)) with (S (Z.to_nat (p - (i + 1) + 1)))
      by lia.
    replace (Z.to_nat (q - i + 1)) with (S (Z.to_nat (q - (i + 1) + 1)))
      by lia.
    cbn [take]. by rewrite !scan_cons, Es.
Qed.

Lemma sort_pair p q : (p <= q)%Z -> merge_sort Z.le [p; q] = [p; q].
Proof.
  intros H. unfold merge_sort. simpl. unfold list_merge.
  by rewrite decide_True by assumption.
Qed.

(** The translations of the two offsets of a span. *)
Lemma translatePositions_span buffer p q :
  (p <= q)%nat -> (q < length buffer)%nat ->
  exists translations,
    translatePositions buffer [Z.of_nat p; Z.of_nat q] = Some translations /\
    translations !! Z.of_nat p = Some (scanned buffer p) /\
    translations !! Z.of_nat q = Some (scanned buffer q).
Proof.
  intros Hpq Hq. unfold translatePositions. rewrite sort_pair by lia.
  destruct (decide (p = q)) as [<-|Hne].
  - rewrite search_one by (auto; lia). cbv zeta.
    eexists. split; [reflexivity|].
    replace (Z.to_nat (Z.of_nat p - 0 + 1)) with (S p) by lia.
    split; apply lookup_insert_eq.
  - rewrite search_two by lia. cbv zeta.
    eexists. split; [reflexivity|].
    replace (Z.to_nat (Z.of_nat p - 0 + 1)) with (S p) by lia.
    replace (Z.to_nat (Z.of_nat q - 0 + 1)) with (S q) by lia.
    split; [|apply lookup_insert_eq].
    rewrite lookup_insert_ne by lia. apply lookup_insert_eq.
Qed.

Lemma slice_spec {A} (s : list A) low high :
  low <= high -> high <= N.of_nat (length s) ->
  slice s low high =
    Some (take (N.to_nat high - N.to_nat low) (drop (N.to_nat low) s)).
Proof.
  intros H1 H2. unfold slice.
  destruct (N.leb_spec low high); [|lia].
  by destruct (N.leb_spec high (N.of_nat (length s))); [|lia].
Qed.

(** C8, as the code has it. For a token [max] whose span lies in the
    buffer, the report is the format filled with the name of its rule, the
    translations of its two offsets and the quoted text of its span. The
    translation of an offset is the pair the scan holds after the rune at
    the offset: the 1-based line and column numbers when that rune is not a
    line feed, and the next line with symbol 0 when it is; only a line feed
    advances the line. *)
Theorem C8_error_report Sprintf Quote buffer Pretty max :
  begin_ max <= end_ max -> end_ max < N.of_nat (length buffer) ->
  let begin := N.to_nat (begin_ max) in
  let end' := N.to_nat (end_ max) in
  Error Sprintf Quote buffer Pretty max =
    Some (newline +:+
      Sprintf (format Pretty)
        [ ArgString (rul3s (pegRule_ max));
          ArgInt (line (scanned buffer begin));
          ArgInt (symbol (scanned buffer begin));
          ArgInt (line (scanned buffer end'));
          ArgInt (symbol (scanned buffer end'));
          ArgString (Quote (take (end' - begin) (drop begin buffer))) ]) /\
  (forall i c,
     buffer !! i = Some c ->
     scanned buffer i =
       if Z.eqb c (rn "010")
       then TextPosition (line_number buffer i + 1) 0
       else TextPosition (line_number buffer i) (column_number buffer i)).
Proof.
  intros Hbe He begin end'. split; [|apply scanned_spec].
  unfold Error.
  destruct (translatePositions_span buffer begin end') as (tr & Et & Hb & Hq);
    [lia | lia |].
  replace (Z.of_N (begin_ max)) with (Z.of_nat begin) by lia.
  replace (Z.of_N (end_ max)) with (Z.of_nat end') by lia.
  rewrite Et, slice_spec by lia. by rewrite Hb, Hq.
Qed.

(** The text [create vpc], a line feed, [=]: the parse fails with the
    record of the line feed in [max]. *)
Lemma parse_error_at_line_feed :
  match Parse [] (Init (runes ("create vpc" +:+ newline +:+ "="))) with
  | Parsed (Some e) _ => e = Token32 ruleEndOfLine 10 11
  | _ => False
  end.
Proof. vm_compute. reflexivity. Qed.

Lemma C8_witness :
  let buffer := reset_buffer (runes ("create vpc" +:+ newline +:+ "=")) in
  let Sprintf := fun (f : string) (args : list arg) =>
    match args with ArgString r :: _ => r | _ => f end in
  let Quote := fun _ : list rune => EmptyString in
  Error Sprintf Quote buffer false (Token32 ruleEndOfLine 10 11) =
    Some (newline +:+ "EndOfLine") /\
  scanned buffer 10 = TextPosition 2 0 /\
  scanned buffer 11 = TextPosition 2 1.
Proof.
  intros buffer Sprintf Quote.
  destruct (C8_error_report Sprintf Quote buffer false
              (Token32 ruleEndOfLine 10 11)
              ltac:(vm_compute; discriminate) ltac:(vm_compute; reflexivity))
    as [He Hs].
  split; [|split].
  - rewrite He. reflexivity.
  - rewrite (Hs 10%nat (rn "010")); [|reflexivity]. vm_compute. reflexivity.
  - rewrite (Hs 11%nat (rn "=")); [|reflexivity]. vm_compute. reflexivity.
Defined.

(** C8 as stated fails at the line feed of that text, offset 10: its
    1-based position is line 1, column 11, and the translation is line 2,
    symbol 0. *)
Lemma C8_counterexample : ~ one_based_positions.
Proof.
  intros H.
  set (buffer := reset_buffer (runes ("create vpc" +:+ newline +:+ "="))).
  specialize (H buffer 10%nat).
  unfold translatePositions in H.
  change (merge_sort Z.le [Z.of_nat 10]) with [Z.of_nat 10] in H.
  rewrite search_one in H by (auto; vm_compute; split; discriminate || reflexivity).
  cbv zeta in H.
  specialize (H _ ltac:(vm_compute; lia) eq_refl).
  rewrite lookup_insert_eq in H. revert H. vm_compute. discriminate.
Qed.

(** ** The records of [LineDone] *)

Lemma balance_app buffer l1 l2 :
  balance buffer (l1 ++ l2) = (balance buffer l1 + balance buffer l2)%Z.
Proof. induction l1 as [|t l1 IH]; simpl; [done|]. rewrite IH. lia. Qed.

Lemma safe_run p m st b st' :
  safe p m -> wf st -> m st = Done b st' -> wf st' /\ step st st'.
Proof.
  intros H W E. destruct (H st W) as (b2 & st2 & E2 & W2 & S2 & _).
  rewrite E in E2. by injection E2 as <- <-.
Qed.

Lemma emits_cast d d' m : emits d m -> d = d' -> emits d' m.
Proof. by intros H <-. Qed.

Lemma emits_pure m : pure m -> emits 0 m.
Proof.
  intros H st st' l W E Hn Hv. destruct (H _ _ _ E) as [Et Ei].
  unfold visible in Hv. rewrite Et, Ei in Hv.
  rewrite <- (app_nil_r (take _ _)) in Hv at 1.
  apply app_inv_head in Hv. by subst l.
Qed.

Lemma pure_ok : pure ok.
Proof. by intros st b st' [= <- <-]. Qed.

Lemma pure_matchChar c : pure (matchChar c).
Proof.
  intros st b st'. unfold matchChar. destruct (peek st); [|discriminate].
  by destruct (Z.eqb _ _); intros [= <- <-].
Qed.

Lemma pure_matchRange lower upper : pure (matchRange lower upper).
Proof.
  intros st b st'. unfold matchRange. destruct (peek st); [|discriminate].
  by destruct (_ || _); intros [= <- <-].
Qed.

Lemma pure_matchDot : pure matchDot.
Proof.
  intros st b st'. unfold matchDot. destruct (peek st); [|discriminate].
  by destruct (Z.eqb _ _); intros [= <- <-].
Qed.

Lemma pure_seq m1 m2 : pure m1 -> pure m2 -> pure (m1 >>> m2).
Proof.
  intros H1 H2 st b st'. unfold seq.
  destruct (m1 st) as [[|] st1| |] eqn:E1; try discriminate.
  - intros E2. destruct (H1 _ _ _ E1) as [Ha Hb].
    destruct (H2 _ _ _ E2) as [Hc Hd]. split; congruence.
  - intros [= <- <-]. by apply H1 in E1.
Qed.

Lemma pure_chars cs : pure (chars cs).
Proof.
  induction cs; simpl; auto using pure_ok, pure_seq, pure_matchChar.
Qed.

Lemma emits_char c : emits 0 (matchChar c).
Proof. apply emits_pure, pure_matchChar. Qed.

Lemma emits_range lower upper : emits 0 (matchRange lower upper).
Proof. apply emits_pure, pure_matchRange. Qed.

Lemma emits_dot : emits 0 matchDot.
Proof. apply emits_pure, pure_matchDot. Qed.

Lemma emits_lit s : emits 0 (lit s).
Proof. apply emits_pure, pure_chars. Qed.

Lemma emits_ok : emits 0 ok.
Proof. apply emits_pure, pure_ok. Qed.

Lemma nowrap_back st st' : step st st' -> nowrap st' -> nowrap st.
Proof. intros [_ _ Ht _ _]. unfold nowrap. lia. Qed.

Lemma emits_seq p1 p2 d1 d2 m1 m2 :
  safe p1 m1 -> safe p2 m2 -> emits d1 m1 -> emits d2 m2 ->
  emits (d1 + d2) (m1 >>> m2).
Proof.
  intros S1 S2 H1 H2 st st' l W E Hn Hv. unfold seq in E.
  destruct (m1 st) as [[|] st1| |] eqn:E1; try discriminate.
  destruct (safe_run _ _ _ _ _ S1 W E1) as [W1 St1].
  destruct (safe_run _ _ _ _ _ S2 W1 E) as [W2 St2].
  pose proof (nowrap_back _ _ St2 Hn) as Hn1.
  destruct (step_visible _ _ St1 Hn1) as (l1 & El1 & _).
  destruct (step_visible _ _ St2 Hn) as (l2 & El2 & _).
  rewrite El2, El1, <- app_assoc in Hv. apply app_inv_head in Hv. subst l.
  rewrite balance_app. f_equal; [eauto|].
  rewrite <- (step_buffer _ _ St1). eauto.
Qed.

Lemma emits_alt p1 p2 d1 d2 m1 m2 :
  safe p1 m1 -> safe p2 m2 -> emits d1 m1 -> emits d2 m2 -> d1 = d2 ->
  emits d1 (alt m1 m2).
Proof.
  intros S1 S2 H1 H2 <- st st' l W E Hn Hv. unfold alt in E.
  destruct (m1 st) as [[|] st1| |] eqn:E1; try discriminate.
  - injection E as <-. eauto.
  - destruct (safe_run _ _ _ _ _ S1 W E1) as [W1 St1].
    destruct (restore_step _ _ W W1 St1) as (Wr & Sr & Vr).
    destruct (safe_run _ _ _ _ _ S2 Wr E) as [W2 St2].
    rewrite <- (Vr (nowrap_back _ _ St2 Hn)) in Hv.
    rewrite <- (step_buffer _ _ Sr). eauto.
Qed.

Lemma emits_rule_fn d m : emits d m -> emits d (rule_fn m).
Proof.
  intros H st st' l W E Hn Hv. unfold rule_fn in E.
  destruct (m st) as [[|] st1| |] eqn:E1; try discriminate.
  injection E as <-. eauto.
Qed.

Lemma emits_neg p m : safe p m -> emits 0 (neg m).
Proof.
  intros S st st' l W E Hn Hv. unfold neg in E.
  destruct (m st) as [[|] st1| |] eqn:E1; try discriminate.
  injection E as <-.
  destruct (safe_run _ _ _ _ _ S W E1) as [W1 St1].
  destruct (restore_step _ _ W W1 St1) as (_ & _ & Vr).
  rewrite (Vr Hn) in Hv. rewrite <- (app_nil_r (visible st)) in Hv at 1.
  apply app_inv_head in Hv. by subst l.
Qed.

Lemma star_loop_run p m :
  safe p m ->
  forall fuel st b st',
    wf st -> star_loop fuel m st = Done b st' -> wf st' /\ step st st'.
Proof.
  intros S. induction fuel as [|fuel IH]; intros st b st' W E; simpl in E;
    [discriminate|].
  destruct (m st) as [[|] st1| |] eqn:E1; try discriminate.
  - destruct (safe_run _ _ _ _ _ S W E1) as [W1 St1].
    destruct (IH _ _ _ W1 E) as [W2 St2]. eauto using step_trans.
  - injection E as <- <-.
    destruct (safe_run _ _ _ _ _ S W E1) as [W1 St1].
    destruct (restore_step _ _ W W1 St1) as (Wr & Sr & _). auto.
Qed.

Lemma star_loop_emits p m :
  safe p m -> emits 0 m ->
  forall fuel st st' l,
    wf st -> star_loop fuel m st = Done true st' -> nowrap st' ->
    visible st' = visible st ++ l -> balance (buffer st) l = 0%Z.
Proof.
  intros S H. induction fuel as [|fuel IH]; intros st st' l W E Hn Hv;
    simpl in E; [discriminate|].
  destruct (m st) as [[|] st1| |] eqn:E1; try discriminate.
  - destruct (safe_run _ _ _ _ _ S W E1) as [W1 St1].
    destruct (star_loop_run _ _ S _ _ _ _ W1 E) as [W2 St2].
    pose proof (nowrap_back _ _ St2 Hn) as Hn1.
    destruct (step_visible _ _ St1 Hn1) as (l1 & El1 & _).
    destruct (step_visible _ _ St2 Hn) as (l2 & El2 & _).
    rewrite El2, El1, <- app_assoc in Hv. apply app_inv_head in Hv. subst l.
    rewrite balance_app, (H _ _ _ W E1 Hn1 El1).
    rewrite <- (step_buffer _ _ St1). by rewrite (IH _ _ _ W1 E Hn El2).
  - injection E as <-.
    destruct (safe_run _ _ _ _ _ S W E1) as [W1 St1].
    destruct (restore_step _ _ W W1 St1) as (_ & _ & Vr).
    rewrite (Vr Hn) in Hv. rewrite <- (app_nil_r (visible st)) in Hv at 1.
    apply app_inv_head in Hv. by subst l.
Qed.

Lemma emits_star p d m : safe p m -> emits d m -> d = 0%Z -> emits 0 (star m).
Proof.
  intros S H -> st st' l W E. unfold star in E.
  eapply star_loop_emits; eauto.
Qed.

Lemma emits_plus p d m : safe p m -> emits d m -> p = true -> d = 0%Z ->
  emits 0 (plus m).
Proof.
  intros S H -> ->. unfold plus.
  apply (emits_seq true false 0 0); eauto using safe_star, emits_star.
Qed.

Lemma emits_opt p d m : safe p m -> emits d m -> d = 0%Z -> emits 0 (opt m).
Proof.
  intros S H ->. unfold opt.
  eapply emits_alt; eauto using safe_ok, emits_ok.
Qed.

Lemma weight_rule buffer rule begin end' :
  pegRule_eqb rule ruleComment = false ->
  weight buffer (Token32 rule begin end') = rule_weight rule.
Proof.
  intros H. unfold weight, is_slash_comment, is_comment_with, is_rule.
  simpl. by rewrite H.
Qed.

Lemma emits_capture p d rule m :
  safe p m -> emits d m -> pegRule_eqb rule ruleComment = false ->
  emits (d + rule_weight rule) (capture rule m).
Proof.
  intros S H Hr st st' l W E Hn Hv. unfold capture in E.
  destruct (m st) as [[|] st1| |] eqn:E1; try discriminate.
  destruct (safe_run _ _ _ _ _ S W E1) as [W1 St1].
  destruct (add_spec rule (position st) st1 W1)
    as (st2 & Ea & Wa & Eb & Ep & Et & Em & Ev).
  rewrite E in Ea. injection Ea as <-.
  assert (Hn1 : nowrap st1) by (unfold nowrap in *; lia).
  destruct (step_visible _ _ St1 Hn1) as (l1 & El1 & _).
  rewrite (Ev Hn), El1, <- app_assoc in Hv. apply app_inv_head in Hv.
  subst l. rewrite balance_app, (H _ _ _ W E1 Hn1 El1). simpl.
  rewrite weight_rule by assumption. lia.
Qed.

Lemma emits_action rule :
  pegRule_eqb rule ruleComment = false ->
  emits (0 + rule_weight rule) (action rule).
Proof. intros H. apply (emits_capture false 0 rule ok safe_ok emits_ok H). Qed.

Lemma emits_switch_nil d default : emits d default -> emits d (switch [] default).
Proof.
  intros H st st' l W E. unfold switch in E.
  destruct (peek st); [|discriminate]. simpl in E. eauto.
Qed.

Lemma emits_switch_cons d1 d2 cs m cases default :
  emits d1 m -> emits d2 (switch cases default) -> d1 = d2 ->
  emits d1 (switch ((cs, m) :: cases) default).
Proof.
  intros H1 H2 <- st st' l W E Hn Hv. unfold switch in *.
  specialize (H2 st st' l W). cbv beta in H2.
  destruct (peek st) as [c|]; [|discriminate]. simpl in E.
  destruct (existsb (Z.eqb c) cs);
    [exact (H1 _ _ _ W E Hn Hv) | exact (H2 E Hn Hv)].
Qed.

#[local] Hint Resolve emits_char emits_range emits_dot emits_lit emits_seq
  emits_alt emits_rule_fn emits_neg emits_star emits_plus emits_opt
  emits_capture emits_action emits_switch_nil emits_switch_cons : peg.

Ltac peg_emits := eapply emits_cast; [eauto 5000 with peg | reflexivity].

Lemma emits_Whitespace : emits 0 Whitespace.
Proof. unfold Whitespace. peg_emits. Qed.
#[local] Hint Resolve emits_Whitespace : peg.

Lemma emits_EndOfLine : emits 0 EndOfLine.
Proof. unfold EndOfLine. peg_emits. Qed.
#[local] Hint Resolve emits_EndOfLine : peg.

Lemma emits_Space : emits 0 Space.
Proof. unfold Space. peg_emits. Qed.
#[local] Hint Resolve emits_Space : peg.

Lemma emits_Spacing : emits 0 Spacing.
Proof. unfold Spacing. peg_emits. Qed.
#[local] Hint Resolve emits_Spacing : peg.

Lemma emits_WhiteSpacing : emits 0 WhiteSpacing.
Proof. unfold WhiteSpacing. peg_emits. Qed.
#[local] Hint Resolve emits_WhiteSpacing : peg.

Lemma emits_MustWhiteSpacing : emits 0 MustWhiteSpacing.
Proof. unfold MustWhiteSpacing. peg_emits. Qed.
#[local] Hint Resolve emits_MustWhiteSpacing : peg.

Lemma emits_Equal : emits 0 Equal.
Proof. unfold Equal. peg_emits. Qed.
#[local] Hint Resolve emits_Equal : peg.

Lemma emits_identifierChar : emits 0 identifierChar.
Proof. unfold identifierChar. peg_emits. Qed.
#[local] Hint Resolve emits_identifierChar : peg.

Lemma emits_Identifier : emits 0 Identifier.
Proof. unfold Identifier. peg_emits. Qed.
#[local] Hint Resolve emits_Identifier : peg.

Lemma emits_Action : emits 0 Action.
Proof. unfold Action. peg_emits. Qed.
#[local] Hint Resolve emits_Action : peg.

Lemma emits_Entity : emits 0 Entity.
Proof. unfold Entity. peg_emits. Qed.
#[local] Hint Resolve emits_Entity : peg.

Lemma emits_digit : emits 0 digit.
Proof. unfold digit. peg_emits. Qed.
#[local] Hint Resolve emits_digit : peg.

Lemma emits_CidrValue : emits 0 CidrValue.
Proof. unfold CidrValue. peg_emits. Qed.
#[local] Hint Resolve emits_CidrValue : peg.

Lemma emits_IpValue : emits 0 IpValue.
Proof. unfold IpValue. peg_emits. Qed.
#[local] Hint Resolve emits_IpValue : peg.

Lemma emits_IntRangeValue : emits 0 IntRangeValue.
Proof. unfold IntRangeValue. peg_emits. Qed.
#[local] Hint Resolve emits_IntRangeValue : peg.

Lemma emits_IntValue : emits 0 IntValue.
Proof. unfold IntValue. peg_emits. Qed.
#[local] Hint Resolve emits_IntValue : peg.

Lemma emits_RefValue : emits 0 RefValue.
Proof. unfold RefValue. peg_emits. Qed.
#[local] Hint Resolve emits_RefValue : peg.

Lemma emits_AliasValue : emits 0 AliasValue.
Proof. unfold AliasValue. peg_emits. Qed.
#[local] Hint Resolve emits_AliasValue : peg.

Lemma emits_HoleValue : emits 0 HoleValue.
Proof. unfold HoleValue. peg_emits. Qed.
#[local] Hint Resolve emits_HoleValue : peg.

Lemma emits_stringValueChar : emits 0 stringValueChar.
Proof. unfold stringValueChar. peg_emits. Qed.
#[local] Hint Resolve emits_stringValueChar : peg.

Lemma emits_StringValue : emits 0 StringValue.
Proof. unfold StringValue. peg_emits. Qed.
#[local] Hint Resolve emits_StringValue : peg.

Lemma emits_Value : emits 0 Value.
Proof.
  unfold Value, valueCidr, valueIp, valueIntRange, valueInt,
    valueByLeadingRune.
  peg_emits.
Qed.
#[local] Hint Resolve emits_Value : peg.

Lemma emits_Param : emits 0 Param.
Proof. unfold Param. peg_emits. Qed.
#[local] Hint Resolve emits_Param : peg.

Lemma emits_Params : emits 0 Params.
Proof. unfold Params. peg_emits. Qed.
#[local] Hint Resolve emits_Params : peg.

(** The record of Action3 and the record of Expr cancel. *)
Lemma emits_Expr : emits 0 Expr.
Proof. unfold Expr. peg_emits. Qed.
#[local] Hint Resolve emits_Expr : peg.

Lemma emits_Declaration : emits 0 Declaration.
Proof. unfold Declaration. peg_emits. Qed.
#[local] Hint Resolve emits_Declaration : peg.

Lemma emits_restOfLine : emits 0 restOfLine.
Proof. unfold restOfLine. peg_emits. Qed.
#[local] Hint Resolve emits_restOfLine : peg.

Lemma emits_hashComment : emits 0 hashComment.
Proof. unfold hashComment. peg_emits. Qed.

(** A [//] comment adds the record of Action13. *)
Lemma emits_slashComment : emits 1 slashComment.
Proof. unfold slashComment. peg_emits. Qed.

Lemma hashComment_first st st' :
  hashComment st = Done true st' -> peek st = Some (rn "#").
Proof.
  unfold hashComment, seq, matchChar.
  destruct (peek st) as [c|]; [|discriminate].
  destruct (Z.eqb_spec c (rn "#")) as [->|]; [done|discriminate].
Qed.

Lemma slashComment_first st st' :
  slashComment st = Done true st' -> peek st = Some (rn "/").
Proof.
  unfold slashComment, seq, matchChar.
  destruct (peek st) as [c|]; [|discriminate].
  destruct (Z.eqb_spec c (rn "/")) as [->|]; [done|discriminate].
Qed.

Lemma weight_Comment buffer begin end' c :
  buffer !! N.to_nat begin = Some c ->
  weight buffer (Token32 ruleComment begin end') =
    if Z.eqb c (rn "/") then (-1)%Z else 0%Z.
Proof.
  intros H. unfold weight, is_slash_comment, is_comment_with. simpl.
  rewrite H. by destruct (Z.eqb c (rn "/")).
Qed.

(** The record of a [#] comment weighs nothing; the record of a [//]
    comment cancels the record of its Action13. *)
Lemma emits_Comment : emits 0 Comment.
Proof.
  intros st st' l W E Hn Hv. unfold Comment, capture in E.
  destruct (alt hashComment slashComment st) as [[|] st1| |] eqn:E1;
    try discriminate.
  destruct (safe_run _ _ _ _ _
              (safe_alt _ _ _ _ safe_hashComment safe_slashComment) W E1)
    as [W1 St1].
  destruct (add_spec ruleComment (position st) st1 W1)
    as (st2 & Ea & Wa & Eb & Ep & Et & Em & Ev).
  rewrite E in Ea. injection Ea as <-.
  assert (Hn1 : nowrap st1) by (unfold nowrap in *; lia).
  destruct (step_visible _ _ St1 Hn1) as (l1 & El1 & _).
  rewrite (Ev Hn), El1, <- app_assoc in Hv. apply app_inv_head in Hv.
  subst l. rewrite balance_app. simpl.
  unfold alt in E1.
  destruct (hashComment st) as [[|] sh| |] eqn:Eh; try discriminate.
  - injection E1 as <-.
    rewrite (emits_hashComment _ _ _ W Eh Hn1 El1).
    rewrite (weight_Comment _ _ _ _ (hashComment_first _ _ Eh)).
    reflexivity.
  - destruct (safe_run _ _ _ _ _ safe_hashComment W Eh) as [Wh Sh].
    destruct (restore_step _ _ W Wh Sh) as (Wr & Sr & Vr).
    destruct (safe_run _ _ _ _ _ safe_slashComment Wr E1) as [_ Ss].
    rewrite <- (Vr (nowrap_back _ _ Ss Hn1)) in El1.
    pose proof (emits_slashComment _ _ _ Wr E1 Hn1 El1) as Hb.
    rewrite (step_buffer _ _ Sr) in Hb. rewrite Hb.
    pose proof (slashComment_first _ _ E1) as Hc.
    unfold peek in Hc. simpl in Hc. rewrite (step_buffer _ _ Sh) in Hc.
    rewrite (weight_Comment _ _ _ _ Hc). reflexivity.
Qed.
#[local] Hint Resolve emits_Comment : peg.

Lemma emits_Statement : emits 0 Statement.
Proof. unfold Statement. peg_emits. Qed.
#[local] Hint Resolve emits_Statement : peg.

Lemma emits_EndOfFile : emits 0 EndOfFile.
Proof. unfold EndOfFile. peg_emits. Qed.
#[local] Hint Resolve emits_EndOfFile : peg.

Lemma emits_Script : emits 0 Script.
Proof. unfold Script. peg_emits. Qed.

Lemma count_cons {A} (f : A -> bool) x l :
  count f (x :: l) = ((if f x then 1 else 0) + count f l)%nat.
Proof. unfold count. simpl. by destruct (f x). Qed.

Lemma count_app {A} (f : A -> bool) l1 l2 :
  count f (l1 ++ l2) = (count f l1 + count f l2)%nat.
Proof. unfold count. by rewrite List.filter_app, length_app. Qed.

(** The weight of a list, in counts of records. *)
Lemma balance_count buffer l :
  balance buffer l =
    (Z.of_nat (count (is_rule ruleAction3) l + count (is_rule ruleAction13) l)
     - Z.of_nat (count (is_rule ruleExpr) l
                 + count (is_slash_comment buffer) l))%Z.
Proof.
  induction l as [|t l IH]; [reflexivity|].
  cbn [balance fold_right]. fold (balance buffer l). rewrite IH, !count_cons.
  unfold weight. destruct (is_slash_comment buffer t) eqn:Hs.
  - unfold is_slash_comment, is_comment_with in Hs.
    apply andb_prop in Hs as [Hr _]. unfold is_rule in *.
    destruct (pegRule_ t); try discriminate; simpl; lia.
  - unfold is_rule. destruct (pegRule_ t); simpl; lia.
Qed.

(** [Execute] calls [LineDone] once for each record of Action3 and of
    Action13, and does not panic on records that lie in the buffer. *)
Lemma Execute_loop_count _buffer tokens :
  forall text,
    Forall (fun t => begin_ t <= end_ t /\
                     end_ t <= N.of_nat (length _buffer)) tokens ->
    exists calls,
      Execute_loop _buffer text tokens = Some calls /\
      count is_LineDone calls =
        (count (is_rule ruleAction3) tokens
         + count (is_rule ruleAction13) tokens)%nat.
Proof.
  induction tokens as [|t tokens IH]; intros text Ht.
  - exists []. auto.
  - apply Forall_cons in Ht as [[Hb He] Ht]. cbn [Execute_loop].
    assert (Hs : exists text' calls,
              Execute_step _buffer text t = Some (text', calls) /\
              count is_LineDone calls =
                ((if is_rule ruleAction3 t then 1 else 0)
                 + (if is_rule ruleAction13 t then 1 else 0))%nat).
    { unfold Execute_step, is_rule.
      destruct (pegRule_ t); try (eexists _, _; split; reflexivity).
      rewrite slice_spec by assumption. eexists _, _; split; reflexivity. }
    destruct Hs as (text' & calls & -> & Hc).
    destruct (IH text' Ht) as (calls' & -> & Hc').
    exists (calls ++ calls'). split; [reflexivity|].
    rewrite count_app, !count_cons. lia.
Qed.

(** C6. After a parse that matched, [Execute] calls [LineDone] as many
    times as there are records of Expr and of [//] comments. A [#] comment
    makes no call of its own: the text of a [#] comment and one Expr has
    the record of that comment and one call, after the Expr; with a [//]
    comment instead there are two calls, the first for the comment. *)
Theorem C6_LineDone_calls :
  (forall st st' tokens,
     wf st -> tokenIndex st = 0 ->
     Script st = Done true st' -> nowrap st' ->
     Parse [] st = Parsed None tokens ->
     exists calls,
       Execute (buffer st) tokens = Some calls /\
       count is_LineDone calls =
         (count (is_rule ruleExpr) tokens
          + count (is_slash_comment (buffer st)) tokens)%nat) /\
  (let Buffer := runes ("# c" +:+ newline +:+ "stop vpc" +:+ newline) in
   exists tokens,
     Parse [] (Init Buffer) = Parsed None tokens /\
     count (is_hash_comment (buffer (Init Buffer))) tokens = 1%nat /\
     count (is_slash_comment (buffer (Init Buffer))) tokens = 0%nat /\
     count (is_rule ruleExpr) tokens = 1%nat /\
     Execute (buffer (Init Buffer)) tokens =
       Some [addAction (runes "stop"); addEntity (runes "vpc"); LineDone]) /\
  (let Buffer := runes ("// c" +:+ newline +:+ "stop vpc" +:+ newline) in
   exists tokens,
     Parse [] (Init Buffer) = Parsed None tokens /\
     count (is_hash_comment (buffer (Init Buffer))) tokens = 0%nat /\
     count (is_slash_comment (buffer (Init Buffer))) tokens = 1%nat /\
     count (is_rule ruleExpr) tokens = 1%nat /\
     Execute (buffer (Init Buffer)) tokens =
       Some [LineDone; addAction (runes "stop"); addEntity (runes "vpc");
             LineDone]).
Proof.
  split;
    [|split; eexists;
        (split; [vm_compute; reflexivity|]);
        (split; [vm_compute; reflexivity|]);
        (split; [vm_compute; reflexivity|]);
        (split; vm_compute; reflexivity)].
  intros st st' tokens W Ht E Hn Hp.
  destruct (Script_visible _ _ W E Hn) as (Hlt & W' & l & El & Fl).
  unfold Parse in Hp. simpl in Hp. rewrite E, (Trim_visible _ W') in Hp.
  injection Hp as <-.
  assert (Hv : visible st = []) by (unfold visible; by rewrite Ht).
  assert (Hin : Forall (fun t => begin_ t <= end_ t /\
                          end_ t <= N.of_nat (length (buffer st)))
                  (visible st')).
  { rewrite El, Hv. simpl.
    destruct W' as (_ & _ & Hp & _).
    destruct (safe_run _ _ _ _ _ safe_Script W E) as [_ [Sb _ _ _ _]].
    rewrite Sb in Hp.
    apply Forall_app. split.
    - eapply Forall_impl; [exact Fl|]. unfold inside. simpl. lia.
    - apply Forall_singleton. simpl. lia. }
  destruct (Execute_loop_count _ _ [] Hin) as (calls & Ec & Hc).
  exists calls. split; [exact Ec|]. rewrite Hc.
  pose proof (emits_Script st st' (visible st') W E Hn) as Hb.
  rewrite Hv in Hb. specialize (Hb eq_refl).
  rewrite balance_count in Hb. lia.
Qed.

Lemma C6_witness :
  let st := State (reset_buffer (runes ("// c" +:+ newline +:+ "stop vpc")))
              0 0 token0 [token0] in
  exists st' tokens calls,
    Script st = Done true st' /\ Parse [] st = Parsed None tokens /\
    Execute (buffer st) tokens = Some calls /\
    count is_LineDone calls = 2%nat.
Proof.
  intros st.
  assert (W : wf st) by (vm_compute; repeat split; auto; discriminate).
  eassert (E : Script st = Done true _) by (vm_compute; reflexivity).
  eassert (Hp : Parse [] st = Parsed None _) by (vm_compute; reflexivity).
  destruct (proj1 C6_LineDone_calls st _ _ W eq_refl E
              ltac:(vm_compute; reflexivity) Hp)
    as (calls & Ec & Hc).
  eexists _, _, calls. split; [exact E|]. split; [exact Hp|].
  split; [exact Ec|]. rewrite Hc. vm_compute. reflexivity.
Defined.

(** * Further properties of the code *)

(** ** The token store *)

(** X1. [tokens32.Add] panics exactly when the index is at least twice the
    length of the store, so always on an empty store. When it returns, the
    slot of the index holds the record, the other slots of the old store
    are kept, the slots added by doubling hold the zero record, and the
    store has kept its length or doubled it. *)
Theorem X1_tokens32_Add tree rule begin end' index :
  (tokens32_Add tree rule begin end' index = None <->
   2 * N.of_nat (length tree) <= index) /\
  (forall tree',
     tokens32_Add tree rule begin end' index = Some tree' ->
     tree' !! N.to_nat index = Some (Token32 rule begin end') /\
     (forall j, j <> N.to_nat index -> (j < length tree)%nat ->
                tree' !! j = tree !! j) /\
     (forall j, j <> N.to_nat index ->
                (length tree <= j < length tree')%nat ->
                tree' !! j = Some token0) /\
     length tree' =
       if N.of_nat (length tree) <=? index
       then (2 * length tree)%nat else length tree).
Proof.
  unfold tokens32_Add.
  destruct (N.leb_spec (N.of_nat (length tree)) index) as [Hle|Hlt].
  - rewrite length_app, length_replicate.
    destruct (N.ltb_spec index (N.of_nat (length tree + length tree)))
      as [Hi|Hi].
    + split; [split; [discriminate | intros; lia]|].
      intros tree' [= <-].
      rewrite length_insert, length_app, length_replicate.
      split; [|split; [|split]].
      * apply list_lookup_insert_eq.
        rewrite length_app, length_replicate. lia.
      * intros j Hj Hlen. rewrite list_lookup_insert_ne by lia.
        by apply lookup_app_l.
      * intros j Hj Hlen. rewrite list_lookup_insert_ne by lia.
        rewrite lookup_app_r by lia. apply lookup_replicate_2. lia.
      * lia.
    + split; [split; [intros _; lia | reflexivity] | discriminate].
  - destruct (N.ltb_spec index (N.of_nat (length tree))); [|lia].
    split; [split; [discriminate | intros; lia]|].
    intros tree' [= <-]. rewrite length_insert.
    split; [|split; [|split]]; auto.
    + apply list_lookup_insert_eq. lia.
    + intros j Hj Hlen. by rewrite list_lookup_insert_ne by lia.
    + intros j Hj Hlen. lia.
Qed.

Lemma X1_witness :
  tokens32_Add [] ruleScript 0 1 0 = None /\
  exists tree',
    tokens32_Add [token0] ruleScript 0 1 1 = Some tree' /\
    tree' !! 1%nat = Some (Token32 ruleScript 0 1) /\
    tree' !! 0%nat = Some token0 /\ length tree' = 2%nat.
Proof.
  split.
  - apply (proj1 (X1_tokens32_Add [] ruleScript 0 1 0)). vm_compute.
    discriminate.
  - eexists. split; [reflexivity|].
    destruct (proj2 (X1_tokens32_Add [token0] ruleScript 0 1 1) _ eq_refl)
      as (H1 & H2 & _ & H4).
    split; [exact H1|]. split; [|exact H4].
    apply (H2 0%nat); vm_compute; [discriminate | lia].
Defined.

(** X2. Recording then trimming: after the closure [add] from a
    well-formed state, trimming the store to the new token count gives the
    records trimmed before followed by the new record, as long as the store
    has fewer than [2^32] slots; the position is unchanged and the token
    count is one more. *)
Theorem X2_add_then_Trim rule begin st :
  wf st ->
  exists st',
    add rule begin st = Done true st' /\ wf st' /\
    position st' = position st /\
    (nowrap st' ->
     tokenIndex st' = tokenIndex st + 1 /\
     exists tokens,
       Trim (tree st) (tokenIndex st) = Some tokens /\
       Trim (tree st') (tokenIndex st') =
         Some (tokens ++ [Token32 rule begin (position st)])).
Proof.
  intros W.
  destruct (add_spec rule begin st W) as (st' & E & W' & Eb & Ep & Et & Em & Ev).
  exists st'. split; [exact E|]. split; [exact W'|]. split; [exact Ep|].
  intros Hn. split.
  - pose proof (f_equal length (Ev Hn)) as Hl.
    rewrite length_app, !length_visible in Hl by assumption. simpl in Hl. lia.
  - exists (visible st). rewrite !Trim_visible by assumption.
    by rewrite (Ev Hn).
Qed.

Lemma X2_witness :
  let st := State (reset_buffer (runes "stop")) 4 0 token0 [token0] in
  exists st',
    add ruleAction 0 st = Done true st' /\
    Trim (tree st') (tokenIndex st') = Some [Token32 ruleAction 0 4].
Proof.
  intros st.
  assert (W : wf st) by (vm_compute; repeat split; auto; discriminate).
  destruct (X2_add_then_Trim ruleAction 0 st W) as (st' & E & _ & _ & H).
  exists st'. split; [exact E|].
  vm_compute in E. injection E as <-.
  destruct H as (_ & tokens & Et & Et'); [vm_compute; reflexivity|].
  rewrite Et'. vm_compute in Et. injection Et as <-. reflexivity.
Defined.

(** ** Reset *)


(** ** Parse *)

Lemma rules_array_lookup r :
  array_index rules_array (pegRule_id r) = Some (_rules r).
Proof. by destruct r. Qed.

Lemma pegRules_lookup n r :
  pegRules !! n = Some r -> pegRule_id r = Z.of_nat n.
Proof.
  unfold pegRules.
  do 43 (destruct n as [|n]; [by intros [= <-]|]). discriminate.
Qed.

(** The numbers of the array are those of the constants. *)
Lemma array_index_rules i :
  (0 <= i < 43)%Z -> exists r, i = pegRule_id r.
Proof.
  intros Hi. destruct (lookup_lt_is_Some_2 pegRules (Z.to_nat i)) as [r Hr].
  - change (length pegRules) with 43%nat. lia.
  - exists r. rewrite (pegRules_lookup _ _ Hr). lia.
Qed.

Lemma array_index_out {A} (a : list A) i :
  (i < 0 \/ Z.of_nat (length a) <= i)%Z -> array_index a i = None.
Proof.
  intros H. unfold array_index. destruct (Z.ltb_spec i 0); [done|].
  apply lookup_ge_None. lia.
Qed.

(** X4. [Parse] takes rule numbers. From a well-formed state it panics
    exactly when the number chosen (the first argument, or 1) is not the
    number of one of the nine rules that have a function in the table:
    Script, Expr, Identifier, Spacing, WhiteSpacing, MustWhiteSpacing,
    Equal, Whitespace and EndOfLine. A number below 0 or above 42 is not an
    index of the array, and the entry of every other rule, such as
    Statement, which the generator inlined, is [nil]. For the nine numbers
    it returns [nil] or a [parseError]: no index is out of range and every
    loop ends. On the numbers of the constants of [pegRule] the closure is
    [Parse] of the other theorems. *)
Theorem X4_parse_panics rule st :
  wf st ->
  let r := match rule with r :: _ => r | [] => 1%Z end in
  let functions := [1; 6; 9; 20; 21; 22; 23; 25; 26]%Z in
  (parse rule st = ParsePanic <-> ~ In r functions) /\
  (In r functions -> exists err tokens, parse rule st = Parsed err tokens) /\
  (forall rules, parse (List.map pegRule_id rules) st = Parse rules st).
Proof.
  intros W r functions.
  assert (Hlink : forall rules,
            parse (List.map pegRule_id rules) st = Parse rules st).
  { intros [|r0 rules]; unfold parse, Parse; cbn [List.map].
    - change 1%Z with (pegRule_id ruleScript).
      by rewrite rules_array_lookup.
    - by rewrite rules_array_lookup. }
  assert (H : (~ In r functions -> parse rule st = ParsePanic) /\
              (In r functions ->
               exists err tokens, parse rule st = Parsed err tokens)).
  { unfold parse. fold r. clearbody r.
    destruct (decide (0 <= r < 43)%Z) as [Hr|Hr].
    - destruct (array_index_rules r Hr) as [rl ->].
      rewrite rules_array_lookup.
      destruct (_rules rl) as [f|] eqn:Hf.
      + assert (Hin : In (pegRule_id rl) functions)
          by (destruct rl; simpl in Hf; try discriminate Hf; simpl; lia).
        split; [intros Hn; contradiction|]. intros _.
        destruct (safe_rules _ _ Hf st W) as (b & st' & E & W' & _).
        rewrite E. destruct b; [rewrite (Trim_visible _ W')|]; eauto.
      + assert (Hin : ~ In (pegRule_id rl) functions)
          by (destruct rl; simpl in Hf; try discriminate Hf; simpl; lia).
        split; [reflexivity | intros Hn; contradiction].
    - rewrite array_index_out
        by (change (length rules_array) with 43%nat; lia).
      split; [reflexivity|]. simpl. lia. }
  destruct H as [Hpanic Hreturns].
  split; [|split; [exact Hreturns | exact Hlink]].
  split; [|exact Hpanic].
  intros Hp Hin. destruct (Hreturns Hin) as (err & tokens & E). congruence.
Qed.

Lemma X4_witness :
  let st := Init (runes "stop vpc") in
  parse [2%Z] st = ParsePanic /\ parse [43%Z] st = ParsePanic /\
  parse [(-1)%Z] st = ParsePanic /\ accepted (parse [6%Z] st) = true.
Proof.
  intros st.
  assert (W : wf st) by (apply wf_Init; vm_compute; reflexivity).
  split; [|split; [|split]].
  - apply (proj1 (X4_parse_panics [2%Z] st W)). simpl. lia.
  - apply (proj1 (X4_parse_panics [43%Z] st W)). simpl. lia.
  - apply (proj1 (X4_parse_panics [(-1)%Z] st W)). simpl. lia.
  - destruct (proj1 (proj2 (X4_parse_panics [6%Z] st W)))
      as (err & tokens & E); [simpl; lia|].
    vm_compute. reflexivity.
Defined.

Lemma seq_inv m1 m2 st st' :
  (m1 >>> m2) st = Done true st' ->
  exists st1, m1 st = Done true st1 /\ m2 st1 = Done true st'.
Proof.
  unfold seq. destruct (m1 st) as [[|] st1| |]; try discriminate. eauto.
Qed.

Lemma capture_inv rule m st st' :
  capture rule m st = Done true st' ->
  exists st1, m st = Done true st1 /\
              add rule (position st) st1 = Done true st'.
Proof.
  unfold capture. destruct (m st) as [[|] st1| |]; try discriminate. eauto.
Qed.

Lemma rule_fn_inv m st st' :
  rule_fn m st = Done true st' -> m st = Done true st'.
Proof.
  unfold rule_fn. by destruct (m st) as [[|] st1| |]; try discriminate.
Qed.

Lemma EndOfFile_at_sentinel st st' :
  EndOfFile st = Done true st' ->
  peek st' = Some endSymbol /\ position st' = position st.
Proof.
  intros E. apply capture_inv in E as (st1 & E1 & Ea).
  destruct (add_position _ _ _ _ Ea) as [Ep Eb].
  unfold neg, matchDot in E1. destruct (peek st) as [c|] eqn:Hc;
    [|discriminate].
  destruct (Z.eqb_spec c endSymbol) as [->|]; [|discriminate].
  injection E1 as <-. unfold peek in *. rewrite Ep, Eb. simpl. auto.
Qed.

(** X5. There is no partial match: when Script matches, the position it
    leaves is on a sentinel and beyond the position it started from, and
    the last record is the record of Script over the runes between the two.
    After [Init] on a text without the sentinel (every text that comes from
    a Go string) this is the whole text, which is therefore not empty. *)
Theorem X5_Script_consumes_the_text :
  (forall st st',
     wf st -> Script st = Done true st' ->
     peek st' = Some endSymbol /\ position st < position st' /\
     (nowrap st' ->
      last (visible st') =
        Some (Token32 ruleScript (position st) (position st')))) /\
  (forall Buffer st',
     N.of_nat (length Buffer) < 2 ^ 32 ->
     Forall (fun c => c <> endSymbol) Buffer ->
     Script (Init Buffer) = Done true st' ->
     position st' = N.of_nat (length Buffer) /\ Buffer <> []).
Proof.
  assert (H1 : forall st st',
     wf st -> Script st = Done true st' ->
     peek st' = Some endSymbol /\ position st < position st' /\
     (nowrap st' ->
      last (visible st') =
        Some (Token32 ruleScript (position st) (position st')))).
  { intros st st' W E. split; [|split].
    - apply rule_fn_inv, capture_inv in E as (st1 & E1 & Ea).
      apply seq_inv in E1 as (s1 & _ & E1).
      apply seq_inv in E1 as (s2 & _ & E1).
      destruct (EndOfFile_at_sentinel _ _ E1) as [Hp _].
      destruct (add_position _ _ _ _ Ea) as [Ep Eb].
      unfold peek in *. by rewrite Ep, Eb.
    - destruct (safe_Script st W) as (b & st2 & E2 & _ & _ & P).
      rewrite E in E2. injection E2 as <- <-. auto.
    - intros Hn.
      destruct (Script_visible _ _ W E Hn) as (_ & _ & l & -> & _).
      by rewrite app_assoc, last_snoc. }
  split; [exact H1|].
  intros Buffer st' Hlen Hne E.
  assert (W : wf (Init Buffer)) by (by apply wf_Init).
  destruct (H1 _ _ W E) as (Hp & Hlt & _).
  destruct (safe_run _ _ _ _ _ safe_Script W E) as [W' [Sb _ _ _ _]].
  assert (Hb : buffer (Init Buffer) = Buffer ++ [endSymbol]).
  { simpl. unfold reset_buffer. destruct (last Buffer) as [c|] eqn:El; [|done].
    rewrite last_lookup in El.
    pose proof (proj1 (Forall_lookup _ _) Hne _ _ El) as Hc.
    apply Z.eqb_neq in Hc. by rewrite Hc. }
  destruct W' as (_ & _ & Hpos & _). unfold peek in Hp.
  rewrite Sb, Hb in *. rewrite length_app in Hpos. simpl in Hpos, Hlt.
  assert (Hp' : position st' = N.of_nat (length Buffer)).
  { destruct (decide (N.to_nat (position st') < length Buffer)%nat) as [Hl|];
      [|lia].
    rewrite lookup_app_l in Hp by assumption.
    by destruct (proj1 (Forall_lookup _ _) Hne _ _ Hp). }
  split; [exact Hp'|]. intros ->. simpl in Hp'. lia.
Qed.

Lemma X5_witness :
  let st := State (reset_buffer (runes "stop vpc")) 0 0 token0 [token0] in
  exists st', Script st = Done true st' /\ position st' = 8 /\
    peek st' = Some endSymbol /\
    last (visible st') = Some (Token32 ruleScript 0 8).
Proof.
  intros st.
  assert (W : wf st) by (vm_compute; repeat split; auto; discriminate).
  eassert (E : Script st = Done true _) by (vm_compute; reflexivity).
  destruct (proj1 X5_Script_consumes_the_text st _ W E) as (Hp & _ & Hl).
  eexists. split; [exact E|]. split; [reflexivity|]. split; [exact Hp|].
  apply Hl. vm_compute. reflexivity.
Defined.

(** ** translatePositions *)

Lemma skip_equal_spec i positions :
  exists dups,
    positions = dups ++ skip_equal i positions /\
    Forall (eq i) dups /\
    match skip_equal i positions with p :: _ => p <> i | [] => True end.
Proof.
  induction positions as [|p positions IH]; simpl.
  - exists []. auto.
  - destruct (Z.eqb_spec i p) as [<-|Hne].
    + destruct IH as (dups & E & F & H). exists (i :: dups).
      split; [simpl; by f_equal|]. split; [by constructor | exact H].
    + exists []. split; [done|]. split; [constructor | congruence].
Qed.

(** What the loop at the index [i] of the buffer, with the runes [rest] to
    come, records for the offset [q]. *)
Lemma search_lookup rest :
  forall i positions line symbol translations,
    StronglySorted Z.le positions -> positions <> [] ->
    Forall (fun p => i <= p)%Z positions ->
    exists translations',
      search rest i positions line symbol translations = Some translations' /\
      forall q,
        translations' !! q =
          if decide (q ∈ positions /\ (q < i + Z.of_nat (length rest))%Z)
          then let ls := scan (take (Z.to_nat (q - i + 1)) rest) (line, symbol)
               in Some (TextPosition ls.1 ls.2)
          else translations !! q.
Proof.
  induction rest as [|c rest IH]; intros i ps line symbol tr Hs Hne Hb.
  { exists tr. split; [reflexivity|]. intros q.
    rewrite decide_False; [done|]. intros [Hq Hlt].
    pose proof (proj1 (Forall_forall _ _) Hb _ Hq). simpl in *. lia. }
  destruct ps as [|p ps]; [done|]. clear Hne.
  cbn [search]. rewrite search_step.
  destruct (scan_step (line, symbol) c) as [line' symbol'] eqn:Es.
  apply StronglySorted_inv in Hs as [Hs Hall].
  apply Forall_cons in Hb as [Hp Hb]. cbn [length].
  assert (Hshift : forall q, (i < q)%Z ->
            scan (take (Z.to_nat (q - i + 1)) (c :: rest)) (line, symbol) =
            scan (take (Z.to_nat (q - (i + 1) + 1)) rest) (line', symbol')).
  { intros q Hq.
    replace (Z.to_nat (q - i + 1)) with (S (Z.to_nat (q - (i + 1) + 1)))
      by lia.
    cbn [take]. by rewrite scan_cons, Es. }
  assert (Hhere : scan (take (Z.to_nat (i - i + 1)) (c :: rest))
                    (line, symbol) = (line', symbol')).
  { replace (Z.to_nat (i - i + 1)) with 1%nat by lia.
    cbn [take]. by rewrite scan_cons, Es. }
  destruct (Z.eqb_spec i p) as [<-|Hip].
  - destruct (skip_equal_spec i ps) as (dups & Eps & Fd & Hh).
    assert (Hin : forall q, q ∈ i :: ps <-> q = i \/ q ∈ skip_equal i ps).
    { intros q. rewrite elem_of_cons. rewrite Eps at 1.
      rewrite elem_of_app. split; [|tauto].
      intros [?|[Hd|?]]; auto. left.
      symmetry. exact (proj1 (Forall_forall _ _) Fd _ Hd). }
    destruct (skip_equal i ps) as [|p' ps''] eqn:Esk.
    + eexists. split; [reflexivity|]. intros q.
      destruct (decide (q = i)) as [->|Hq].
      * rewrite lookup_insert_eq, decide_True.
        -- cbv zeta. by rewrite Hhere.
        -- split; [apply Hin; auto | lia].
      * rewrite lookup_insert_ne by auto.
        rewrite decide_False; [done|].
        intros [[?|Hx]%Hin _]; [done|]. by apply elem_of_nil in Hx.
    + assert (Hs'' : StronglySorted Z.le (p' :: ps'')).
      { rewrite Eps in Hs. by apply StronglySorted_app_1_r in Hs. }
      assert (Hb'' : Forall (fun q => i + 1 <= q)%Z (p' :: ps'')).
      { rewrite Eps in Hb, Hall.
        apply Forall_app in Hb as [_ Hb]. apply Forall_app in Hall as [_ Hall].
        apply StronglySorted_inv in Hs'' as [_ Hall''].
        apply Forall_cons in Hb as [Hb1 Hb]. apply Forall_cons.
        split; [lia|].
        apply Forall_forall. intros x Hx.
        pose proof (proj1 (Forall_forall _ _) Hb _ Hx).
        pose proof (proj1 (Forall_forall _ _) Hall'' _ Hx). cbv beta in *; lia. }
      destruct (IH (i + 1)%Z (p' :: ps'') line' symbol'
                  (<[i := TextPosition line' symbol']> tr) Hs''
                  ltac:(done) Hb'') as (tr' & E' & Hl').
      exists tr'. split; [exact E'|]. intros q. rewrite Hl'.
      destruct (decide (q ∈ p' :: ps'' /\
                  (q < i + 1 + Z.of_nat (length rest))%Z)) as [[Hq Hlt]|Hq].
      * rewrite decide_True by (split; [apply Hin; auto | lia]). cbv zeta.
        rewrite Hshift; [done|].
        pose proof (proj1 (Forall_forall _ _) Hb'' _ Hq). cbv beta in *; lia.
      * destruct (decide (q = i)) as [->|Hqi].
        -- rewrite lookup_insert_eq, decide_True
             by (split; [apply Hin; auto | lia]).
           cbv zeta. by rewrite Hhere.
        -- rewrite lookup_insert_ne by auto.
           rewrite decide_False; [done|].
           intros [[?|?]%Hin Hlt]; [done|]. apply Hq. split; [done | lia].
  - assert (Hb' : Forall (fun q => i + 1 <= q)%Z (p :: ps)).
    { apply Forall_cons. split; [lia|].
      apply Forall_forall. intros x Hx.
      pose proof (proj1 (Forall_forall _ _) Hall _ Hx). cbv beta in *; lia. }
    destruct (IH (i + 1)%Z (p :: ps) line' symbol' tr
                (SSorted_cons p Hs Hall) ltac:(done) Hb')
      as (tr' & E' & Hl').
    exists tr'. split; [exact E'|]. intros q. rewrite Hl'.
    destruct (decide (q ∈ p :: ps /\
                (q < i + 1 + Z.of_nat (length rest))%Z)) as [[Hq Hlt]|Hq].
    + rewrite decide_True by (split; [done | lia]).
      cbv zeta. rewrite Hshift; [done|].
      pose proof (proj1 (Forall_forall _ _) Hb' _ Hq). cbv beta in *; lia.
    + rewrite decide_False; [done|].
      intros [? ?]. apply Hq. split; [done | lia].
Qed.

Lemma translatePositions_lookup buffer positions :
  positions <> [] -> Forall (fun p => 0 <= p)%Z positions ->
  exists translations,
    translatePositions buffer positions = Some translations /\
    forall q,
      translations !! q =
        if decide (q ∈ positions /\ (q < Z.of_nat (length buffer))%Z)
        then Some (scanned buffer (Z.to_nat q))
        else None.
Proof.
  intros Hne Hpos. unfold translatePositions.
  assert (Hperm : merge_sort Z.le positions ≡ₚ positions)
    by apply merge_sort_Permutation.
  destruct (search_lookup buffer 0%Z (merge_sort Z.le positions) 1%Z 0%Z ∅)
    as (tr & E & Hl).
  - apply StronglySorted_merge_sort; apply _.
  - intros E. rewrite E in Hperm. symmetry in Hperm.
    by apply Permutation_nil_r in Hperm.
  - by rewrite Hperm.
  - exists tr. split; [exact E|]. intros q. rewrite Hl.
    destruct (decide (q ∈ positions /\ (q < Z.of_nat (length buffer))%Z))
      as [[Hq Hlt]|Hq].
    + rewrite decide_True by (split; [by rewrite Hperm | lia]).
      cbv zeta. unfold scanned.
      pose proof (proj1 (Forall_forall _ _) Hpos _ Hq). cbv beta in *.
      replace (Z.to_nat (q - 0 + 1)) with (S (Z.to_nat q)) by lia. done.
    + rewrite decide_False; [done|].
      intros [Hq' Hlt]. apply Hq. split; [by rewrite <- Hperm | lia].
Qed.

(** X6. [translatePositions] on a list of offsets that is not empty and holds
    no negative number returns a map (it does not panic) whose keys are the
    offsets of the list that lie in the buffer, whatever their order and
    their repetitions; the value at an offset is the line and the symbol
    counted by the scan up to and including the rune at this offset. An
    offset past the end of the buffer gets no entry. *)
Theorem X6_translatePositions buffer positions :
  positions <> [] -> Forall (fun p => 0 <= p)%Z positions ->
  exists translations,
    translatePositions buffer positions = Some translations /\
    (forall q, q ∈ positions -> (q < Z.of_nat (length buffer))%Z ->
       translations !! q = Some (scanned buffer (Z.to_nat q))) /\
    (forall q, translations !! q <> None ->
       q ∈ positions /\ (0 <= q < Z.of_nat (length buffer))%Z).
Proof.
  intros Hne Hpos.
  destruct (translatePositions_lookup buffer positions Hne Hpos)
    as (tr & E & Hl).
  exists tr. split; [exact E|]. split.
  - intros q Hq Hlt. rewrite Hl. by rewrite decide_True.
  - intros q Hq. rewrite Hl in Hq.
    destruct (decide (q ∈ positions /\ (q < Z.of_nat (length buffer))%Z))
      as [[Hin Hlt]|]; [|done].
    pose proof (proj1 (Forall_forall _ _) Hpos _ Hin). cbv beta in *; split; [done | lia].
Qed.

Lemma X6_witness :
  exists translations,
    translatePositions (runes "a b") [2; 7; 0; 2]%Z = Some translations /\
    (forall q, q ∈ [2; 7; 0; 2]%Z ->
       (q < Z.of_nat (length (runes "a b")))%Z ->
       translations !! q = Some (scanned (runes "a b") (Z.to_nat q))) /\
    (forall q, translations !! q <> None ->
       q ∈ [2; 7; 0; 2]%Z /\ (0 <= q < Z.of_nat (length (runes "a b")))%Z).
Proof.
  apply (X6_translatePositions (runes "a b") [2; 7; 0; 2]%Z).
  - discriminate.
  - repeat constructor; lia.
Defined.

(** X7. The edges of [translatePositions]: on an empty buffer the loop body
    never runs and the map is empty, whatever the offsets; with no offset
    and a buffer that is not empty the first iteration indexes the empty
    slice and panics; a negative offset, which sorts first and is never
    met by the index, hides every other offset, so the map is empty. *)
Theorem X7_translatePositions_edges :
  (forall positions, translatePositions [] positions = Some ∅) /\
  (forall c buffer, translatePositions (c :: buffer) [] = None) /\
  (forall buffer positions p,
     p ∈ positions -> (p < 0)%Z ->
     translatePositions buffer positions = Some ∅).
Proof.
  split; [reflexivity|]. split.
  { intros c buffer. unfold translatePositions.
    change (merge_sort Z.le []) with (@nil Z).
    cbn [search]. rewrite search_step. by destruct (scan_step _ c). }
  intros buffer positions p Hp Hneg. unfold translatePositions.
  assert (Hperm : merge_sort Z.le positions ≡ₚ positions)
    by apply merge_sort_Permutation.
  assert (Hs : StronglySorted Z.le (merge_sort Z.le positions))
    by (apply StronglySorted_merge_sort; apply _).
  rewrite <- Hperm in Hp.
  destruct (merge_sort Z.le positions) as [|p0 ps]; [by apply elem_of_nil in Hp|].
  assert (Hp0 : (p0 < 0)%Z).
  { apply StronglySorted_inv in Hs as [_ Hall].
    apply elem_of_cons in Hp as [<-|Hp]; [done|].
    pose proof (proj1 (Forall_forall _ _) Hall _ Hp). cbv beta in *; lia. }
  clear Hp Hs Hperm.
  assert (H : forall i line symbol, (0 <= i)%Z ->
            search buffer i (p0 :: ps) line symbol ∅ = Some ∅).
  { induction buffer as [|c buffer IH]; intros i line symbol Hi;
      [reflexivity|].
    cbn [search]. rewrite search_step.
    destruct (scan_step (line, symbol) c) as [line' symbol'].
    destruct (Z.eqb_spec i p0); [lia|]. apply IH. lia. }
  apply H. lia.
Qed.

Lemma X7_witness :
  translatePositions (runes "ab") [1; -1]%Z = Some ∅.
Proof.
  apply (proj2 (proj2 X7_translatePositions_edges) (runes "ab") [1; -1]%Z
           (-1)%Z).
  - rewrite !elem_of_cons. auto.
  - lia.
Defined.

(** ** The span of the slot [max] *)

Lemma max_inside_unchanged m :
  (forall st b st', m st = Done b st' -> max st' = max st) -> max_inside m.
Proof. intros H st b st' _ E. left. eauto. Qed.

Lemma max_inside_char c : max_inside (matchChar c).
Proof.
  apply max_inside_unchanged. intros st b st' E. unfold matchChar in E.
  destruct (peek st); [|discriminate].
  destruct (Z.eqb _ _); by injection E as <- <-.
Qed.

Lemma max_inside_range lower upper : max_inside (matchRange lower upper).
Proof.
  apply max_inside_unchanged. intros st b st' E. unfold matchRange in E.
  destruct (peek st); [|discriminate].
  destruct (_ || _); by injection E as <- <-.
Qed.

Lemma max_inside_dot : max_inside matchDot.
Proof.
  apply max_inside_unchanged. intros st b st' E. unfold matchDot in E.
  destruct (peek st); [|discriminate].
  destruct (Z.eqb _ _); by injection E as <- <-.
Qed.

Lemma max_inside_ok : max_inside ok.
Proof. apply max_inside_unchanged. intros st b st' E. by injection E as <- <-. Qed.

(** Two runs in a row. *)
Lemma max_inside_trans st st1 st2 :
  step st st1 ->
  (max st1 = max st \/
   (position st <= begin_ (max st1) /\ begin_ (max st1) < end_ (max st1) /\
    end_ (max st1) < N.of_nat (length (buffer st)))) ->
  (max st2 = max st1 \/
   (position st1 <= begin_ (max st2) /\ begin_ (max st2) < end_ (max st2) /\
    end_ (max st2) < N.of_nat (length (buffer st1)))) ->
  max st2 = max st \/
  (position st <= begin_ (max st2) /\ begin_ (max st2) < end_ (max st2) /\
   end_ (max st2) < N.of_nat (length (buffer st))).
Proof.
  intros [Eb Hp _ _ _] H1 [E2|H2].
  - by rewrite E2.
  - right. rewrite Eb in H2. lia.
Qed.

Lemma max_inside_seq p1 m1 m2 :
  safe p1 m1 -> max_inside m1 -> max_inside m2 -> max_inside (m1 >>> m2).
Proof.
  intros S1 H1 H2 st b st' W E. unfold seq in E.
  destruct (m1 st) as [[|] st1| |] eqn:E1; try discriminate.
  - destruct (safe_run _ _ _ _ _ S1 W E1) as [W1 St1].
    eapply max_inside_trans; eauto.
  - injection E as <- <-. eauto.
Qed.

Lemma max_inside_alt p1 m1 m2 :
  safe p1 m1 -> max_inside m1 -> max_inside m2 -> max_inside (alt m1 m2).
Proof.
  intros S1 H1 H2 st b st' W E. unfold alt in E.
  destruct (m1 st) as [[|] st1| |] eqn:E1; try discriminate.
  - injection E as <- <-. eauto.
  - destruct (safe_run _ _ _ _ _ S1 W E1) as [W1 St1].
    destruct (restore_step _ _ W W1 St1) as (Wr & Sr & _).
    eapply (max_inside_trans st (restore (position st) (tokenIndex st) st1));
      eauto.
    exact (H1 _ _ _ W E1).
Qed.

Lemma max_inside_neg p m : safe p m -> max_inside m -> max_inside (neg m).
Proof.
  intros S H st b st' W E. unfold neg in E.
  destruct (m st) as [[|] st1| |] eqn:E1; try discriminate;
    injection E as <- <-; exact (H _ _ _ W E1).
Qed.

Lemma max_inside_rule_fn m : max_inside m -> max_inside (rule_fn m).
Proof.
  intros H st b st' W E. unfold rule_fn in E.
  destruct (m st) as [[|] st1| |] eqn:E1; try discriminate;
    injection E as <- <-; exact (H _ _ _ W E1).
Qed.

Lemma max_inside_capture p rule m :
  safe p m -> max_inside m -> max_inside (capture rule m).
Proof.
  intros S H st b st' W E. unfold capture in E.
  destruct (m st) as [[|] st1| |] eqn:E1; try discriminate.
  - destruct (safe_run _ _ _ _ _ S W E1) as [W1 St1].
    destruct (add_spec rule (position st) st1 W1)
      as (st2 & Ea & Wa & Eb & Ep & Et & Em & Ev).
    rewrite E in Ea. injection Ea as -> ->.
    destruct (negb (position st =? position st1) &&
              (end_ (max st1) <? position st1)) eqn:Ec.
    + right. rewrite Em. simpl.
      apply andb_prop in Ec as [Hne _].
      apply negb_true_iff, N.eqb_neq in Hne.
      pose proof (step_position _ _ St1).
      destruct W1 as (_ & _ & Hp1 & _). rewrite (step_buffer _ _ St1) in Hp1.
      lia.
    + rewrite Em. exact (H _ _ _ W E1).
  - injection E as <- <-. exact (H _ _ _ W E1).
Qed.

Lemma max_inside_action rule : max_inside (action rule).
Proof. exact (max_inside_capture false rule ok safe_ok max_inside_ok). Qed.

Lemma star_loop_max_inside p m :
  safe p m -> max_inside m ->
  forall fuel st b st',
    wf st -> star_loop fuel m st = Done b st' ->
    max st' = max st \/
    (position st <= begin_ (max st') /\ begin_ (max st') < end_ (max st') /\
     end_ (max st') < N.of_nat (length (buffer st))).
Proof.
  intros S H. induction fuel as [|fuel IH]; intros st b st' W E; simpl in E;
    [discriminate|].
  destruct (m st) as [[|] st1| |] eqn:E1; try discriminate.
  - destruct (safe_run _ _ _ _ _ S W E1) as [W1 St1].
    eapply max_inside_trans; eauto.
  - injection E as <- <-. exact (H _ _ _ W E1).
Qed.

Lemma max_inside_star p m : safe p m -> max_inside m -> max_inside (star m).
Proof.
  intros S H st b st' W E. unfold star in E.
  eapply star_loop_max_inside; eauto.
Qed.

Lemma max_inside_plus p m :
  safe p m -> max_inside m -> max_inside (plus m).
Proof.
  intros S H. unfold plus. eauto using max_inside_seq, max_inside_star.
Qed.

Lemma max_inside_opt p m : safe p m -> max_inside m -> max_inside (opt m).
Proof.
  intros S H. unfold opt. eauto using max_inside_alt, max_inside_ok.
Qed.

Lemma max_inside_switch_nil default :
  max_inside default -> max_inside (switch [] default).
Proof.
  intros H st b st' W E. unfold switch in E.
  destruct (peek st); [|discriminate]. simpl in E. eauto.
Qed.

Lemma max_inside_switch_cons cs m cases default :
  max_inside m -> max_inside (switch cases default) ->
  max_inside (switch ((cs, m) :: cases) default).
Proof.
  intros H1 H2 st b st' W E. unfold switch in *.
  specialize (H2 st b st' W). cbv beta in H2.
  destruct (peek st) as [c|]; [|discriminate]. simpl in E.
  destruct (existsb (Z.eqb c) cs); [exact (H1 _ _ _ W E) | exact (H2 E)].
Qed.

Lemma max_inside_chars cs : max_inside (chars cs).
Proof.
  apply max_inside_unchanged. induction cs as [|c cs IH]; intros st b st' E.
  - by injection E as <- <-.
  - simpl in E. unfold seq, matchChar in E.
    destruct (peek st); [|discriminate].
    destruct (Z.eqb _ _).
    + by rewrite (IH _ _ _ E).
    + by injection E as <- <-.
Qed.

Lemma max_inside_lit s : max_inside (lit s).
Proof. apply max_inside_chars. Qed.

#[local] Hint Resolve max_inside_char max_inside_range max_inside_dot
  max_inside_lit max_inside_seq max_inside_alt max_inside_neg
  max_inside_rule_fn max_inside_capture max_inside_action max_inside_star
  max_inside_plus max_inside_opt max_inside_switch_nil
  max_inside_switch_cons : peg.

Ltac peg_max := eauto 5000 with peg.

Lemma max_inside_Whitespace : max_inside Whitespace.
Proof. unfold Whitespace. peg_max. Qed.
#[local] Hint Resolve max_inside_Whitespace : peg.

Lemma max_inside_EndOfLine : max_inside EndOfLine.
Proof. unfold EndOfLine. peg_max. Qed.
#[local] Hint Resolve max_inside_EndOfLine : peg.

Lemma max_inside_Space : max_inside Space.
Proof. unfold Space. peg_max. Qed.
#[local] Hint Resolve max_inside_Space : peg.

Lemma max_inside_Spacing : max_inside Spacing.
Proof. unfold Spacing. peg_max. Qed.
#[local] Hint Resolve max_inside_Spacing : peg.

Lemma max_inside_WhiteSpacing : max_inside WhiteSpacing.
Proof. unfold WhiteSpacing. peg_max. Qed.
#[local] Hint Resolve max_inside_WhiteSpacing : peg.

Lemma max_inside_MustWhiteSpacing : max_inside MustWhiteSpacing.
Proof. unfold MustWhiteSpacing. peg_max. Qed.
#[local] Hint Resolve max_inside_MustWhiteSpacing : peg.

Lemma max_inside_Equal : max_inside Equal.
Proof. unfold Equal. peg_max. Qed.
#[local] Hint Resolve max_inside_Equal : peg.

Lemma max_inside_Identifier : max_inside Identifier.
Proof. unfold Identifier, identifierChar. peg_max. Qed.
#[local] Hint Resolve max_inside_Identifier : peg.

Lemma max_inside_Action : max_inside Action.
Proof. unfold Action. peg_max. Qed.
#[local] Hint Resolve max_inside_Action : peg.

Lemma max_inside_Entity : max_inside Entity.
Proof. unfold Entity. peg_max. Qed.
#[local] Hint Resolve max_inside_Entity : peg.

Lemma max_inside_Value : max_inside Value.
Proof.
  unfold Value, valueCidr, valueIp, valueIntRange, valueInt,
    valueByLeadingRune, CidrValue, IpValue, IntRangeValue, IntValue,
    RefValue, AliasValue, HoleValue, StringValue, stringValueChar, digit.
  peg_max.
Qed.
#[local] Hint Resolve max_inside_Value : peg.

Lemma max_inside_Expr : max_inside Expr.
Proof. unfold Expr, Params, Param. peg_max. Qed.
#[local] Hint Resolve max_inside_Expr : peg.

Lemma max_inside_Statement : max_inside Statement.
Proof.
  unfold Statement, Declaration, Comment, hashComment, slashComment,
    restOfLine.
  peg_max.
Qed.
#[local] Hint Resolve max_inside_Statement : peg.

Lemma max_inside_Script : max_inside Script.
Proof. unfold Script, EndOfFile. peg_max. Qed.

Lemma max_inside_rules r f : _rules r = Some f -> max_inside f.
Proof.
  destruct r; simpl; intros [= <-];
    eauto using max_inside_Script, max_inside_Expr, max_inside_Identifier,
      max_inside_Spacing, max_inside_WhiteSpacing,
      max_inside_MustWhiteSpacing, max_inside_Equal, max_inside_Whitespace,
      max_inside_EndOfLine.
Qed.

(** X8. The span named by a parse error. When [Parse] fails from a
    well-formed state, the token of the error is the one the slot [max]
    held before, or a span that is not empty, begins at or after the
    position of the call and ends inside the buffer. So when the slot held
    a span of the buffer before (as after [Init] and [Reset], which clear
    it), no index is out of range in [Error]: it returns its report. *)
Theorem X8_parse_error_span Sprintf Quote Pretty rule st err tokens :
  wf st ->
  Parse rule st = Parsed (Some err) tokens ->
  (err = max st \/
   (position st <= begin_ err /\ begin_ err < end_ err /\
    end_ err < N.of_nat (length (buffer st)))) /\
  (begin_ (max st) <= end_ (max st) ->
   end_ (max st) < N.of_nat (length (buffer st)) ->
   exists report,
     Error Sprintf Quote (buffer st) Pretty err = Some report).
Proof.
  intros W Hp. unfold Parse in Hp.
  destruct (_rules _) as [f|] eqn:Er; [|discriminate].
  destruct (f st) as [[|] st'| |] eqn:E; try discriminate.
  { destruct (Trim _ _); discriminate. }
  injection Hp as <- <-.
  pose proof (max_inside_rules _ _ Er st false st' W E) as Hm.
  split; [exact Hm|]. intros Hle Hlt.
  assert (Hb : begin_ (max st') <= end_ (max st') /\
               end_ (max st') < N.of_nat (length (buffer st))).
  { destruct Hm as [->|?]; lia. }
  unfold Error.
  destruct (translatePositions_lookup (buffer st)
              [Z.of_N (begin_ (max st')); Z.of_N (end_ (max st'))])
    as (translations & -> & _).
  - discriminate.
  - repeat constructor; lia.
  - rewrite slice_spec by lia. eauto.
Qed.

Lemma X8_witness :
  let st := State (reset_buffer (runes "stop 1")) 0 0 token0 [token0] in
  let Sprintf := fun (f : string) (args : list arg) =>
    match args with ArgString r :: _ => r | _ => f end in
  let Quote := fun _ : list rune => EmptyString in
  exists err tokens report,
    Parse [] st = Parsed (Some err) tokens /\
    begin_ err < end_ err /\
    Error Sprintf Quote (buffer st) false err = Some report.
Proof.
  intros st Sprintf Quote.
  assert (W : wf st) by (vm_compute; repeat split; auto; discriminate).
  eassert (Hp : Parse [] st = Parsed (Some _) _) by (vm_compute; reflexivity).
  destruct (X8_parse_error_span Sprintf Quote false [] st _ _ W Hp)
    as [Hm He].
  destruct He as (report & Hr); [vm_compute; discriminate
                                | vm_compute; reflexivity|].
  eexists _, _, report. split; [exact Hp|]. split; [|exact Hr].
  vm_compute. reflexivity.
Defined.

(** ** Printing the tree *)

Lemma node32_nested_ind (P : node32 -> Prop) :
  (forall token up, Forall P up -> P (Node32 token up)) ->
  forall node, P node.
Proof.
  intros H. fix IH 1. intros [token up]. apply H.
  induction up as [|n up IHup]; constructor; [apply IH | exact IHup].
Qed.

(** The lines of a tree whose spans are slices of the text: the line of
    the root first, then deeper lines, one for each record below the
    root. *)
Lemma print_spec pretty Buffer node :
  forall depth,
    Forall (fun t => begin_ t <= end_ t /\
                     end_ t <= N.of_nat (length Buffer)) (postorder node) ->
    exists below,
      print pretty Buffer depth node =
        Some (Printed pretty depth (rul3s (pegRule_ (node_token node)))
                (token_entry Buffer (node_token node)).2 :: below) /\
      Forall (fun l => (depth < printed_depth l)%nat) below /\
      List.map printed_entry below ≡ₚ
        List.map (token_entry Buffer)
          (concat (List.map postorder (node_up node))).
Proof.
  induction node as [token up IH] using node32_nested_ind.
  intros depth Hin. cbn [postorder] in Hin.
  apply Forall_app in Hin as [Hup Ht].
  apply Forall_cons in Ht as [[Hle Hlen] _].
  cbn [print node_token node_up]. rewrite slice_spec by assumption.
  assert (Hch :
    exists below,
      print_all (List.map (print pretty Buffer (S depth)) up) = Some below /\
      Forall (fun l => (depth < printed_depth l)%nat) below /\
      List.map printed_entry below ≡ₚ
        List.map (token_entry Buffer) (concat (List.map postorder up))).
  { clear Hle Hlen. induction up as [|n up IHup].
    - exists []. simpl. auto.
    - apply Forall_cons in IH as [IHn IH]. cbn [List.map concat] in Hup.
      apply Forall_app in Hup as [Hn Hup].
      destruct (IHn (S depth) Hn) as (bn & En & Fn & Pn).
      destruct (IHup IH Hup) as (bs & Es & Fs & Ps).
      cbn [List.map print_all fold_right]. fold (print_all
        (List.map (print pretty Buffer (S depth)) up)).
      rewrite En, Es. eexists. split; [reflexivity|]. split.
      + constructor; [simpl; lia|]. apply Forall_app. split; [|exact Fs].
        eapply Forall_impl; [exact Fn|]. simpl. intros. lia.
      + cbn [concat]. destruct n as [tn upn].
        cbn [postorder node_token node_up] in *.
        rewrite <- app_comm_cons, !List.map_app. cbn [List.map].
        rewrite List.map_app, <- Ps, <- Pn.
        rewrite (Permutation_app_comm (List.map printed_entry bn) [_]).
        reflexivity. }
  destruct Hch as (below & -> & Fb & Pb).
  exists below. split; [reflexivity|]. split; [exact Fb | exact Pb].
Qed.

(** X9. [PrintSyntaxTree] after a parse that matched. From a state without
    records whose buffer is the reset of the text [Buffer], no slice is out
    of range although the records index the buffer with its sentinel and
    the lines quote the text without it. The first line, with no
    indentation, shows Script and the span of the match; every other line
    is indented; and the lines show the rule and the text of the records
    that are not empty, one line for each. *)
Theorem X9_PrintSyntaxTree Buffer Pretty st st' tokens :
  wf st -> buffer st = reset_buffer Buffer -> tokenIndex st = 0 ->
  Script st = Done true st' -> nowrap st' ->
  Parse [] st = Parsed None tokens ->
  exists below,
    PrintSyntaxTree Buffer Pretty tokens =
      Some (Printed Pretty 0 (rul3s ruleScript)
              (take (N.to_nat (position st') - N.to_nat (position st))
                 (drop (N.to_nat (position st)) Buffer)) :: below) /\
    Forall (fun l => (0 < printed_depth l)%nat) below /\
    match PrintSyntaxTree Buffer Pretty tokens with
    | Some lines =>
        List.map printed_entry lines ≡ₚ
          List.map (token_entry Buffer) (List.filter nonempty tokens)
    | None => False
    end.
Proof.
  intros W Hb Ht E Hn Hp.
  destruct (Script_visible _ _ W E Hn) as (Hlt & W' & l & El & Fl).
  unfold Parse in Hp. simpl in Hp. rewrite E, (Trim_visible _ W') in Hp.
  injection Hp as <-.
  assert (Hv : visible st = []) by (unfold visible; by rewrite Ht).
  rewrite Hv in El. simpl in El.
  set (root := Token32 ruleScript (position st) (position st')) in *.
  assert (Hs : AST_stack (visible st') = [Node32 root (rev (AST_stack l))]).
  { rewrite El. apply AST_stack_root; simpl; [|lia].
    eapply Forall_impl; [exact Fl|]. unfold inside. simpl. lia. }
  assert (Hpost : postorder (Node32 root (rev (AST_stack l))) =
                  List.filter nonempty (visible st')).
  { pose proof (fold_AST_step_forest (visible st') []) as Hf.
    fold (AST_stack (visible st')) in Hf. rewrite Hs in Hf.
    unfold forest in Hf. simpl in Hf. by rewrite app_nil_r in Hf. }
  assert (Hlen : position st' <= N.of_nat (length Buffer)).
  { destruct W' as (_ & _ & Hpos & _).
    assert (Eb : buffer st' = buffer st).
    { destruct (safe_run _ _ _ _ _ safe_Script W E) as [_ [Eb _ _ _ _]].
      exact Eb. }
    rewrite Eb, Hb in Hpos.
    destruct (reset_buffer_spec Buffer) as (_ & Hl & _). lia. }
  destruct (print_spec Pretty Buffer (Node32 root (rev (AST_stack l))) 0%nat)
    as (below & Ep & Fb & Pb).
  { rewrite Hpost. apply List.Forall_forall.
    intros x [Hx _]%List.filter_In. revert x Hx. apply List.Forall_forall.
    rewrite El. apply Forall_app. split.
    - eapply Forall_impl; [exact Fl|]. unfold inside. simpl. lia.
    - constructor; [|constructor]. simpl. lia. }
  unfold PrintSyntaxTree, AST. rewrite Hs. rewrite Ep.
  exists below. split; [reflexivity|]. split; [exact Fb|].
  rewrite <- Hpost. cbn [postorder List.map node_up node_token] in *.
  rewrite List.map_app. cbn [List.map]. rewrite <- Pb.
  change (token_entry Buffer root) with
    (printed_entry (Printed Pretty 0 (rul3s (pegRule_ root))
                      (token_entry Buffer root).2)).
  apply (Permutation_app_comm [_]).
Qed.

Lemma X9_witness :
  let Buffer := runes "stop vpc" in
  let st := State (reset_buffer Buffer) 0 0 token0 [token0] in
  exists tokens below,
    Parse [] st = Parsed None tokens /\
    PrintSyntaxTree Buffer false tokens =
      Some (Printed false 0 "Script" Buffer :: below).
Proof.
  intros Buffer st.
  assert (W : wf st) by (vm_compute; repeat split; auto; discriminate).
  eassert (E : Script st = Done true _) by (vm_compute; reflexivity).
  eassert (Hp : Parse [] st = Parsed None _) by (vm_compute; reflexivity).
  destruct (X9_PrintSyntaxTree Buffer false st _ _ W eq_refl eq_refl E
              ltac:(vm_compute; reflexivity) Hp) as (below & Hr & _).
  eexists _, below. split; [exact Hp | exact Hr].
Defined.

(** ** Keywords *)

Lemma ahead_peek st x : peek st = Some x ->
  ahead st = x :: drop (S (N.to_nat (position st))) (buffer st).
Proof. intros H. unfold ahead. by apply drop_S. Qed.

Lemma skip_0 st : skip 0 st = st.
Proof. destruct st. unfold skip. simpl. by rewrite N.add_0_r. Qed.

(** A run of literal characters consumes the runes that match, and matches
    when all do. *)
Lemma chars_run cs :
  forallb (fun c => negb (Z.eqb c endSymbol)) cs = true ->
  forall st, wf st ->
    chars cs st =
      Done (has_prefix cs (ahead st))
        (skip (N.of_nat (matched cs (ahead st))) st).
Proof.
  induction cs as [|c cs IH]; intros Hcs st W.
  - simpl. unfold ok. by rewrite skip_0.
  - simpl in Hcs. apply andb_prop in Hcs as [Hc Hcs].
    apply negb_true_iff, Z.eqb_neq in Hc.
    destruct (wf_peek _ W) as [x Hx].
    rewrite (ahead_peek _ _ Hx). cbn [chars has_prefix matched].
    unfold seq. rewrite (matchChar_peek _ _ _ Hx).
    destruct (Z.eqb_spec x c) as [->|Hne]; cbn [andb].
    + destruct (advance_step _ _ W Hx Hc) as (Wa & _ & Ea).
      rewrite (IH Hcs _ Wa). unfold ahead at 1 2. rewrite Ea.
      replace (N.to_nat (position st + 1)) with (S (N.to_nat (position st)))
        by lia.
      f_equal. unfold skip. rewrite Ea. cbn [advance buffer tokenIndex max tree].
      f_equal. lia.
    + by rewrite skip_0.
Qed.

Lemma has_prefix_matched cs rest :
  has_prefix cs rest = true -> matched cs rest = length cs.
Proof.
  revert rest. induction cs as [|c cs IH]; intros [|x rest]; simpl; auto;
    try discriminate.
  intros [-> H]%andb_prop. by rewrite (IH _ H).
Qed.

(** A literal as the first alternative of an ordered choice. *)
Lemma alt_chars cs m st :
  forallb (fun c => negb (Z.eqb c endSymbol)) cs = true -> wf st ->
  alt (chars cs) m st =
    if has_prefix cs (ahead st)
    then Done true (skip (N.of_nat (length cs)) st)
    else m st.
Proof.
  intros Hcs W. unfold alt. rewrite (chars_run cs Hcs st W).
  destruct (has_prefix cs (ahead st)) eqn:E.
  - by rewrite (has_prefix_matched _ _ E).
  - f_equal. by destruct st.
Qed.

(** A literal after the alternatives. *)
Lemma last_chars cs st :
  forallb (fun c => negb (Z.eqb c endSymbol)) cs = true -> wf st ->
  exists st1,
    chars cs st =
      if has_prefix cs (ahead st)
      then Done true (skip (N.of_nat (length cs)) st)
      else Done false st1.
Proof.
  intros Hcs W. rewrite (chars_run cs Hcs st W).
  destruct (has_prefix cs (ahead st)) eqn:E; [|eauto].
  rewrite (has_prefix_matched _ _ E). eauto.
Qed.

(** The rule of a choice of keywords: it matches the first keyword of the
    list that the text begins with, and records its span. *)
Lemma keyword_rule rule body keywords :
  safe true body ->
  (forall st, wf st ->
     match first_keyword keywords (ahead st) with
     | Some keyword =>
         body st = Done true (skip (N.of_nat (length (runes keyword))) st)
     | None => exists st1, body st = Done false st1
     end) ->
  forall st, wf st ->
    match first_keyword keywords (ahead st) with
    | Some keyword =>
        exists st',
          capture rule body st = Done true st' /\
          position st' = position st + N.of_nat (length (runes keyword)) /\
          (nowrap st' ->
           last (visible st') =
             Some (Token32 rule (position st) (position st')))
    | None => exists st', capture rule body st = Done false st'
    end.
Proof.
  intros S H st W. specialize (H st W). unfold capture.
  destruct (first_keyword keywords (ahead st)) as [keyword|].
  - rewrite H. destruct (safe_run _ _ _ _ _ S W H) as [W1 _].
    destruct (add_spec rule (position st) _ W1)
      as (st' & Ea & _ & _ & Ep & _ & _ & Ev).
    exists st'. split; [exact Ea|]. split; [exact Ep|].
    intros Hn. rewrite (Ev Hn), last_snoc. by rewrite Ep.
  - destruct H as [st1 ->]. eauto.
Qed.

Lemma has_prefix_cons c cs x rest :
  has_prefix (c :: cs) (x :: rest) = Z.eqb x c && has_prefix cs rest.
Proof. reflexivity. Qed.

(** Case analysis on the first rune of the text and on the rest of each
    keyword. *)
Ltac keyword_body st W :=
  unfold lit;
  rewrite !alt_chars by (try reflexivity; exact W);
  unfold switch;
  let x := fresh "x" in
  let Hx := fresh "Hx" in
  let Ha := fresh "Ha" in
  destruct (wf_peek _ W) as [x Hx]; rewrite Hx; cbn [select existsb];
  pose proof (ahead_peek _ _ Hx) as Ha;
  revert Ha;
  generalize (drop (S (N.to_nat (position st))) (buffer st));
  intros r Ha;
  unfold first_keyword; cbn [actions entities List.find];
  cbn [runes String.list_ascii_of_string List.map];
  repeat match goal with
         | |- context [rn ?a] =>
             let v := eval vm_compute in (rn a) in change (rn a) with v
         end;
  repeat match goal with
         | |- context [Z.eqb x ?c] =>
             destruct (Z.eqb_spec x c);
             [subst x; cbn [Z.eqb Pos.eqb andb orb]|]
         end;
  cbn [andb orb];
  repeat match goal with
         | |- context [chars ?cs st] =>
             let failed := fresh "failed" in
             destruct (last_chars cs st eq_refl W) as [failed ->]
         end;
  rewrite !Ha, !has_prefix_cons;
  repeat match goal with
         | |- context [Z.eqb ?a ?c] =>
             destruct (Z.eqb_spec a c); [try lia | try congruence]
         end;
  cbn [andb orb];
  repeat match goal with
         | |- context [has_prefix ?cs r] => destruct (has_prefix cs r)
         end;
  cbn [andb orb]; eauto.

(** X10. The rule Action matches exactly when the text at the position
    begins with one of the eight keywords create, delete, start, detach,
    check, attach, update and stop; it then consumes this keyword and
    records its span. Otherwise it fails. *)
Theorem X10_Action_keywords :
  forall st, wf st ->
    match first_keyword actions (ahead st) with
    | Some keyword =>
        exists st',
          Action st = Done true st' /\
          position st' = position st + N.of_nat (length (runes keyword)) /\
          (nowrap st' ->
           last (visible st') =
             Some (Token32 ruleAction (position st) (position st')))
    | None => exists st', Action st = Done false st'
    end.
Proof.
  unfold Action. apply keyword_rule; [peg_safe|].
  intros st W. keyword_body st W.
Qed.

Lemma X10_witness :
  let st := State (reset_buffer (runes "stop vpc")) 0 0 token0 [token0] in
  exists st', Action st = Done true st' /\ position st' = 4.
Proof.
  intros st.
  assert (W : wf st) by (vm_compute; repeat split; auto; discriminate).
  pose proof (X10_Action_keywords st W) as H.
  assert (E : first_keyword actions (ahead st) = Some "stop"%string)
    by (vm_compute; reflexivity).
  rewrite E in H. destruct H as (st' & Ea & Ep & _).
  exists st'. split; [exact Ea|]. rewrite Ep. vm_compute. reflexivity.
Defined.

(** X11. The rule Entity matches exactly when the text at the position
    begins with one of its nineteen names, and consumes the first of them
    in the order of the generated code. The only name that is the
    beginning of another is route: routetable is tried before it, so a
    text that begins with routetable is consumed up to its end. *)
Theorem X11_Entity_keywords :
  forall st, wf st ->
    match first_keyword entities (ahead st) with
    | Some keyword =>
        exists st',
          Entity st = Done true st' /\
          position st' = position st + N.of_nat (length (runes keyword)) /\
          (nowrap st' ->
           last (visible st') =
             Some (Token32 ruleEntity (position st) (position st')))
    | None => exists st', Entity st = Done false st'
    end.
Proof.
  unfold Entity. apply keyword_rule; [peg_safe|].
  intros st W. keyword_body st W.
Qed.

Lemma X11_witness :
  let st := State (reset_buffer (runes "routetable")) 0 0 token0 [token0] in
  exists st', Entity st = Done true st' /\ position st' = 10.
Proof.
  intros st.
  assert (W : wf st) by (vm_compute; repeat split; auto; discriminate).
  pose proof (X11_Entity_keywords st W) as H.
  assert (E : first_keyword entities (ahead st) = Some "routetable"%string)
    by (vm_compute; reflexivity).
  rewrite E in H. destruct H as (st' & Ea & Ep & _).
  exists st'. split; [exact Ea|]. rewrite Ep. vm_compute. reflexivity.
Defined.

(** ** Runs of runes *)

Lemma consumes_ok P : consumes P ok.
Proof. intros st st' _ [= <-] i Hi. lia. Qed.

Lemma consumes_char P c :
  P c = true -> Z.eqb c endSymbol = false -> consumes P (matchChar c).
Proof.
  intros HP Hc st st' W E i Hi. apply Z.eqb_neq in Hc.
  destruct (wf_peek _ W) as [x Hx].
  rewrite (matchChar_peek _ _ _ Hx) in E.
  destruct (Z.eqb_spec x c) as [Heq|Hne]; [|discriminate].
  subst x. injection E as <-.
  destruct (advance_step _ _ W Hx Hc) as (_ & _ & Ea). rewrite Ea in Hi.
  exists c. split; [|exact HP].
  replace i with (position st) by lia. exact Hx.
Qed.

Lemma consumes_seq P p1 p2 m1 m2 :
  safe p1 m1 -> safe p2 m2 -> consumes P m1 -> consumes P m2 ->
  consumes P (m1 >>> m2).
Proof.
  intros S1 S2 H1 H2 st st' W E i Hi. unfold seq in E.
  destruct (m1 st) as [[|] st1| |] eqn:E1; try discriminate.
  destruct (safe_run _ _ _ _ _ S1 W E1) as [W1 St1].
  destruct (N.lt_ge_cases i (position st1)) as [Hlt|Hge].
  - apply (H1 _ _ W E1). lia.
  - rewrite <- (step_buffer _ _ St1). apply (H2 _ _ W1 E). lia.
Qed.

Lemma consumes_alt P p1 m1 m2 :
  safe p1 m1 -> consumes P m1 -> consumes P m2 -> consumes P (alt m1 m2).
Proof.
  intros S1 H1 H2 st st' W E i Hi. unfold alt in E.
  destruct (m1 st) as [[|] st1| |] eqn:E1; try discriminate.
  - injection E as <-. exact (H1 _ _ W E1 i Hi).
  - destruct (safe_run _ _ _ _ _ S1 W E1) as [W1 St1].
    destruct (restore_step _ _ W W1 St1) as (Wr & Sr & _).
    rewrite <- (step_buffer _ _ Sr). exact (H2 _ _ Wr E i Hi).
Qed.

Lemma consumes_rule_fn P m : consumes P m -> consumes P (rule_fn m).
Proof.
  intros H st st' W E. unfold rule_fn in E.
  destruct (m st) as [[|] st1| |] eqn:E1; try discriminate.
  injection E as <-. exact (H _ _ W E1).
Qed.

Lemma consumes_capture P rule m : consumes P m -> consumes P (capture rule m).
Proof.
  intros H st st' W E i Hi. unfold capture in E.
  destruct (m st) as [[|] st1| |] eqn:E1; try discriminate.
  destruct (add_position _ _ _ _ E) as [Ep _]. rewrite Ep in Hi.
  exact (H _ _ W E1 i Hi).
Qed.

Lemma consumes_action P rule : consumes P (action rule).
Proof. exact (consumes_capture P rule ok (consumes_ok P)). Qed.

(** What a run begins with. *)
Lemma run_of_skip P rest k :
  (forall i, (i < k)%nat -> exists c, rest !! i = Some c /\ P c = true) ->
  run_of P rest = (k + run_of P (drop k rest))%nat.
Proof.
  revert rest. induction k as [|k IH]; intros rest H; [done|].
  destruct (H O ltac:(lia)) as (c & Hc & HP).
  destruct rest as [|x rest]; [discriminate|]. injection Hc as ->.
  simpl. rewrite HP. f_equal. apply IH. intros i Hi.
  exact (H (S i) ltac:(lia)).
Qed.

(** The run before and after a match. *)
Lemma consumes_run_of P p m st st1 :
  safe p m -> consumes P m -> wf st -> m st = Done true st1 ->
  run_of P (ahead st) =
    (N.to_nat (position st1) - N.to_nat (position st)
     + run_of P (ahead st1))%nat.
Proof.
  intros S Hc W E1. destruct (safe_run _ _ _ _ _ S W E1) as [W1 St1].
  pose proof (step_position _ _ St1) as Hle.
  rewrite (run_of_skip P (ahead st)
             (N.to_nat (position st1) - N.to_nat (position st))).
  - unfold ahead. rewrite drop_drop, (step_buffer _ _ St1).
    do 3 f_equal. lia.
  - intros i Hi.
    destruct (Hc _ _ W E1 (position st + N.of_nat i) ltac:(lia))
      as (c & Hl & HP).
    exists c. split; [|exact HP]. unfold ahead. rewrite lookup_drop.
    rewrite <- Hl. f_equal. lia.
Qed.

Lemma run_of_fails P st c :
  peek st = Some c -> P c = false -> run_of P (ahead st) = O.
Proof. intros Hx HP. rewrite (ahead_peek _ _ Hx). simpl. by rewrite HP. Qed.

(** The loop of a matcher that consumes runes of [P] only and fails only
    at a rune that is not of [P] consumes the run of [P] at the position. *)
Lemma star_loop_run_of P m :
  safe true m -> consumes P m ->
  (forall st st' c,
     wf st -> peek st = Some c -> m st = Done false st' -> P c = false) ->
  forall fuel st st',
    wf st -> star_loop fuel m st = Done true st' ->
    position st' = position st + N.of_nat (run_of P (ahead st)).
Proof.
  intros S Hc Hf. induction fuel as [|fuel IH]; intros st st' W E;
    simpl in E; [discriminate|].
  destruct (S st W) as (b & st1 & E1 & W1 & St1 & Pr). rewrite E1 in E.
  destruct b.
  - specialize (Pr eq_refl eq_refl). rewrite (IH _ _ W1 E).
    rewrite (consumes_run_of P true m st st1 S Hc W E1). lia.
  - injection E as <-. cbn [restore position].
    destruct (wf_peek _ W) as [c Hx].
    rewrite (run_of_fails P st c Hx (Hf _ _ _ W Hx E1)). lia.
Qed.

(** The rule of a loop: it never fails, consumes the run and records its
    span. *)
Lemma run_rule P rule m :
  safe true m -> consumes P m ->
  (forall st st' c,
     wf st -> peek st = Some c -> m st = Done false st' -> P c = false) ->
  forall st, wf st ->
    exists st',
      capture rule (star m) st = Done true st' /\
      position st' = position st + N.of_nat (run_of P (ahead st)) /\
      (nowrap st' ->
       last (visible st') = Some (Token32 rule (position st) (position st'))).
Proof.
  intros S Hc Hf st W. unfold capture.
  destruct (safe_star true m S eq_refl st W) as (b & st1 & E & W1 & _).
  destruct b; [|by apply star_loop_not_false in E].
  rewrite E. unfold star in E.
  pose proof (star_loop_run_of P m S Hc Hf _ _ _ W E) as Hp.
  destruct (add_spec rule (position st) st1 W1)
    as (st' & Ea & _ & _ & Ep & _ & _ & Ev).
  exists st'. split; [exact Ea|]. split; [by rewrite Ep|].
  intros Hn. rewrite (Ev Hn), last_snoc. by rewrite Ep.
Qed.

#[local] Hint Resolve consumes_char consumes_seq consumes_alt
  consumes_rule_fn consumes_capture consumes_action : peg.

Lemma consumes_Whitespace : consumes is_blank Whitespace.
Proof. unfold Whitespace. eauto 100 with peg. Qed.

Lemma consumes_Space : consumes is_space Space.
Proof. unfold Space, Whitespace, EndOfLine. eauto 100 with peg. Qed.

Lemma Whitespace_fails st st' c :
  wf st -> peek st = Some c -> Whitespace st = Done false st' ->
  is_blank c = false.
Proof.
  intros _ Hc E. destruct (Whitespace_false _ _ _ Hc E) as [H1 H2].
  unfold is_blank. apply Z.eqb_neq in H1, H2. by rewrite H1, H2.
Qed.

(** X12. The rules Spacing and WhiteSpacing never fail: Spacing consumes
    all the blanks, tabs, carriage returns and line feeds at the position,
    WhiteSpacing all the blanks and tabs, and each records the span it
    consumed, empty or not. MustWhiteSpacing consumes the same run as
    WhiteSpacing and matches when the run is not empty. *)
Theorem X12_Spacing_consumes_the_run st :
  wf st ->
  (exists st',
     Spacing st = Done true st' /\
     position st' = position st + N.of_nat (run_of is_space (ahead st)) /\
     (nowrap st' ->
      last (visible st') =
        Some (Token32 ruleSpacing (position st) (position st')))) /\
  (exists st',
     WhiteSpacing st = Done true st' /\
     position st' = position st + N.of_nat (run_of is_blank (ahead st)) /\
     (nowrap st' ->
      last (visible st') =
        Some (Token32 ruleWhiteSpacing (position st) (position st')))) /\
  (exists st',
     MustWhiteSpacing st =
       Done (0 <? N.of_nat (run_of is_blank (ahead st))) st' /\
     position st' = position st + N.of_nat (run_of is_blank (ahead st))).
Proof.
  intros W. split; [|split].
  - exact (run_rule is_space ruleSpacing Space safe_Space consumes_Space
             Space_false st W).
  - exact (run_rule is_blank ruleWhiteSpacing Whitespace safe_Whitespace
             consumes_Whitespace Whitespace_fails st W).
  - unfold MustWhiteSpacing, rule_fn, capture, plus, seq.
    destruct (safe_Whitespace st W) as (b & st1 & E1 & W1 & St1 & Pr).
    rewrite E1. destruct b.
    + specialize (Pr eq_refl eq_refl).
      pose proof (consumes_run_of is_blank true _ st st1 safe_Whitespace
                    consumes_Whitespace W E1) as Hr.
      destruct (safe_star true _ safe_Whitespace eq_refl st1 W1)
        as (b & st2 & E2 & W2 & _).
      destruct b; [|by apply star_loop_not_false in E2].
      rewrite E2. unfold star in E2.
      pose proof (star_loop_run_of is_blank _ safe_Whitespace
                    consumes_Whitespace Whitespace_fails _ _ _ W1 E2) as Hp.
      destruct (add_spec ruleMustWhiteSpacing (position st) st2 W2)
        as (st' & Ea & _ & _ & Ep & _).
      rewrite Ea. exists st'. split; [|rewrite Ep, Hp; lia].
      f_equal. symmetry. apply N.ltb_lt. lia.
    + destruct (wf_peek _ W) as [c Hx].
      rewrite (run_of_fails is_blank st c Hx (Whitespace_fails _ _ _ W Hx E1)).
      eexists. split; [reflexivity|]. simpl. lia.
Qed.

Lemma X12_witness :
  let st := State (reset_buffer (runes "  x")) 0 0 token0 [token0] in
  exists st', Spacing st = Done true st' /\ position st' = 2.
Proof.
  intros st.
  assert (W : wf st) by (vm_compute; repeat split; auto; discriminate).
  destruct (proj1 (X12_Spacing_consumes_the_run st W)) as (st' & E & Ep & _).
  exists st'. split; [exact E|]. rewrite Ep. vm_compute. reflexivity.
Defined.

(** ** Line ends and comments *)

(** The record made at the end of a rule. *)
Lemma add_records rule st st1 n :
  wf st1 -> position st1 = position st + n ->
  exists st',
    add rule (position st) st1 = Done true st' /\
    position st' = position st + n /\
    (nowrap st' ->
     last (visible st') = Some (Token32 rule (position st) (position st'))).
Proof.
  intros W1 Hp.
  destruct (add_spec rule (position st) st1 W1)
    as (st' & Ea & _ & _ & Ep & _ & _ & Ev).
  exists st'. split; [exact Ea|]. split; [by rewrite Ep|].
  intros Hn. rewrite (Ev Hn), last_snoc. by rewrite Ep.
Qed.

(** X13. The rule EndOfLine matches a carriage return followed by a line
    feed as one line end of two runes, and a line feed or a carriage return
    alone as a line end of one rune; it records the span. At any other
    rune it fails and leaves the position and the token count as they
    were. *)
Theorem X13_EndOfLine st :
  wf st ->
  exists st',
    EndOfLine st = Done (0 <? line_end_length (ahead st)) st' /\
    position st' = position st + line_end_length (ahead st) /\
    (line_end_length (ahead st) = 0 -> tokenIndex st' = tokenIndex st) /\
    (0 < line_end_length (ahead st) -> nowrap st' ->
     last (visible st') =
       Some (Token32 ruleEndOfLine (position st) (position st'))).
Proof.
  intros W. destruct (wf_peek _ W) as [x Hx]. rewrite (ahead_peek _ _ Hx).
  unfold EndOfLine, rule_fn, capture, alt, seq, line_end_length.
  rewrite (matchChar_peek _ _ _ Hx).
  destruct (Z.eqb_spec x (rn "013")) as [H13|H13].
  - subst x.
    destruct (advance_step _ _ W Hx ltac:(discriminate)) as (Wa & _ & Ea).
    destruct (wf_peek _ Wa) as [d Hd].
    pose proof (ahead_peek _ _ Hd) as Hah. unfold ahead in Hah.
    rewrite Ea in Hah. cbn [advance buffer] in Hah.
    replace (N.to_nat (position st + 1)) with (S (N.to_nat (position st)))
      in Hah by lia.
    rewrite Hah, (matchChar_peek _ _ _ Hd).
    destruct (Z.eqb_spec d (rn "010")) as [H10|H10].
    + subst d.
      destruct (advance_step _ _ Wa Hd ltac:(discriminate))
        as (Waa & _ & Eaa).
      destruct (add_records ruleEndOfLine st (advance (advance st)) 2 Waa
                  ltac:(lia)) as (st' & -> & Ep & Hv).
      exists st'. split; [reflexivity|]. split; [exact Ep|].
      split; [discriminate | auto].
    + rewrite restore_advance, (matchChar_peek _ _ _ Hx).
      change (Z.eqb (rn "013") (rn "010")) with false. cbv iota.
      rewrite restore_same, (matchChar_peek _ _ _ Hx), Z.eqb_refl.
      destruct (add_records ruleEndOfLine st (advance st) 1 Wa Ea)
        as (st' & -> & Ep & Hv).
      exists st'. split; [reflexivity|]. split; [exact Ep|].
      split; [discriminate | auto].
  - rewrite restore_same, (matchChar_peek _ _ _ Hx).
    destruct (Z.eqb_spec x (rn "010")) as [H10|H10].
    + subst x.
      destruct (advance_step _ _ W Hx ltac:(discriminate)) as (Wa & _ & Ea).
      destruct (add_records ruleEndOfLine st (advance st) 1 Wa Ea)
        as (st' & -> & Ep & Hv).
      exists st'. split; [reflexivity|]. split; [exact Ep|].
      split; [discriminate | auto].
    + rewrite restore_same, (matchChar_peek _ _ _ Hx).
      rewrite (proj2 (Z.eqb_neq _ _) H13).
      eexists. split; [reflexivity|]. cbn [restore position tokenIndex].
      split; [lia|]. split; [reflexivity | intros; lia].
Qed.

Lemma X13_witness :
  let st :=
    State (reset_buffer [rn "013"; rn "010"; rn "x"]) 0 0 token0 [token0] in
  exists st', EndOfLine st = Done true st' /\ position st' = 2.
Proof.
  intros st.
  assert (W : wf st) by (vm_compute; repeat split; auto; discriminate).
  destruct (X13_EndOfLine st W) as (st' & E & Ep & _).
  exists st'. split; [exact E | exact Ep].
Defined.

Lemma EndOfLine_not_at st c :
  peek st = Some c -> c <> rn "013" -> c <> rn "010" ->
  EndOfLine st = Done false st.
Proof.
  intros Hx H13 H10. unfold EndOfLine, rule_fn, capture, alt, seq.
  rewrite (matchChar_peek _ _ _ Hx), (proj2 (Z.eqb_neq _ _) H13).
  rewrite restore_same, (matchChar_peek _ _ _ Hx),
    (proj2 (Z.eqb_neq _ _) H10).
  rewrite restore_same, (matchChar_peek _ _ _ Hx),
    (proj2 (Z.eqb_neq _ _) H13).
  by rewrite restore_same.
Qed.

Lemma in_line_spec c :
  in_line c = true <-> c <> rn "013" /\ c <> rn "010" /\ c <> endSymbol.
Proof.
  unfold in_line. rewrite negb_true_iff, !orb_false_iff, !Z.eqb_neq. tauto.
Qed.

Lemma safe_line_rune : safe true (neg EndOfLine >>> matchDot).
Proof. peg_safe. Qed.

Lemma consumes_line_rune : consumes in_line (neg EndOfLine >>> matchDot).
Proof.
  intros st st' W E i Hi. destruct (wf_peek _ W) as [c Hx].
  unfold seq, neg in E.
  destruct (EndOfLine st) as [[|] s| |] eqn:Ee; try discriminate.
  destruct (EndOfLine_false _ _ _ Hx Ee) as [H13 H10].
  rewrite (EndOfLine_not_at _ _ Hx H13 H10) in Ee. injection Ee as <-.
  rewrite restore_same in E. unfold matchDot in E. rewrite Hx in E.
  destruct (Z.eqb_spec c endSymbol) as [|Hend]; [discriminate|].
  injection E as <-.
  destruct (advance_step _ _ W Hx Hend) as (_ & _ & Ea). rewrite Ea in Hi.
  exists c. split; [|by apply in_line_spec].
  replace i with (position st) by lia. exact Hx.
Qed.

Lemma line_rune_fails st st' c :
  wf st -> peek st = Some c ->
  (neg EndOfLine >>> matchDot) st = Done false st' -> in_line c = false.
Proof.
  intros W Hx E. destruct (in_line c) eqn:Hin; [|reflexivity].
  apply in_line_spec in Hin as (H13 & H10 & Hend).
  unfold seq, neg in E. rewrite (EndOfLine_not_at _ _ Hx H13 H10) in E.
  rewrite restore_same in E. unfold matchDot in E. rewrite Hx in E.
  by rewrite (proj2 (Z.eqb_neq _ _) Hend) in E.
Qed.

(** The rest of a line: the loop never fails and stops before the line
    end or the sentinel. *)
Lemma restOfLine_run st :
  wf st ->
  exists st',
    restOfLine st = Done true st' /\ wf st' /\
    position st' = position st + N.of_nat (run_of in_line (ahead st)).
Proof.
  intros W. unfold restOfLine.
  destruct (safe_star true _ safe_line_rune eq_refl st W)
    as (b & st' & E & W' & _).
  destruct b; [|by apply star_loop_not_false in E].
  exists st'. split; [exact E|]. split; [exact W'|]. unfold star in E.
  exact (star_loop_run_of in_line _ safe_line_rune consumes_line_rune
           line_rune_fails _ _ _ W E).
Qed.

Lemma ahead_advance st c :
  wf st -> peek st = Some c -> c <> endSymbol ->
  ahead (advance st) = drop (S (N.to_nat (position st))) (buffer st).
Proof.
  intros W Hx Hc. destruct (advance_step _ _ W Hx Hc) as (_ & _ & Ea).
  unfold ahead. rewrite Ea. cbn [advance buffer]. f_equal. lia.
Qed.

(** The rune where a run stops. *)
Lemma run_of_stops P rest c :
  rest !! run_of P rest = Some c -> P c = false.
Proof.
  induction rest as [|x rest IH]; simpl; [discriminate|].
  destruct (P x) eqn:HP; simpl; [exact IH|]. by intros [= <-].
Qed.

(** X14. The rule Comment matches at a [#] and at two [/], and nowhere
    else. It consumes the rest of the line: every rune up to, and not
    including, the first carriage return, line feed or sentinel, so a
    comment never runs over a line end, and it records the span. *)
Theorem X14_Comment st :
  wf st ->
  exists st',
    Comment st = Done (0 <? comment_length (ahead st)) st' /\
    (0 < comment_length (ahead st) ->
     position st' = position st + comment_length (ahead st) /\
     (exists c, peek st' = Some c /\ in_line c = false) /\
     (nowrap st' ->
      last (visible st') =
        Some (Token32 ruleComment (position st) (position st')))).
Proof.
  intros W. destruct (wf_peek _ W) as [x Hx].
  assert (Hstop : forall st1 st',
            buffer st1 = buffer st ->
            position st' = position st1
                           + N.of_nat (run_of in_line (ahead st1)) ->
            buffer st' = buffer st -> wf st' ->
            exists c, peek st' = Some c /\ in_line c = false).
  { intros st1 st' Eb1 Ep' Eb' W'.
    destruct (wf_peek _ W') as [c Hc]. exists c. split; [exact Hc|].
    apply (run_of_stops in_line (ahead st1)). unfold ahead in *.
    rewrite lookup_drop. unfold peek in Hc. rewrite Eb' in Hc.
    rewrite Eb1 in *. rewrite <- Hc. f_equal. lia. }
  rewrite (ahead_peek _ _ Hx).
  unfold Comment, capture, alt, hashComment, slashComment, seq,
    comment_length.
  rewrite (matchChar_peek _ _ _ Hx).
  destruct (Z.eqb_spec x (rn "#")) as [Hh|Hh].
  - subst x.
    destruct (advance_step _ _ W Hx ltac:(discriminate)) as (Wa & Sa & Ea).
    destruct (restOfLine_run _ Wa) as (st1 & E1 & W1 & Ep1). rewrite E1.
    rewrite (ahead_advance _ _ W Hx ltac:(discriminate)) in Ep1.
    destruct (safe_run _ _ _ _ _ safe_restOfLine Wa E1) as [_ S1].
    destruct (add_spec ruleComment (position st) st1 W1)
      as (st' & Ea' & W' & Eb' & Ep' & _ & _ & Ev).
    rewrite Ea'. exists st'.
    split; [f_equal; symmetry; apply N.ltb_lt; lia|]. intros _.
    split; [rewrite Ep', Ep1, Ea; lia|]. split.
    + apply (Hstop (advance st) st' eq_refl); auto.
      * rewrite Ep', Ep1.
        by rewrite (ahead_advance _ _ W Hx ltac:(discriminate)).
      * by rewrite Eb', (step_buffer _ _ S1).
    + intros Hn. rewrite (Ev Hn), last_snoc. by rewrite Ep'.
  - rewrite restore_same, (matchChar_peek _ _ _ Hx).
    destruct (Z.eqb_spec x (rn "/")) as [Hs|Hs];
      [|eexists; split; [reflexivity | intros; lia]].
    subst x.
    destruct (advance_step _ _ W Hx ltac:(discriminate)) as (Wa & Sa & Ea).
    destruct (wf_peek _ Wa) as [d Hd].
    pose proof (ahead_peek _ _ Hd) as Hah.
    rewrite (ahead_advance _ _ W Hx ltac:(discriminate)) in Hah.
    rewrite Hah, (matchChar_peek _ _ _ Hd).
    destruct (Z.eqb_spec d (rn "/")) as [Hs|Hs];
      [|eexists; split; [reflexivity | intros; lia]].
    subst d.
    destruct (advance_step _ _ Wa Hd ltac:(discriminate))
      as (Waa & Saa & Eaa).
    destruct (restOfLine_run _ Waa) as (st1 & E1 & W1 & Ep1). rewrite E1.
    destruct (safe_run _ _ _ _ _ safe_restOfLine Waa E1) as [_ S1].
    unfold action.
    destruct (add_spec ruleAction13 (position st1) st1 W1)
      as (st2 & Ea2 & W2 & Eb2 & Ep2 & _).
    rewrite Ea2.
    destruct (add_spec ruleComment (position st) st2 W2)
      as (st' & Ea' & W' & Eb' & Ep' & _ & _ & Ev).
    rewrite Ea'. exists st'.
    split; [f_equal; symmetry; apply N.ltb_lt; lia|]. intros _.
    assert (Hrun : run_of in_line (ahead (advance (advance st))) =
                   run_of in_line
                     (drop (S (N.to_nat (position (advance st))))
                        (buffer (advance st)))).
    { by rewrite (ahead_advance _ _ Wa Hd ltac:(discriminate)). }
    split; [rewrite Ep', Ep2, Ep1, Hrun, Eaa, Ea; lia|]. split.
    + apply (Hstop (advance (advance st)) st' eq_refl); auto.
      * by rewrite Ep', Ep2, Ep1.
      * by rewrite Eb', Eb2, (step_buffer _ _ S1).
    + intros Hn. rewrite (Ev Hn), last_snoc. by rewrite Ep'.
Qed.

Lemma X14_witness :
  let st :=
    State (reset_buffer (runes "#a" ++ [rn "010"; rn "b"])) 0 0 token0
      [token0] in
  exists st', Comment st = Done true st' /\ position st' = 2.
Proof.
  intros st.
  assert (W : wf st) by (vm_compute; repeat split; auto; discriminate).
  destruct (X14_Comment st W) as (st' & E & H).
  exists st'. split; [exact E|].
  destruct H as (Ep & _); [vm_compute; reflexivity|].
  rewrite Ep. vm_compute. reflexivity.
Defined.

(** The rule of a loop that runs once at least: it matches when the run is
    not empty, and consumes it. *)
Lemma plus_run_rule P rule m :
  safe true m -> consumes P m ->
  (forall st st' c,
     wf st -> peek st = Some c -> m st = Done false st' -> P c = false) ->
  forall st, wf st ->
    exists st',
      rule_fn (capture rule (plus m)) st =
        Done (0 <? N.of_nat (run_of P (ahead st))) st' /\
      position st' = position st + N.of_nat (run_of P (ahead st)) /\
      (0 < N.of_nat (run_of P (ahead st)) -> nowrap st' ->
       last (visible st') = Some (Token32 rule (position st) (position st'))).
Proof.
  intros S Hc Hf st W. unfold rule_fn, capture, plus, seq.
  destruct (S st W) as (b & st1 & E1 & W1 & St1 & Pr).
  rewrite E1. destruct b.
  - specialize (Pr eq_refl eq_refl).
    pose proof (consumes_run_of P true _ st st1 S Hc W E1) as Hr.
    destruct (safe_star true _ S eq_refl st1 W1) as (b & st2 & E2 & W2 & _).
    destruct b; [|by apply star_loop_not_false in E2].
    rewrite E2. unfold star in E2.
    pose proof (star_loop_run_of P _ S Hc Hf _ _ _ W1 E2) as Hp.
    destruct (add_records rule st st2 (N.of_nat (run_of P (ahead st))) W2
                ltac:(lia)) as (st' & -> & Ep & Hv).
    exists st'. split; [|split; [exact Ep | auto]].
    f_equal. symmetry. apply N.ltb_lt. lia.
  - destruct (wf_peek _ W) as [c Hx].
    rewrite (run_of_fails P st c Hx (Hf _ _ _ W Hx E1)).
    eexists. split; [reflexivity|]. simpl. split; [lia|]. intros; lia.
Qed.

Lemma consumes_identifierChar : consumes is_identifier_rune identifierChar.
Proof.
  intros st st' W E i Hi. destruct (wf_peek _ W) as [c Hx].
  rewrite (identifierChar_spec _ _ Hx) in E.
  destruct (is_identifier_rune c) eqn:Hid; [|discriminate].
  injection E as <-.
  destruct (advance_step _ _ W Hx (is_identifier_rune_not_end _ Hid))
    as (_ & _ & Ea).
  rewrite Ea in Hi. exists c. split; [|exact Hid].
  replace i with (position st) by lia. exact Hx.
Qed.

Lemma identifierChar_fails st st' c :
  wf st -> peek st = Some c -> identifierChar st = Done false st' ->
  is_identifier_rune c = false.
Proof.
  intros _ Hx E. rewrite (identifierChar_spec _ _ Hx) in E.
  by destruct (is_identifier_rune c).
Qed.

(** X15. The rule Identifier consumes all the letters, dots, underscores
    and hyphens at the position, up to the first rune of another kind (a
    digit, for one), and records the span; it matches when there is one
    such rune at least, and otherwise leaves the position as it was. *)
Theorem X15_Identifier_longest_run st :
  wf st ->
  exists st',
    Identifier st =
      Done (0 <? N.of_nat (run_of is_identifier_rune (ahead st))) st' /\
    position st' =
      position st + N.of_nat (run_of is_identifier_rune (ahead st)) /\
    (0 < N.of_nat (run_of is_identifier_rune (ahead st)) -> nowrap st' ->
     last (visible st') =
       Some (Token32 ruleIdentifier (position st) (position st'))).
Proof.
  exact (plus_run_rule is_identifier_rune ruleIdentifier identifierChar
           safe_identifierChar consumes_identifierChar identifierChar_fails
           st).
Qed.

Lemma X15_witness :
  let st := State (reset_buffer (runes "my-var1")) 0 0 token0 [token0] in
  exists st', Identifier st = Done true st' /\ position st' = 6.
Proof.
  intros st.
  assert (W : wf st) by (vm_compute; repeat split; auto; discriminate).
  destruct (X15_Identifier_longest_run st W) as (st' & E & Ep & _).
  exists st'. split; [exact E|]. rewrite Ep. vm_compute. reflexivity.
Defined.

(** ** Runs that differ in the store only *)

Lemma same_peek st1 st2 : same st1 st2 -> peek st1 = peek st2.
Proof. intros (Eb & Ep & _). unfold peek. by rewrite Eb, Ep. Qed.

Lemma same_advance st1 st2 : same st1 st2 -> same (advance st1) (advance st2).
Proof.
  intros (Eb & Ep & Et & Em & Ev). unfold same, advance, visible in *.
  simpl. rewrite Ep. auto.
Qed.

Lemma blind_ok : store_blind ok.
Proof. intros st1 st2 b1 b2 s1 s2 _ _ H [= <- <-] [= <- <-] _ _. auto. Qed.

Lemma blind_char c : store_blind (matchChar c).
Proof.
  intros st1 st2 b1 b2 s1 s2 _ _ H E1 E2 _ _. unfold matchChar in *.
  rewrite <- (same_peek _ _ H) in E2.
  destruct (peek st1) as [x|]; [|discriminate].
  destruct (Z.eqb x c); injection E1 as <- <-; injection E2 as <- <-;
    auto using same_advance.
Qed.

Lemma blind_range lower upper : store_blind (matchRange lower upper).
Proof.
  intros st1 st2 b1 b2 s1 s2 _ _ H E1 E2 _ _. unfold matchRange in *.
  rewrite <- (same_peek _ _ H) in E2.
  destruct (peek st1) as [x|]; [|discriminate].
  destruct (_ || _); injection E1 as <- <-; injection E2 as <- <-;
    auto using same_advance.
Qed.

Lemma blind_dot : store_blind matchDot.
Proof.
  intros st1 st2 b1 b2 s1 s2 _ _ H E1 E2 _ _. unfold matchDot in *.
  rewrite <- (same_peek _ _ H) in E2.
  destruct (peek st1) as [x|]; [|discriminate].
  destruct (Z.eqb x endSymbol); injection E1 as <- <-; injection E2 as <- <-;
    auto using same_advance.
Qed.

(** The closure [add] on two such states. *)
Lemma same_add rule begin st1 st2 s1 s2 b1 b2 :
  wf st1 -> wf st2 -> same st1 st2 ->
  add rule begin st1 = Done b1 s1 -> add rule begin st2 = Done b2 s2 ->
  nowrap s1 -> nowrap s2 ->
  b1 = b2 /\ same s1 s2.
Proof.
  intros W1 W2 (Eb & Ep & Et & Em & Ev) E1 E2 Hn1 Hn2.
  destruct (add_spec rule begin st1 W1)
    as (s1' & Ea1 & _ & Eb1 & Ep1 & _ & Em1 & Ev1).
  destruct (add_spec rule begin st2 W2)
    as (s2' & Ea2 & _ & Eb2 & Ep2 & _ & Em2 & Ev2).
  rewrite E1 in Ea1. injection Ea1 as -> ->.
  rewrite E2 in Ea2. injection Ea2 as -> ->.
  split; [reflexivity|]. unfold same.
  rewrite Eb1, Eb2, Ep1, Ep2, Em1, Em2, (Ev1 Hn1), (Ev2 Hn2).
  rewrite Eb, Ep, Em, Ev. repeat split; auto.
  unfold add in E1, E2.
  destruct (tokens32_Add _ _ _ _ _); [|discriminate].
  destruct (tokens32_Add _ _ _ _ _); [|discriminate].
  injection E1 as <-. injection E2 as <-. simpl. by rewrite Et.
Qed.

Lemma same_restore st1 st2 a1 a2 :
  wf st1 -> wf st2 -> same st1 st2 ->
  wf a1 -> wf a2 -> step st1 a1 -> step st2 a2 -> same a1 a2 ->
  nowrap a1 -> nowrap a2 ->
  same (restore (position st1) (tokenIndex st1) a1)
       (restore (position st2) (tokenIndex st2) a2).
Proof.
  intros W1 W2 (Eb & Ep & Et & Em & Ev) Wa1 Wa2 S1 S2
         (Eb' & _ & _ & Em' & _) Hn1 Hn2.
  destruct (restore_step _ _ W1 Wa1 S1) as (_ & _ & V1).
  destruct (restore_step _ _ W2 Wa2 S2) as (_ & _ & V2).
  unfold same. rewrite (V1 Hn1), (V2 Hn2). simpl. auto.
Qed.

Lemma blind_seq p1 p2 m1 m2 :
  safe p1 m1 -> safe p2 m2 -> store_blind m1 -> store_blind m2 ->
  store_blind (m1 >>> m2).
Proof.
  intros S1 S2 H1 H2 st1 st2 b1 b2 s1 s2 W1 W2 H E1 E2 Hn1 Hn2.
  unfold seq in E1, E2.
  destruct (m1 st1) as [c1 a1| |] eqn:Ea1; try discriminate.
  destruct (m1 st2) as [c2 a2| |] eqn:Ea2; try discriminate.
  destruct (safe_run _ _ _ _ _ S1 W1 Ea1) as [Wa1 _].
  destruct (safe_run _ _ _ _ _ S1 W2 Ea2) as [Wa2 _].
  assert (Hna1 : nowrap a1).
  { destruct c1; [|by injection E1 as <- <-].
    destruct (safe_run _ _ _ _ _ S2 Wa1 E1) as [_ St].
    exact (nowrap_back _ _ St Hn1). }
  assert (Hna2 : nowrap a2).
  { destruct c2; [|by injection E2 as <- <-].
    destruct (safe_run _ _ _ _ _ S2 Wa2 E2) as [_ St].
    exact (nowrap_back _ _ St Hn2). }
  destruct (H1 _ _ _ _ _ _ W1 W2 H Ea1 Ea2 Hna1 Hna2) as [<- Ha].
  destruct c1.
  - exact (H2 _ _ _ _ _ _ Wa1 Wa2 Ha E1 E2 Hn1 Hn2).
  - injection E1 as <- <-. injection E2 as <- <-. auto.
Qed.

Lemma blind_alt p1 p2 m1 m2 :
  safe p1 m1 -> safe p2 m2 -> store_blind m1 -> store_blind m2 ->
  store_blind (alt m1 m2).
Proof.
  intros S1 S2 H1 H2 st1 st2 b1 b2 s1 s2 W1 W2 H E1 E2 Hn1 Hn2.
  unfold alt in E1, E2.
  destruct (m1 st1) as [c1 a1| |] eqn:Ea1; try discriminate.
  destruct (m1 st2) as [c2 a2| |] eqn:Ea2; try discriminate.
  destruct (safe_run _ _ _ _ _ S1 W1 Ea1) as [Wa1 Sa1].
  destruct (safe_run _ _ _ _ _ S1 W2 Ea2) as [Wa2 Sa2].
  destruct (restore_step _ _ W1 Wa1 Sa1) as (Wr1 & _ & _).
  destruct (restore_step _ _ W2 Wa2 Sa2) as (Wr2 & _ & _).
  assert (Hna1 : nowrap a1).
  { destruct c1; [by injection E1 as <- <-|].
    destruct (safe_run _ _ _ _ _ S2 Wr1 E1) as [_ St].
    exact (nowrap_back _ _ St Hn1). }
  assert (Hna2 : nowrap a2).
  { destruct c2; [by injection E2 as <- <-|].
    destruct (safe_run _ _ _ _ _ S2 Wr2 E2) as [_ St].
    exact (nowrap_back _ _ St Hn2). }
  destruct (H1 _ _ _ _ _ _ W1 W2 H Ea1 Ea2 Hna1 Hna2) as [<- Ha].
  destruct c1.
  - injection E1 as <- <-. injection E2 as <- <-. auto.
  - apply (H2 _ _ _ _ _ _ Wr1 Wr2) with (2 := E1) (3 := E2); auto.
    apply same_restore; auto.
Qed.

Lemma blind_neg p m : safe p m -> store_blind m -> store_blind (neg m).
Proof.
  intros S H0 st1 st2 b1 b2 s1 s2 W1 W2 H E1 E2 Hn1 Hn2.
  unfold neg in E1, E2.
  destruct (m st1) as [c1 a1| |] eqn:Ea1; try discriminate.
  destruct (m st2) as [c2 a2| |] eqn:Ea2; try discriminate.
  destruct (safe_run _ _ _ _ _ S W1 Ea1) as [Wa1 Sa1].
  destruct (safe_run _ _ _ _ _ S W2 Ea2) as [Wa2 Sa2].
  assert (Hna1 : nowrap a1) by (by destruct c1; injection E1 as <- <-).
  assert (Hna2 : nowrap a2) by (by destruct c2; injection E2 as <- <-).
  destruct (H0 _ _ _ _ _ _ W1 W2 H Ea1 Ea2 Hna1 Hna2) as [<- Ha].
  destruct c1; injection E1 as <- <-; injection E2 as <- <-;
    auto using same_restore.
Qed.

Lemma blind_rule_fn p m : safe p m -> store_blind m -> store_blind (rule_fn m).
Proof.
  intros S H0 st1 st2 b1 b2 s1 s2 W1 W2 H E1 E2 Hn1 Hn2.
  unfold rule_fn in E1, E2.
  destruct (m st1) as [c1 a1| |] eqn:Ea1; try discriminate.
  destruct (m st2) as [c2 a2| |] eqn:Ea2; try discriminate.
  destruct (safe_run _ _ _ _ _ S W1 Ea1) as [Wa1 Sa1].
  destruct (safe_run _ _ _ _ _ S W2 Ea2) as [Wa2 Sa2].
  assert (Hna1 : nowrap a1) by (by destruct c1; injection E1 as <- <-).
  assert (Hna2 : nowrap a2) by (by destruct c2; injection E2 as <- <-).
  destruct (H0 _ _ _ _ _ _ W1 W2 H Ea1 Ea2 Hna1 Hna2) as [<- Ha].
  destruct c1; injection E1 as <- <-; injection E2 as <- <-;
    auto using same_restore.
Qed.

Lemma add_nowrap rule begin st b st' :
  add rule begin st = Done b st' -> nowrap st' -> nowrap st.
Proof.
  unfold add, tokens32_Add, nowrap.
  destruct (N.of_nat (length (tree st)) <=? tokenIndex st);
    destruct (_ <? _); intros [= <- <-]; simpl;
    rewrite length_insert, ?length_app; lia.
Qed.

Lemma blind_capture p rule m :
  safe p m -> store_blind m -> store_blind (capture rule m).
Proof.
  intros S H0 st1 st2 b1 b2 s1 s2 W1 W2 H E1 E2 Hn1 Hn2.
  unfold capture in E1, E2.
  destruct (m st1) as [c1 a1| |] eqn:Ea1; try discriminate.
  destruct (m st2) as [c2 a2| |] eqn:Ea2; try discriminate.
  destruct (safe_run _ _ _ _ _ S W1 Ea1) as [Wa1 Sa1].
  destruct (safe_run _ _ _ _ _ S W2 Ea2) as [Wa2 Sa2].
  assert (Hna1 : nowrap a1).
  { destruct c1; [|by injection E1 as <- <-].
    exact (add_nowrap _ _ _ _ _ E1 Hn1). }
  assert (Hna2 : nowrap a2).
  { destruct c2; [|by injection E2 as <- <-].
    exact (add_nowrap _ _ _ _ _ E2 Hn2). }
  destruct (H0 _ _ _ _ _ _ W1 W2 H Ea1 Ea2 Hna1 Hna2) as [<- Ha].
  destruct c1.
  - destruct H as (_ & Ep & _). rewrite Ep in E1.
    exact (same_add _ _ _ _ _ _ _ _ Wa1 Wa2 Ha E1 E2 Hn1 Hn2).
  - injection E1 as <- <-. injection E2 as <- <-. auto.
Qed.

Lemma blind_action rule : store_blind (action rule).
Proof. exact (blind_capture false rule ok safe_ok blind_ok). Qed.

Lemma star_loop_blind p m :
  safe p m -> store_blind m ->
  forall fuel st1 st2 b1 b2 s1 s2,
    wf st1 -> wf st2 -> same st1 st2 ->
    star_loop fuel m st1 = Done b1 s1 -> star_loop fuel m st2 = Done b2 s2 ->
    nowrap s1 -> nowrap s2 ->
    b1 = b2 /\ same s1 s2.
Proof.
  intros S H0. induction fuel as [|fuel IH];
    intros st1 st2 b1 b2 s1 s2 W1 W2 H E1 E2 Hn1 Hn2; simpl in E1, E2;
    [discriminate|].
  destruct (m st1) as [c1 a1| |] eqn:Ea1; try discriminate.
  destruct (m st2) as [c2 a2| |] eqn:Ea2; try discriminate.
  destruct (safe_run _ _ _ _ _ S W1 Ea1) as [Wa1 Sa1].
  destruct (safe_run _ _ _ _ _ S W2 Ea2) as [Wa2 Sa2].
  assert (Hna1 : nowrap a1).
  { destruct c1; [|by injection E1 as <- <-].
    destruct (star_loop_run _ _ S _ _ _ _ Wa1 E1) as [_ St].
    exact (nowrap_back _ _ St Hn1). }
  assert (Hna2 : nowrap a2).
  { destruct c2; [|by injection E2 as <- <-].
    destruct (star_loop_run _ _ S _ _ _ _ Wa2 E2) as [_ St].
    exact (nowrap_back _ _ St Hn2). }
  destruct (H0 _ _ _ _ _ _ W1 W2 H Ea1 Ea2 Hna1 Hna2) as [<- Ha].
  destruct c1.
  - exact (IH _ _ _ _ _ _ Wa1 Wa2 Ha E1 E2 Hn1 Hn2).
  - injection E1 as <- <-. injection E2 as <- <-.
    auto using same_restore.
Qed.

Lemma blind_star p m : safe p m -> store_blind m -> store_blind (star m).
Proof.
  intros S H0 st1 st2 b1 b2 s1 s2 W1 W2 H E1 E2 Hn1 Hn2. unfold star in *.
  pose proof (proj1 H) as Eb. rewrite <- Eb in E2.
  exact (star_loop_blind p m S H0 _ _ _ _ _ _ _ W1 W2 H E1 E2 Hn1 Hn2).
Qed.

Lemma blind_plus p m :
  safe p m -> p = true -> store_blind m -> store_blind (plus m).
Proof.
  intros S -> H. unfold plus.
  eauto using blind_seq, blind_star, safe_star.
Qed.

Lemma blind_opt p m : safe p m -> store_blind m -> store_blind (opt m).
Proof. intros S H. unfold opt. eauto using blind_alt, blind_ok, safe_ok. Qed.

Lemma blind_switch_nil default :
  store_blind default -> store_blind (switch [] default).
Proof.
  intros H0 st1 st2 b1 b2 s1 s2 W1 W2 H E1 E2. unfold switch in *.
  rewrite <- (same_peek _ _ H) in E2.
  destruct (peek st1); [|discriminate]. simpl in *. eauto.
Qed.

Lemma blind_switch_cons cs m cases default :
  store_blind m -> store_blind (switch cases default) ->
  store_blind (switch ((cs, m) :: cases) default).
Proof.
  intros H1 H2 st1 st2 b1 b2 s1 s2 W1 W2 H E1 E2. unfold switch in *.
  specialize (H2 st1 st2 b1 b2 s1 s2 W1 W2 H). cbv beta in H2.
  rewrite <- (same_peek _ _ H) in *.
  destruct (peek st1) as [c|]; [|discriminate]. simpl in E1, E2.
  destruct (existsb (Z.eqb c) cs); [exact (H1 _ _ _ _ _ _ W1 W2 H E1 E2)|].
  exact (H2 E1 E2).
Qed.

Lemma blind_lit s : lit_ok (runes s) = true -> store_blind (lit s).
Proof.
  unfold lit. intros Hok.
  assert (Hcs : forallb (fun c => negb (Z.eqb c endSymbol)) (runes s) = true).
  { unfold lit_ok in Hok. by destruct (runes s). }
  clear Hok. induction (runes s) as [|c cs IH]; [exact blind_ok|].
  simpl in Hcs. apply andb_prop in Hcs as [Hc Hcs]. simpl.
  apply negb_true_iff in Hc.
  eapply (blind_seq true false);
    eauto using safe_char, safe_chars, blind_char.
Qed.

#[local] Hint Resolve blind_char blind_range blind_dot blind_lit blind_seq
  blind_alt blind_neg blind_rule_fn blind_capture blind_action blind_star
  blind_plus blind_opt blind_switch_nil blind_switch_cons : peg.

Ltac peg_blind := eauto 5000 with peg.

Lemma blind_Whitespace : store_blind Whitespace.
Proof. unfold Whitespace. peg_blind. Qed.
#[local] Hint Resolve blind_Whitespace : peg.

Lemma blind_EndOfLine : store_blind EndOfLine.
Proof. unfold EndOfLine. peg_blind. Qed.
#[local] Hint Resolve blind_EndOfLine : peg.

Lemma blind_Space : store_blind Space.
Proof. unfold Space. peg_blind. Qed.
#[local] Hint Resolve blind_Space : peg.

Lemma blind_Spacing : store_blind Spacing.
Proof. unfold Spacing. peg_blind. Qed.
#[local] Hint Resolve blind_Spacing : peg.

Lemma blind_WhiteSpacing : store_blind WhiteSpacing.
Proof. unfold WhiteSpacing. peg_blind. Qed.
#[local] Hint Resolve blind_WhiteSpacing : peg.

Lemma blind_MustWhiteSpacing : store_blind MustWhiteSpacing.
Proof. unfold MustWhiteSpacing. peg_blind. Qed.
#[local] Hint Resolve blind_MustWhiteSpacing : peg.

Lemma blind_Equal : store_blind Equal.
Proof. unfold Equal. peg_blind. Qed.
#[local] Hint Resolve blind_Equal : peg.

Lemma blind_identifierChar : store_blind identifierChar.
Proof. unfold identifierChar. peg_blind. Qed.
#[local] Hint Resolve blind_identifierChar : peg.

Lemma blind_Identifier : store_blind Identifier.
Proof. unfold Identifier. peg_blind. Qed.
#[local] Hint Resolve blind_Identifier : peg.

Lemma blind_Action : store_blind Action.
Proof. unfold Action. peg_blind. Qed.
#[local] Hint Resolve blind_Action : peg.

Lemma blind_Entity : store_blind Entity.
Proof. unfold Entity. peg_blind. Qed.
#[local] Hint Resolve blind_Entity : peg.

Lemma blind_digit : store_blind digit.
Proof. unfold digit. peg_blind. Qed.
#[local] Hint Resolve blind_digit : peg.

Lemma blind_CidrValue : store_blind CidrValue.
Proof. unfold CidrValue. peg_blind. Qed.
#[local] Hint Resolve blind_CidrValue : peg.

Lemma blind_IpValue : store_blind IpValue.
Proof. unfold IpValue. peg_blind. Qed.
#[local] Hint Resolve blind_IpValue : peg.

Lemma blind_IntRangeValue : store_blind IntRangeValue.
Proof. unfold IntRangeValue. peg_blind. Qed.
#[local] Hint Resolve blind_IntRangeValue : peg.

Lemma blind_IntValue : store_blind IntValue.
Proof. unfold IntValue. peg_blind. Qed.
#[local] Hint Resolve blind_IntValue : peg.

Lemma blind_RefValue : store_blind RefValue.
Proof. unfold RefValue. peg_blind. Qed.
#[local] Hint Resolve blind_RefValue : peg.

Lemma blind_AliasValue : store_blind AliasValue.
Proof. unfold AliasValue. peg_blind. Qed.
#[local] Hint Resolve blind_AliasValue : peg.

Lemma blind_HoleValue : store_blind HoleValue.
Proof. unfold HoleValue. peg_blind. Qed.
#[local] Hint Resolve blind_HoleValue : peg.

Lemma blind_stringValueChar : store_blind stringValueChar.
Proof. unfold stringValueChar. peg_blind. Qed.
#[local] Hint Resolve blind_stringValueChar : peg.

Lemma blind_StringValue : store_blind StringValue.
Proof. unfold StringValue. peg_blind. Qed.
#[local] Hint Resolve blind_StringValue : peg.

Lemma blind_Value : store_blind Value.
Proof.
  unfold Value, valueCidr, valueIp, valueIntRange, valueInt,
    valueByLeadingRune.
  peg_blind.
Qed.
#[local] Hint Resolve blind_Value : peg.

Lemma blind_Param : store_blind Param.
Proof. unfold Param. peg_blind. Qed.
#[local] Hint Resolve blind_Param : peg.

Lemma blind_Params : store_blind Params.
Proof. unfold Params. peg_blind. Qed.
#[local] Hint Resolve blind_Params : peg.

Lemma blind_Expr : store_blind Expr.
Proof. unfold Expr. peg_blind. Qed.
#[local] Hint Resolve blind_Expr : peg.

Lemma blind_Declaration : store_blind Declaration.
Proof. unfold Declaration. peg_blind. Qed.
#[local] Hint Resolve blind_Declaration : peg.

Lemma blind_restOfLine : store_blind restOfLine.
Proof. unfold restOfLine. peg_blind. Qed.
#[local] Hint Resolve blind_restOfLine : peg.

Lemma blind_Comment : store_blind Comment.
Proof. unfold Comment, hashComment, slashComment. peg_blind. Qed.
#[local] Hint Resolve blind_Comment : peg.

Lemma blind_Statement : store_blind Statement.
Proof. unfold Statement. peg_blind. Qed.
#[local] Hint Resolve blind_Statement : peg.

Lemma blind_EndOfFile : store_blind EndOfFile.
Proof. unfold EndOfFile. peg_blind. Qed.
#[local] Hint Resolve blind_EndOfFile : peg.

Lemma blind_Script : store_blind Script.
Proof. unfold Script. peg_blind. Qed.

Lemma blind_rules r f : _rules r = Some f -> store_blind f.
Proof.
  destruct r; simpl; intros [= <-];
    eauto using blind_Script, blind_Expr, blind_Identifier, blind_Spacing,
      blind_WhiteSpacing, blind_MustWhiteSpacing, blind_Equal,
      blind_Whitespace, blind_EndOfLine.
Qed.

Lemma wf_Reset Buffer st0 :
  N.of_nat (length Buffer) < 2 ^ 32 -> (0 < length (tree st0))%nat ->
  wf (Reset Buffer st0).
Proof.
  intros H Ht. destruct (reset_buffer_spec Buffer) as (Hl & Hlen & Hpos).
  unfold wf, Reset. cbn [buffer position tokenIndex tree].
  repeat split; auto; lia.
Qed.

(** X16. A parse after [Reset] does not depend on what the parses before
    left in the token store, which [Reset] keeps. For two stores that are
    not empty, the same text and the same rule, the two parses agree on the
    result, on the position, on the slot [max] and on the records, so
    [Parse] returns the same error, or [nil] with the same token list. The
    state of [Init] is the one [Reset] makes on a fresh store, so a parse
    after [Reset] is a parse after [Init]. *)
Theorem X16_parse_after_Reset Buffer st0 st0' r f b s b' s' :
  N.of_nat (length Buffer) < 2 ^ 32 ->
  (0 < length (tree st0))%nat -> (0 < length (tree st0'))%nat ->
  _rules r = Some f ->
  f (Reset Buffer st0) = Done b s -> f (Reset Buffer st0') = Done b' s' ->
  nowrap s -> nowrap s' ->
  (forall Buffer0, Init Buffer = Reset Buffer (Init Buffer0)) /\
  b = b' /\ position s = position s' /\ max s = max s' /\
  visible s = visible s' /\
  match Parse [r] (Reset Buffer st0), Parse [r] (Reset Buffer st0') with
  | Parsed None tokens, Parsed None tokens' => tokens = tokens'
  | Parsed (Some err) _, Parsed (Some err') _ => err = err'
  | _, _ => False
  end.
Proof.
  intros Hlen Ht Ht' Er E E' Hn Hn'.
  pose proof (wf_Reset Buffer st0 Hlen Ht) as W.
  pose proof (wf_Reset Buffer st0' Hlen Ht') as W'.
  assert (H : same (Reset Buffer st0) (Reset Buffer st0')).
  { unfold same, Reset, visible. simpl. auto. }
  destruct (blind_rules r f Er _ _ _ _ _ _ W W' H E E' Hn Hn')
    as (<- & Eb & Ep & Et & Em & Ev).
  split; [reflexivity|]. split; [reflexivity|].
  split; [exact Ep|]. split; [exact Em|]. split; [exact Ev|].
  destruct (safe_run _ _ _ _ _ (safe_rules r f Er) W E) as [Ws _].
  destruct (safe_run _ _ _ _ _ (safe_rules r f Er) W' E') as [Ws' _].
  unfold Parse. rewrite Er, E, E'. destruct b; [|exact Em].
  by rewrite (Trim_visible _ Ws), (Trim_visible _ Ws').
Qed.

Lemma X16_witness :
  let Buffer := runes "stop vpc" in
  let st0 := State [] 0 0 token0 [token0] in
  let st0' := State [] 0 0 token0 [Token32 ruleScript 0 9; token0] in
  exists s s',
    Script (Reset Buffer st0) = Done true s /\
    Script (Reset Buffer st0') = Done true s' /\
    visible s = visible s'.
Proof.
  intros Buffer st0 st0'.
  eassert (E : Script (Reset Buffer st0) = Done true _)
    by (vm_compute; reflexivity).
  eassert (E' : Script (Reset Buffer st0') = Done true _)
    by (vm_compute; reflexivity).
  destruct (X16_parse_after_Reset Buffer st0 st0' ruleScript Script _ _ _ _
              ltac:(vm_compute; reflexivity) ltac:(simpl; lia)
              ltac:(simpl; lia) eq_refl E E'
              ltac:(vm_compute; reflexivity) ltac:(vm_compute; reflexivity))
    as (_ & _ & _ & _ & Hv & _).
  eexists _, _. split; [exact E|]. split; [exact E' | exact Hv].
Defined.
